(** * church: lambda expressions, binding, canonical encoding, parsing

    A shallow embedding of [church/expr.py] and [church/lambda_parser.py]
    together with the properties stated about them.

    Conventions of the embedding.
    - A Python exception is a value of [exn]; a computation that may raise
      returns [exn + A] ([inl] raises, [inr] returns).
    - A Python list that is only used as a stack ([append] / [pop] /
      [extend]) is a Rocq list whose head is the top of the stack, that is,
      the LAST element of the Python list.
    - A [Parameter] object is compared and hashed by identity; its identity
      is the field [pid], handed out by an allocation counter.  Dictionaries
      keyed by Parameters are [gmap]s keyed by [pid].  The counter only
      grows, so the identity of an object that exists is below the counter
      (predicate [allocated]) and a new object differs from all of them.
    - A [str] is a [string] of one-byte characters. *)

From Stdlib Require Import ZArith String Ascii List Lia.
From stdpp Require Import base option gmap strings list.
From Equations Require Import Equations.

Local Open Scope string_scope.
Local Open Scope list_scope.

(** ** Exceptions *)

Inductive exn : Type :=
| AssertionError
| KeyError
| IndexError
| StopIteration
| AttributeError
| TypeError
| ValueError (msg : string)
| ParseError (args : list string).

(** [let! x := c in k] runs [c]; an exception of [c] propagates. *)
Definition bind_exn {A B : Type} (c : exn + A) (k : A -> exn + B) : exn + B :=
  match c with
  | inl e => inl e
  | inr a => k a
  end.

Notation "'let!' x ':=' c 'in' k" := (bind_exn c (fun x => k))
  (at level 10, x pattern, c at level 100, k at level 200).

(** [assert cond] *)
Definition assert (cond : bool) : exn + unit :=
  if cond then inr tt else inl AssertionError.

(** A [for] loop over a finite sequence whose body may raise. *)
Fixpoint for_each {S X : Type} (body : S -> X -> exn + S) (s : S) (xs : list X)
  : exn + S :=
  match xs with
  | [] => inr s
  | x :: xs => let! s' := body s x in for_each body s' xs
  end.

(** [stack.pop()] on a list used as a stack. *)
Definition pop {A : Type} (stack : list A) : exn + (A * list A) :=
  match stack with
  | [] => inl IndexError
  | x :: stack => inr (x, stack)
  end.

(** [not stack] *)
Definition empty_list {A : Type} (l : list A) : bool :=
  match l with
  | [] => true
  | _ => false
  end.

(** [''.join(parts)] *)
Definition join (parts : list string) : string :=
  foldr String.append "" parts.

(** [s * n] for a Python string [s] and integer [n] (empty when [n <= 0]). *)
Definition str_mul (s : string) (n : Z) : string :=
  join (replicate (Z.to_nat n) s).

(** ** expr.py: binding-resolved expressions *)

(** [class Parameter]; the class name is reserved in Rocq, hence [Param]. *)
Record Param : Type := mkParameter { pid : nat; name : string }.

(** [Parameter(name)]: a fresh object; the counter is the allocator. *)
Definition new_Parameter (nm : string) (next : nat) : Param * nat :=
  (mkParameter next nm, S next).

Inductive Expr : Type :=
| ApplyExpr (function argument : Expr)
| FunctionExpr (parameter : Param) (body : Expr)
| ParameterReference (parameter : Param).

(** The tokens of [Expr.flatten], each a pair [(piece, arg)] in the source. *)
Inductive piece : Type :=
| APPLY
| CLOSE_APPLY
| FUNCTION (arg : Param)
| CLOSE_FUNCTION (arg : Param)
| NAME (arg : Param).

(** Entries of the [to_do] work list of [Expr.flatten]. *)
Inductive todo : Type :=
| PROCESS (arg : Expr)
| YIELD (arg : piece).

Definition _pieces (self : Expr) : list todo :=
  match self with
  | ApplyExpr function argument =>
      [YIELD APPLY; PROCESS function; PROCESS argument; YIELD CLOSE_APPLY]
  | FunctionExpr parameter body =>
      [YIELD (FUNCTION parameter); PROCESS body; YIELD (CLOSE_FUNCTION parameter)]
  | ParameterReference parameter =>
      [YIELD (NAME parameter)]
  end.

(** Number of iterations of the [while to_do] loop still to run. *)
Fixpoint expr_weight (e : Expr) : nat :=
  match e with
  | ApplyExpr f a => 3 + expr_weight f + expr_weight a
  | FunctionExpr _ b => 3 + expr_weight b
  | ParameterReference _ => 2
  end.

Definition todo_weight (t : todo) : nat :=
  match t with
  | PROCESS e => expr_weight e
  | YIELD _ => 1
  end.

Definition to_do_weight (to_do : list todo) : nat :=
  foldr (fun t n => todo_weight t + n) 0 to_do.

(** The [while to_do:] loop of [Expr.flatten]: pop the top entry; a
    [PROCESS] entry is replaced by the pieces of its node (first piece on
    top), a [YIELD] entry is emitted. *)
Equations? flatten_loop (to_do : list todo) : list piece
  by wf (to_do_weight to_do) lt :=
flatten_loop [] := [];
flatten_loop (PROCESS arg :: to_do) := flatten_loop (_pieces arg ++ to_do);
flatten_loop (YIELD arg :: to_do) := arg :: flatten_loop to_do.
Proof. destruct arg; simpl; lia. Qed.

Definition flatten (self : Expr) : list piece :=
  flatten_loop [PROCESS self].

(** [d[key]] on a dictionary keyed by Parameter identity. *)
Definition dict_get {V : Type} (d : gmap nat V) (key : Param) : exn + V :=
  match d !! pid key with
  | Some v => inr v
  | None => inl KeyError
  end.

(** [len(d)] *)
Definition len {V : Type} (d : gmap nat V) : Z := Z.of_nat (size d).

(** Body of the [for piece, arg in self.flatten()] loop of [Expr.bitstring];
    the loop state is the pair [(bindings, bits)]. *)
Definition bitstring_body (st : gmap nat Z * list string) (ev : piece)
  : exn + (gmap nat Z * list string) :=
  let '(bindings, bits) := st in
  match ev with
  | APPLY => inr (bindings, bits ++ ["01"])
  | FUNCTION arg =>
      let bits := bits ++ ["00"] in
      let! _ := assert (bool_decide (bindings !! pid arg = None)) in
      inr (<[pid arg := len bindings]> bindings, bits)
  | CLOSE_FUNCTION arg =>
      let! level := dict_get bindings arg in
      let bindings := delete (pid arg) bindings in
      let! _ := assert (Z.eqb level (len bindings)) in
      inr (bindings, bits)
  | NAME arg =>
      let! level := dict_get bindings arg in
      let index := (len bindings - 1 - level)%Z in
      inr (bindings, bits ++ ["1"; str_mul "1" index; "0"])
  | CLOSE_APPLY => inr (bindings, bits)
  end.

Definition bitstring (self : Expr) : exn + string :=
  let! (_, bits) := for_each bitstring_body (∅, []) (flatten self) in
  inr (join bits).

(** [type(self)] *)
Inductive Expr_class : Type := cls_ApplyExpr | cls_FunctionExpr | cls_ParameterReference.

Definition type (self : Expr) : Expr_class :=
  match self with
  | ApplyExpr _ _ => cls_ApplyExpr
  | FunctionExpr _ _ => cls_FunctionExpr
  | ParameterReference _ => cls_ParameterReference
  end.

Definition Expr_class_eqb (a b : Expr_class) : bool :=
  match a, b with
  | cls_ApplyExpr, cls_ApplyExpr
  | cls_FunctionExpr, cls_FunctionExpr
  | cls_ParameterReference, cls_ParameterReference => true
  | _, _ => false
  end.

(** [Expr.__eq__]: [and] short-circuits, so the bit strings are only
    computed when the classes agree. *)
Definition __eq__ (self other : Expr) : exn + bool :=
  if Expr_class_eqb (type self) (type other) then
    let! a := bitstring self in
    let! b := bitstring other in
    inr (String.eqb a b)
  else inr false.

(** [e.parameter]: [FunctionExpr] and [ParameterReference] have the
    attribute, [ApplyExpr] has not. *)
Definition get_parameter (e : Expr) : exn + Param :=
  match e with
  | FunctionExpr parameter _ => inr parameter
  | ParameterReference parameter => inr parameter
  | ApplyExpr _ _ => inl AttributeError
  end.

(** Loop state of [FunctionExpr.__call__]: the result stack, the
    replacements dictionary and the Parameter allocator. *)
Record call_state : Type := mkCallState {
  cs_result_stack : list Expr;
  cs_replacements : gmap nat Expr;
  cs_next : nat
}.

Definition call_body (st : call_state) (ev : piece) : exn + call_state :=
  let '(mkCallState result_stack replacements next) := st in
  match ev with
  | CLOSE_APPLY =>
      let! (argument, result_stack) := pop result_stack in
      let! (function, result_stack) := pop result_stack in
      inr (mkCallState (ApplyExpr function argument :: result_stack) replacements next)
  | FUNCTION arg =>
      let '(new_parameter, next) := new_Parameter (name arg) next in
      let! _ := assert (bool_decide (replacements !! pid arg = None)) in
      inr (mkCallState result_stack
             (<[pid arg := ParameterReference new_parameter]> replacements) next)
  | CLOSE_FUNCTION arg =>
      let! popped := dict_get replacements arg in
      let replacements := delete (pid arg) replacements in
      let! new_parameter := get_parameter popped in
      let! (body, result_stack) := pop result_stack in
      inr (mkCallState (FunctionExpr new_parameter body :: result_stack) replacements next)
  | NAME arg =>
      let! e := dict_get replacements arg in
      inr (mkCallState (e :: result_stack) replacements next)
  | APPLY => inr st
  end.

(** [FunctionExpr.__call__(self, argument)], run with the allocator at
    [next]; returns the result and the allocator afterwards.  Only a
    [FunctionExpr] is callable. *)
Definition __call__ (self argument : Expr) (next : nat) : exn + (Expr * nat) :=
  match self with
  | FunctionExpr parameter body =>
      let! st := for_each call_body
                   (mkCallState [] {[ pid parameter := argument ]} next)
                   (flatten body) in
      let! (result, result_stack) := pop (cs_result_stack st) in
      let! _ := assert (empty_list result_stack) in
      inr (result, cs_next st)
  | _ => inl TypeError
  end.

(** ** The raw syntax tree

    Two families of classes have this shape.  [lambda_parser.py] builds its
    result from its own node classes [Name], [Apply] and [Function], which
    define [__init__], [__repr__] and [__eq__] and nothing else.  [expr.py]
    works on the trees of the module [church.ast], which have the same
    three constructors and fields and, in addition, the traversal
    [flatten].  [Ast] is the shape of both; [tree_object] records the
    family of an object where code written for one family is handed an
    object of the other. *)

Inductive Ast : Type :=
| Name (name : string)
| Apply (function argument : Ast)
| Function (name : string) (body : Ast).

(** [Ast.__eq__]: field by field, after a test of the classes. *)
Fixpoint Ast_eqb (self other : Ast) : bool :=
  match self, other with
  | Name n1, Name n2 => String.eqb n1 n2
  | Apply f1 a1, Apply f2 a2 => Ast_eqb f1 f2 && Ast_eqb a1 a2
  | Function n1 b1, Function n2 b2 => String.eqb n1 n2 && Ast_eqb b1 b2
  | _, _ => false
  end.

(** The events of the traversal of a raw tree, an [AstToken] kind paired
    with its payload. *)
Module AstToken.
Inductive t : Type :=
| NAME (arg : string)
| OPEN_FUNCTION (arg : string)
| CLOSE_FUNCTION (arg : string)
| OPEN_APPLY
| CLOSE_APPLY.
End AstToken.

(** Modelled from the spec: the traversal method [flatten] of the raw tree
    ([church/ast.py] is not among the sources).  The specification gives its
    contract: a finite sequence of events of the kinds NAME, OPEN_FUNCTION,
    CLOSE_FUNCTION, OPEN_APPLY and CLOSE_APPLY, each paired with a payload,
    in pre-order with explicit close markers (function subtree before
    argument subtree).  The payload of a NAME or a function event is the
    name; an apply event carries none. *)
Fixpoint Ast_flatten (self : Ast) : list AstToken.t :=
  match self with
  | Name name => [AstToken.NAME name]
  | Apply function argument =>
      [AstToken.OPEN_APPLY] ++ Ast_flatten function ++ Ast_flatten argument
        ++ [AstToken.CLOSE_APPLY]
  | Function name body =>
      [AstToken.OPEN_FUNCTION name] ++ Ast_flatten body
        ++ [AstToken.CLOSE_FUNCTION name]
  end.

(** ** expr.py: bind *)

(** [lookup(bindings, name)]: [reversed(bindings)] scans from the most
    recently appended pair, which is the head of the stack. *)
Fixpoint lookup (bindings : list (string * Param)) (name : string) : exn + Param :=
  match bindings with
  | [] => inl (ValueError "Failed lookup")
  | (parameter_name, parameter) :: bindings =>
      if String.eqb parameter_name name then inr parameter
      else lookup bindings name
  end.

Record bind_state : Type := mkBindState {
  bd_expr_stack : list Expr;
  bd_bindings : list (string * Param);
  bd_next : nat
}.

Definition bind_body (st : bind_state) (ev : AstToken.t) : exn + bind_state :=
  let '(mkBindState expr_stack bindings next) := st in
  match ev with
  | AstToken.NAME arg =>
      let! parameter := lookup bindings arg in
      inr (mkBindState (ParameterReference parameter :: expr_stack) bindings next)
  | AstToken.OPEN_FUNCTION arg =>
      let '(parameter, next) := new_Parameter arg next in
      inr (mkBindState expr_stack ((arg, parameter) :: bindings) next)
  | AstToken.CLOSE_FUNCTION _ =>
      let! ((_, parameter), bindings) := pop bindings in
      let! (body, expr_stack) := pop expr_stack in
      inr (mkBindState (FunctionExpr parameter body :: expr_stack) bindings next)
  | AstToken.OPEN_APPLY => inr st
  | AstToken.CLOSE_APPLY =>
      let! (arg, expr_stack) := pop expr_stack in
      let! (fn, expr_stack) := pop expr_stack in
      inr (mkBindState (ApplyExpr fn arg :: expr_stack) bindings next)
  end.

(** [bind(ast)], run with the allocator at [next]. *)
Definition bind (ast : Ast) (next : nat) : exn + (Expr * nat) :=
  let! st := for_each bind_body (mkBindState [] [] next) (Ast_flatten ast) in
  let! (result, expr_stack) := pop (bd_expr_stack st) in
  let! _ := assert (Z.eqb (Z.of_nat (length expr_stack)) 0) in
  inr (result, bd_next st).

(** ** expr.py: unbind *)

Definition DIGITS : list string :=
  ["0"; "1"; "2"; "3"; "4"; "5"; "6"; "7"; "8"; "9"].

(** [''.join(suffix) for suffix in itertools.product(DIGITS, repeat=n)]:
    the first position varies slowest. *)
Fixpoint product (repeat : nat) : list string :=
  match repeat with
  | 0 => [""]
  | S repeat =>
      flat_map (fun d => map (String.append d) (product repeat)) DIGITS
  end.

(** The variants that [variants(base_name)] yields for one suffix length. *)
Definition variants_of_length (base_name : string) (suffix_length : nat)
  : list string :=
  map (String.append base_name) (product suffix_length).

(** Remember the equation of a scrutinee. *)
Definition inspect {A : Type} (a : A) : {b : A | a = b} := exist _ a eq_refl.

(** The names of [names_to_avoid] that are at least as long as the variants
    of [base_name] with the given suffix length: those the walk through
    [variants(base_name)] can still meet. *)
Definition names_ahead (names_to_avoid : gset string) (base_name : string)
    (suffix_length : nat) : gset string :=
  filter (fun v => String.length base_name + suffix_length <= String.length v)
         names_to_avoid.

(** [name_avoiding] walks the unbounded generator [variants(base_name)],
    suffix length after suffix length, and returns the first variant that
    is not in [names_to_avoid].  The walk ends because a suffix length all
    of whose variants are to be avoided uses up names of the finite set. *)
Equations? name_avoiding_from (names_to_avoid : gset string)
    (base_name : string) (suffix_length : nat) : string
  by wf (size (names_ahead names_to_avoid base_name suffix_length)) lt :=
name_avoiding_from names_to_avoid base_name suffix_length
  with inspect (List.find (fun variant => bool_decide (variant ∉ names_to_avoid))
                  (variants_of_length base_name suffix_length)) := {
  | exist _ (Some variant) _ => variant
  | exist _ None _ =>
      name_avoiding_from names_to_avoid base_name (S suffix_length) }.
Proof.
  assert (Hlen : forall a b, String.length (a +:+ b) = String.length a + String.length b).
  { intros a b. induction a as [|c a IH]; simpl; [reflexivity | now rewrite IH]. }
  assert (Hprod : forall k, exists s, In s (product k) /\ String.length s = k).
  { intros k. induction k as [|k [s [Hin Hs]]].
    - exists "". split; [now left | reflexivity].
    - exists ("0" +:+ s). split; [| now rewrite Hlen, Hs].
      simpl. apply in_or_app. left. now apply in_map. }
  match goal with
  | |- context [names_ahead _ _ (S ?k)] => destruct (Hprod k) as [s [Hin Hs]]
  end.
  assert (Hmem : base_name +:+ s ∈ names_to_avoid).
  { pose proof (find_none _ _ e (base_name +:+ s)) as Hf.
    destruct (decide (base_name +:+ s ∈ names_to_avoid)) as [|Hn]; [assumption|].
    rewrite bool_decide_eq_false in Hf. exfalso. apply Hf; [| exact Hn].
    unfold variants_of_length. now apply in_map. }
  apply subset_size. unfold names_ahead.
  split.
  - intros v. rewrite !elem_of_filter. intros [Hv ?]. split; [lia | assumption].
  - intros Hsub. specialize (Hsub (base_name +:+ s)).
    rewrite !elem_of_filter, Hlen, Hs in Hsub.
    destruct Hsub as [Hbad _]; [split; [lia | assumption] | lia].
Qed.

Definition name_avoiding (names_to_avoid : gset string) (base_name : string)
  : string :=
  name_avoiding_from names_to_avoid base_name 0.

(** Entries of the result stack of [unbind]: names and finished nodes. *)
Inductive unbind_item : Type :=
| item_name (name : string)
| item_node (node : Ast).

Record unbind_state : Type := mkUnbindState {
  ub_result_stack : list unbind_item;
  ub_replacements : gmap nat string;
  ub_names_in_scope : gset string
}.

(** The raw-tree constructors take any object; the result stack of
    [unbind] holds a name exactly where a name is popped and a node where a
    node is popped (lemma [unbind_raises]), so the branches for the other
    combinations are never entered.  They raise [TypeError] here. *)
Definition as_node (item : unbind_item) : exn + Ast :=
  match item with
  | item_node node => inr node
  | item_name _ => inl TypeError
  end.

Definition as_name (item : unbind_item) : exn + string :=
  match item with
  | item_name name => inr name
  | item_node _ => inl TypeError
  end.

(** [names_in_scope.remove(name)] *)
Definition set_remove (names : gset string) (name : string) : exn + gset string :=
  if bool_decide (name ∈ names) then inr (names ∖ {[ name ]}) else inl KeyError.

Definition unbind_body (st : unbind_state) (ev : piece) : exn + unbind_state :=
  let '(mkUnbindState result_stack replacements names_in_scope) := st in
  match ev with
  | CLOSE_APPLY =>
      let! (argument, result_stack) := pop result_stack in
      let! (function, result_stack) := pop result_stack in
      let! argument := as_node argument in
      let! function := as_node function in
      inr (mkUnbindState (item_node (Apply function argument) :: result_stack)
             replacements names_in_scope)
  | FUNCTION arg =>
      let name := name_avoiding names_in_scope (name arg) in
      let! _ := assert (bool_decide (name ∉ names_in_scope)) in
      let! _ := assert (bool_decide (replacements !! pid arg = None)) in
      inr (mkUnbindState (item_name name :: result_stack)
             (<[pid arg := name]> replacements)
             ({[ name ]} ∪ names_in_scope))
  | CLOSE_FUNCTION arg =>
      let! (body, result_stack) := pop result_stack in
      let! (name, result_stack) := pop result_stack in
      let! body := as_node body in
      let! name := as_name name in
      let result_stack := item_node (Function name body) :: result_stack in
      let! _ := dict_get replacements arg in
      let replacements := delete (pid arg) replacements in
      let! names_in_scope := set_remove names_in_scope name in
      inr (mkUnbindState result_stack replacements names_in_scope)
  | NAME arg =>
      let! name := dict_get replacements arg in
      inr (mkUnbindState (item_node (Name name) :: result_stack)
             replacements names_in_scope)
  | APPLY => inr st
  end.

Definition unbind (expr : Expr) : exn + Ast :=
  let! st := for_each unbind_body (mkUnbindState [] ∅ ∅) (flatten expr) in
  let! (result, result_stack) := pop (ub_result_stack st) in
  let! _ := assert (empty_list result_stack) in
  let! _ := assert (bool_decide (ub_replacements st = ∅)) in
  let! _ := assert (bool_decide (ub_names_in_scope st = ∅)) in
  as_node result.

(** ** lambda_parser.py: tokens and the tokenizer *)

Inductive token_type : Type :=
| ID | LEFT | RIGHT | SLASH | DOT | END          (* terminals *)
| ATOM | EXPR | NAMES | COMPLETE.                (* non-terminals *)

(** Token values and the entries of the value stack: [None], the text of
    an identifier, a list of names (only ever appended to and popped from,
    so its head is the last name), a node. *)
Inductive value : Type :=
| VNone
| VStr (s : string)
| VNames (names : list string)
| VNode (node : Ast).

Definition token : Type := token_type * value.

Definition token_type_eqb (a b : token_type) : bool :=
  match a, b with
  | ID, ID | LEFT, LEFT | RIGHT, RIGHT | SLASH, SLASH | DOT, DOT | END, END
  | ATOM, ATOM | EXPR, EXPR | NAMES, NAMES | COMPLETE, COMPLETE => true
  | _, _ => false
  end.

(** [c in IDENTIFIER_CHARACTERS]: the lowercase ASCII letters and "_". *)
Definition IDENTIFIER_CHARACTERS (c : ascii) : bool :=
  let n := nat_of_ascii c in
  (Nat.leb 97 n && Nat.leb n 122) || Nat.eqb n 95.

(** [c in WHITESPACE]: space and newline. *)
Definition WHITESPACE (c : ascii) : bool :=
  let n := nat_of_ascii c in
  Nat.eqb n 32 || Nat.eqb n 10.

(** [SINGLE_TOKEN_CHARS.get(c)] *)
Definition SINGLE_TOKEN_CHARS (c : ascii) : option token_type :=
  let n := nat_of_ascii c in
  if Nat.eqb n 40 then Some LEFT
  else if Nat.eqb n 41 then Some RIGHT
  else if Nat.eqb n 92 then Some SLASH
  else if Nat.eqb n 46 then Some DOT
  else None.

(** What a generator does when asked for its next item: an item is either
    a yielded token or the exception raised instead; after the last item
    the generator is exhausted. *)
Definition token_gen : Type := list (exn + token).

(** The identifier in progress is yielded when a character that is not an
    identifier character (or the end of the string) is met. *)
Definition flush_id (parsing_id : bool) (id_chars : string) : token_gen :=
  if parsing_id then [inr (ID, VStr id_chars)] else [].

(** [tokenize(s)]: the [while True] loop reads one character per round;
    [chars] is what is left of the string, [parsing_id] and [id_chars] are
    the loop variables ([id_chars] already joined). *)
Fixpoint tokenize_loop (chars : string) (parsing_id : bool) (id_chars : string)
  : token_gen :=
  match chars with
  | EmptyString =>
      (* [c is None] *)
      flush_id parsing_id id_chars ++ [inr (END, VNone)]
  | String c chars =>
      if IDENTIFIER_CHARACTERS c then
        tokenize_loop chars true
          ((if parsing_id then id_chars else "") +:+ String c "")
      else
        flush_id parsing_id id_chars ++
        match SINGLE_TOKEN_CHARS c with
        | Some kind => inr (kind, VNone) :: tokenize_loop chars false id_chars
        | None =>
            if WHITESPACE c then tokenize_loop chars false id_chars
            else [inl (ParseError ["Invalid character in string: " +:+ String c ""])]
        end
  end.

Definition tokenize (s : string) : token_gen := tokenize_loop s false "".

(** ** lambda_parser.py: the token stream with its push-back slot *)

Record TokenStream : Type := mkTokenStream {
  _head : list token;
  _tail : token_gen
}.

(** [tokens.next()] *)
Definition TokenStream_next (tokens : TokenStream) : exn + (token * TokenStream) :=
  match _head tokens with
  | tok :: head => inr (tok, mkTokenStream head (_tail tokens))
  | [] =>
      match _tail tokens with
      | [] => inl StopIteration
      | inl e :: _ => inl e
      | inr tok :: tail => inr (tok, mkTokenStream [] tail)
      end
  end.

(** [tokens.push(token)] *)
Definition TokenStream_push (tokens : TokenStream) (tok : token) : TokenStream :=
  mkTokenStream (tok :: _head tokens) (_tail tokens).

(** [tokens.peek()] *)
Definition TokenStream_peek (tokens : TokenStream) : exn + (token * TokenStream) :=
  let! (tok, tokens) := TokenStream_next tokens in
  inr (tok, TokenStream_push tokens tok).

(** [tokens.peek_type()] *)
Definition TokenStream_peek_type (tokens : TokenStream)
  : exn + (token_type * TokenStream) :=
  let! ((token_type, _), tokens) := TokenStream_peek tokens in
  inr (token_type, tokens).

(** ** lambda_parser.py: the shift-reduce parser *)

Inductive state : Type :=
(* shift states *)
| SBEGIN | SDOT | SLEFT | SEXPR | SBEGIN_COMPLETE | SLEFT_COMPLETE
| SSLASH | SSLASH_NAMES
(* reduce states *)
| EXPR_ATOM | SLEFT_EXPR_RIGHT | SATOM | SID | SNAMES | RLAMBDA | SNAMES_ID
| RCOMPLETE
(* accept state *)
| SBEGIN_COMPLETE_END.

(** The variables of [SMParser.parse]. *)
Record parser : Type := mkParser {
  ps_state : state;
  ps_state_stack : list state;
  ps_value_stack : list value;
  ps_tokens : TokenStream
}.

(** [state = shift(next_state)]: the closure pushes the current state and
    the value of the token just read. *)
Definition shift (ps : parser) (token_value : value) (tokens : TokenStream)
    (next_state : state) : parser :=
  mkParser next_state (ps_state ps :: ps_state_stack ps)
           (token_value :: ps_value_stack ps) tokens.

(** [stack[-n], stack[:-n]]: the [n]-th entry from the top and the stack
    without its [n] top entries; [stack[-n]] raises when the stack is
    shorter. *)
Definition unwind {A : Type} (n : nat) (stack : list A) : exn + (A * list A) :=
  match n, List.nth_error stack (Nat.pred n) with
  | S _, Some x => inr (x, List.skipn n stack)
  | _, _ => inl IndexError
  end.

(** [a, b = values] with too few values (the slices [value_stack[-n:]]
    are shorter than [n] on a short stack). *)
Definition unpack_error (expected : string) (values : list value) : exn :=
  ValueError
    ("not enough values to unpack (expected " +:+ expected +:+ ", got "
       +:+ match length values with
           | 0 => "0"
           | 1 => "1"
           | 2 => "2"
           | _ => "3"
           end +:+ ")").

(** The parser does not check the class of the values it takes from its
    stack, and would build a node from any object.  In the runs of
    [parse] the values have the expected kind (theorem
    [parse_raises_parse_error]: no other exception than [ParseError] is
    ever raised); the other cases raise [TypeError] here. *)
Definition value_node (v : value) : exn + Ast :=
  match v with
  | VNode node => inr node
  | _ => inl TypeError
  end.

Definition value_str (v : value) : exn + string :=
  match v with
  | VStr s => inr s
  | _ => inl TypeError
  end.

Definition value_names (v : value) : exn + list string :=
  match v with
  | VNames names => inr names
  | _ => inl TypeError
  end.

(** [while names: atom = Function(names.pop(), atom)] *)
Fixpoint lambda_loop (names : list string) (atom : Ast) : Ast :=
  match names with
  | [] => atom
  | name :: names => lambda_loop names (Function name atom)
  end.

(** The transitions shared by the states [SBEGIN], [SLEFT] and [SDOT],
    which differ only in the state entered on [COMPLETE]. *)
Definition shift_expr_start (ps : parser) (on_complete : state) : exn + parser :=
  let! ((token_type, token_value), tokens) := TokenStream_next (ps_tokens ps) in
  match token_type with
  | ID => inr (shift ps token_value tokens SID)
  | LEFT => inr (shift ps token_value tokens SLEFT)
  | SLASH => inr (shift ps token_value tokens SSLASH)
  | ATOM => inr (shift ps token_value tokens SATOM)
  | EXPR =>
      let! (next_type, tokens) := TokenStream_peek_type tokens in
      if token_type_eqb next_type END || token_type_eqb next_type RIGHT
      then inr (shift ps token_value tokens RCOMPLETE)
      else inr (shift ps token_value tokens SEXPR)
  | COMPLETE => inr (shift ps token_value tokens on_complete)
  | _ => inl (ParseError [])
  end.

(** A reduction pushes its result back as a non-terminal token. *)
Definition reduce (ps : parser) (st : state) (state_stack : list state)
    (value_stack : list value) (tok : token) : parser :=
  mkParser st state_stack value_stack (TokenStream_push (ps_tokens ps) tok).

(** One round of the [while True] loop: either the loop goes on with new
    variables, or [parse] returns. *)
Definition parse_step (ps : parser) : exn + (parser + Ast) :=
  match ps_state ps with
  | SBEGIN => let! ps := shift_expr_start ps SBEGIN_COMPLETE in inr (inl ps)
  | SLEFT => let! ps := shift_expr_start ps SLEFT_COMPLETE in inr (inl ps)
  | SDOT => let! ps := shift_expr_start ps RLAMBDA in inr (inl ps)
  | SEXPR =>
      let! ((token_type, token_value), tokens) := TokenStream_next (ps_tokens ps) in
      match token_type with
      | ID => inr (inl (shift ps token_value tokens SID))
      | LEFT => inr (inl (shift ps token_value tokens SLEFT))
      | SLASH => inr (inl (shift ps token_value tokens SSLASH))
      | ATOM => inr (inl (shift ps token_value tokens EXPR_ATOM))
      | _ => inl (ParseError [])
      end
  | SBEGIN_COMPLETE =>
      let! ((token_type, token_value), tokens) := TokenStream_next (ps_tokens ps) in
      match token_type with
      | END => inr (inl (shift ps token_value tokens SBEGIN_COMPLETE_END))
      | _ => inl (ParseError [])
      end
  | SLEFT_COMPLETE =>
      let! ((token_type, token_value), tokens) := TokenStream_next (ps_tokens ps) in
      match token_type with
      | RIGHT => inr (inl (shift ps token_value tokens SLEFT_EXPR_RIGHT))
      | _ => inl (ParseError [])
      end
  | SSLASH =>
      let! ((token_type, token_value), tokens) := TokenStream_next (ps_tokens ps) in
      match token_type with
      | ID => inr (inl (shift ps token_value tokens SNAMES))
      | NAMES => inr (inl (shift ps token_value tokens SSLASH_NAMES))
      | _ => inl (ParseError [])
      end
  | SSLASH_NAMES =>
      let! ((token_type, token_value), tokens) := TokenStream_next (ps_tokens ps) in
      match token_type with
      | ID => inr (inl (shift ps token_value tokens SNAMES_ID))
      | DOT => inr (inl (shift ps token_value tokens SDOT))
      | _ => inl (ParseError [])
      end
  | RCOMPLETE =>
      let! (st, state_stack) := unwind 1 (ps_state_stack ps) in
      let! (complete, value_stack) := unwind 1 (ps_value_stack ps) in
      inr (inl (reduce ps st state_stack value_stack (COMPLETE, complete)))
  | SNAMES_ID =>
      (* names -> names ID *)
      let! (st, state_stack) := unwind 2 (ps_state_stack ps) in
      match ps_value_stack ps with
      | name :: names :: value_stack =>
          let! names := value_names names in
          let! name := value_str name in
          inr (inl (reduce ps st state_stack value_stack
                      (NAMES, VNames (name :: names))))
      | values => inl (unpack_error "2" values)
      end
  | RLAMBDA =>
      (* atom -> SLASH names DOT expr *)
      let! (st, state_stack) := unwind 4 (ps_state_stack ps) in
      match ps_value_stack ps with
      | atom :: _ :: names :: _ :: value_stack =>
          let! names := value_names names in
          let! atom := value_node atom in
          inr (inl (reduce ps st state_stack value_stack
                      (ATOM, VNode (lambda_loop names atom))))
      | values => inl (unpack_error "4" values)
      end
  | SNAMES =>
      (* names -> ID *)
      let! (st, state_stack) := unwind 1 (ps_state_stack ps) in
      let! (v, value_stack) := unwind 1 (ps_value_stack ps) in
      let! name := value_str v in
      inr (inl (reduce ps st state_stack value_stack (NAMES, VNames [name])))
  | SID =>
      (* atom -> ID *)
      let! (st, state_stack) := unwind 1 (ps_state_stack ps) in
      let! (v, value_stack) := unwind 1 (ps_value_stack ps) in
      let! name := value_str v in
      inr (inl (reduce ps st state_stack value_stack (ATOM, VNode (Name name))))
  | SATOM =>
      (* expr -> atom *)
      let! (st, state_stack) := unwind 1 (ps_state_stack ps) in
      let! (expr, value_stack) := unwind 1 (ps_value_stack ps) in
      inr (inl (reduce ps st state_stack value_stack (EXPR, expr)))
  | EXPR_ATOM =>
      (* expr -> expr atom *)
      let! (st, state_stack) := unwind 2 (ps_state_stack ps) in
      let values := List.firstn 2 (ps_value_stack ps) in
      let value_stack := List.skipn 2 (ps_value_stack ps) in
      match values with
      | [atom; expr] =>
          let! function := value_node expr in
          let! argument := value_node atom in
          inr (inl (reduce ps st state_stack value_stack
                      (EXPR, VNode (Apply function argument))))
      | _ => inl IndexError
      end
  | SLEFT_EXPR_RIGHT =>
      (* expr -> LEFT expr RIGHT *)
      let! (st, state_stack) := unwind 3 (ps_state_stack ps) in
      let! (atom, _) := unwind 2 (ps_value_stack ps) in
      let value_stack := List.skipn 3 (ps_value_stack ps) in
      inr (inl (reduce ps st state_stack value_stack (ATOM, atom)))
  | SBEGIN_COMPLETE_END =>
      (* accept *)
      let! (result, _) := unwind 2 (ps_value_stack ps) in
      let! result := value_node result in
      inr (inr result)
  end.

(** *** The loop ends

    Every round of the loop lowers a weight of the parser variables: a
    shift replaces a token that is still to be read with a lighter state, a
    reduction replaces states with a lighter token. *)

Definition state_weight (st : state) : nat :=
  8 + match st with
      | SID => 6
      | SATOM | EXPR_ATOM => 4
      | SEXPR | RCOMPLETE | SNAMES => 2
      | _ => 0
      end.

Definition token_weight (tok : token) : nat :=
  8 + match fst tok with
      | ID => 7
      | ATOM => 5
      | EXPR => 3
      | _ => 1
      end.

Definition item_weight (item : exn + token) : nat :=
  match item with
  | inl _ => 0
  | inr tok => token_weight tok
  end.

Fixpoint sum_weights {A : Type} (w : A -> nat) (l : list A) : nat :=
  match l with
  | [] => 0
  | x :: l => w x + sum_weights w l
  end.

Definition stream_weight (tokens : TokenStream) : nat :=
  sum_weights token_weight (_head tokens) + sum_weights item_weight (_tail tokens).

Definition parser_weight (ps : parser) : nat :=
  state_weight (ps_state ps)
  + sum_weights state_weight (ps_state_stack ps)
  + stream_weight (ps_tokens ps).

Lemma next_weight (tokens : TokenStream) (tok : token) (tokens' : TokenStream) :
  TokenStream_next tokens = inr (tok, tokens') ->
  stream_weight tokens = token_weight tok + stream_weight tokens'.
Proof.
  destruct tokens as [[|hd h] [|[e|tk] t]]; unfold TokenStream_next, stream_weight;
    cbn [_head _tail sum_weights item_weight]; intros [= <- <-];
    cbn [_head _tail sum_weights item_weight]; lia.
Qed.

Lemma peek_type_weight (tokens : TokenStream) (kind : token_type)
    (tokens' : TokenStream) :
  TokenStream_peek_type tokens = inr (kind, tokens') ->
  stream_weight tokens' = stream_weight tokens.
Proof.
  unfold TokenStream_peek_type, TokenStream_peek.
  destruct (TokenStream_next tokens) as [e|[[k v] ts]] eqn:Hn;
    cbn [bind_exn]; [discriminate|].
  intros [= <- <-]. apply next_weight in Hn. rewrite Hn.
  unfold TokenStream_push, stream_weight. cbn [_head _tail sum_weights]. lia.
Qed.

Lemma shift_weight (ps : parser) (v : value) (tokens' : TokenStream)
    (next_state : state) (tok : token) :
  stream_weight (ps_tokens ps) = token_weight tok + stream_weight tokens' ->
  state_weight next_state < token_weight tok ->
  parser_weight (shift ps v tokens' next_state) < parser_weight ps.
Proof.
  unfold parser_weight, shift.
  cbn [ps_state ps_state_stack ps_tokens sum_weights]. lia.
Qed.

Lemma unwind_weight (n : nat) (ss : list state) (st : state) (ss' : list state) :
  unwind n ss = inr (st, ss') ->
  sum_weights state_weight ss
  = sum_weights state_weight (firstn (Nat.pred n) ss) + state_weight st
    + sum_weights state_weight ss'
  /\ 8 * Nat.pred n <= sum_weights state_weight (firstn (Nat.pred n) ss).
Proof.
  unfold unwind. destruct n as [|n]; [discriminate|].
  cbn [Nat.pred]. revert ss.
  induction n as [|n IH]; intros [|s ss]; cbn [nth_error]; try discriminate.
  - intros [= <- <-]. cbn [sum_weights firstn skipn]. rewrite drop_0. lia.
  - destruct (nth_error ss n) as [x|] eqn:E; [|discriminate].
    intros [= <- <-]. destruct (IH ss) as [H1 H2]; [now rewrite E|].
    assert (8 <= state_weight s) by (unfold state_weight; lia).
    cbn [sum_weights firstn skipn] in *. lia.
Qed.

Lemma reduce_weight (ps : parser) (n : nat) (st : state) (ss' : list state)
    (vs' : list value) (tok : token) :
  unwind n (ps_state_stack ps) = inr (st, ss') ->
  token_weight tok < state_weight (ps_state ps) + 8 * Nat.pred n ->
  parser_weight (reduce ps st ss' vs' tok) < parser_weight ps.
Proof.
  intros Hu Hlt. apply unwind_weight in Hu. destruct Hu as [H1 H2].
  unfold parser_weight, reduce, TokenStream_push, stream_weight.
  cbn [ps_state ps_state_stack ps_tokens sum_weights _head _tail]. lia.
Qed.

Lemma parse_step_weight (ps ps' : parser) :
  parse_step ps = inr (inl ps') -> parser_weight ps' < parser_weight ps.
Proof.
  unfold parse_step.
  destruct (ps_state ps) eqn:Hst; unfold shift_expr_start.
  all: try (destruct (TokenStream_next (ps_tokens ps)) as [e|[[kind v] ts]] eqn:Hn;
            simpl; [discriminate|]; apply next_weight in Hn;
            destruct kind; simpl; try discriminate;
            try (intros [= <-]; eapply shift_weight; [exact Hn|];
                 unfold state_weight, token_weight; cbn; lia)).
  all: try (destruct (TokenStream_peek_type ts) as [e|[k ts']] eqn:Hp; simpl;
            [discriminate|]; apply peek_type_weight in Hp; rewrite <- Hp in Hn;
            destruct (token_type_eqb k END || token_type_eqb k RIGHT);
            intros [= <-]; (eapply shift_weight; [exact Hn|]);
            unfold state_weight, token_weight; cbn; lia).
  all: try (destruct (unwind _ (ps_state_stack ps)) as [e|[st ss']] eqn:Hu; simpl;
            [discriminate|]).
  all: repeat match goal with
       | |- context [unwind ?n ?l] =>
           destruct (unwind n l) as [?|[? ?]]; simpl; try discriminate
       | |- context [value_node ?v] =>
           destruct (value_node v); simpl; try discriminate
       | |- context [value_str ?v] =>
           destruct (value_str v); simpl; try discriminate
       | |- context [value_names ?v] =>
           destruct (value_names v); simpl; try discriminate
       | |- context [match ?l with [] => _ | _ :: _ => _ end] =>
           destruct l; simpl; try discriminate
       end.
  all: try (intros [= <-]; eapply reduce_weight; [exact Hu|]; rewrite Hst;
            unfold state_weight, token_weight; cbn; lia).
Qed.

(** The [while True] loop of [SMParser.parse]. *)
Equations? parse_loop (ps : parser) : exn + Ast by wf (parser_weight ps) lt :=
parse_loop ps with inspect (parse_step ps) := {
  | exist _ (inl e) _ => inl e
  | exist _ (inr (inr result)) _ => inr result
  | exist _ (inr (inl ps')) _ => parse_loop ps' }.
Proof. now apply parse_step_weight. Qed.

(** [SMParser().parse(tokens)] *)
Definition SMParser_parse (tokens : token_gen) : exn + Ast :=
  parse_loop (mkParser SBEGIN [] [] (mkTokenStream [] tokens)).

(** [parse(s)] *)
Definition parse (s : string) : exn + Ast := SMParser_parse (tokenize s).

(** ** expr.py on the result of lambda_parser.py

    An object handed to [bind] is a tree of [church.ast] or a node built by
    the parser. *)
Inductive tree_object : Type :=
| ast_tree (a : Ast)
| parser_node (node : Ast).

(** [bind(obj)]: the header of the loop, [ast.flatten()], looks the method
    up before anything else is done with the object, and the classes of the
    parser have no such attribute. *)
Definition bind_object (obj : tree_object) (next : nat) : exn + (Expr * nat) :=
  match obj with
  | ast_tree a => bind a next
  | parser_node _ => inl AttributeError
  end.

(** [bind(parse(s))], run with the allocator at [next]. *)
Definition bind_parse (s : string) (next : nat) : exn + (Expr * nat) :=
  let! node := parse s in
  bind_object (parser_node node) next.

(** ** Notions used to state the properties *)

(** The event sequence of a node, by recursion on the tree. *)
Fixpoint pieces_of (e : Expr) : list piece :=
  match e with
  | ApplyExpr function argument =>
      APPLY :: pieces_of function ++ pieces_of argument ++ [CLOSE_APPLY]
  | FunctionExpr parameter body =>
      FUNCTION parameter :: pieces_of body ++ [CLOSE_FUNCTION parameter]
  | ParameterReference parameter => [NAME parameter]
  end.

(** The binders of an expression, in the order of their [FUNCTION] events,
    and every Parameter that occurs in it. *)
Fixpoint binders (e : Expr) : list Param :=
  match e with
  | ApplyExpr f a => binders f ++ binders a
  | FunctionExpr p b => p :: binders b
  | ParameterReference _ => []
  end.

Fixpoint parameters (e : Expr) : list Param :=
  match e with
  | ApplyExpr f a => parameters f ++ parameters a
  | FunctionExpr p b => p :: parameters b
  | ParameterReference p => [p]
  end.

(** Every reference is to a Parameter owned by an enclosing function, or
    by one of the functions [scope] already entered. *)
Fixpoint scoped (scope : list nat) (e : Expr) : bool :=
  match e with
  | ApplyExpr f a => scoped scope f && scoped scope a
  | FunctionExpr p b => scoped (pid p :: scope) b
  | ParameterReference p => bool_decide (pid p ∈ scope)
  end.

(** Well-formedness of an expression: every reference has an enclosing
    owner, and no Parameter is the parameter of two functions. *)
Definition well_formed (e : Expr) : bool :=
  scoped [] e && bool_decide (NoDup (pid <$> binders e)).

(** What the traversals rely on: inside the functions [scope], every
    reference has an owner and no function re-uses the Parameter of a
    function that encloses it. *)
Fixpoint well_scoped (scope : list nat) (e : Expr) : Prop :=
  match e with
  | ApplyExpr f a => well_scoped scope f /\ well_scoped scope a
  | FunctionExpr p b => (pid p ∉ scope) /\ well_scoped (pid p :: scope) b
  | ParameterReference p => (pid p ∈ scope)
  end.

(** Every Parameter of the expression was allocated before [next]. *)
Definition allocated (next : nat) (e : Expr) : Prop :=
  Forall (fun p => pid p < next) (parameters e).

(** Terms with de Bruijn indices, and their bit code. *)
Inductive dB : Type :=
| dVar (index : nat)
| dApp (function argument : dB)
| dLam (body : dB).

Fixpoint ones (n : nat) : string :=
  match n with
  | 0 => ""
  | S n => "1" +:+ ones n
  end.

Fixpoint dB_bits (t : dB) : string :=
  match t with
  | dVar index => "1" +:+ ones index +:+ "0"
  | dApp f a => "01" +:+ dB_bits f +:+ dB_bits a
  | dLam b => "00" +:+ dB_bits b
  end.

(** Position of the first occurrence of [x] ([length scope] if none). *)
Fixpoint index_of (x : nat) (scope : list nat) : nat :=
  match scope with
  | [] => 0
  | y :: scope => if decide (x = y) then 0 else S (index_of x scope)
  end.

(** The de Bruijn form of an expression inside the functions [scope]
    (innermost first). *)
Fixpoint to_dB (scope : list nat) (e : Expr) : dB :=
  match e with
  | ApplyExpr f a => dApp (to_dB scope f) (to_dB scope a)
  | FunctionExpr p b => dLam (to_dB (pid p :: scope) b)
  | ParameterReference p => dVar (index_of (pid p) scope)
  end.

(** The [bindings] dictionary of [bitstring] inside the functions [scope]:
    each open Parameter is mapped to the depth at which it was opened. *)
Fixpoint levels (scope : list nat) : gmap nat Z :=
  match scope with
  | [] => ∅
  | p :: scope => <[p := Z.of_nat (length scope)]> (levels scope)
  end.

(** Alpha-equivalence.  [paired ctx x y]: the innermost pair of [ctx] that
    mentions [x] on the left or [y] on the right is the pair [(x, y)];
    Parameters bound by no pair must be the same. *)
Fixpoint paired (ctx : list (nat * nat)) (x y : nat) : Prop :=
  match ctx with
  | [] => x = y
  | (a, b) :: ctx => (x = a /\ y = b) \/ (x <> a /\ y <> b /\ paired ctx x y)
  end.

(** [alpha ctx e1 e2]: [e1] and [e2] have the same shape, and their
    references agree once the binders that [ctx] pairs, and those met on
    the way down, are renamed into each other. *)
Inductive alpha : list (nat * nat) -> Expr -> Expr -> Prop :=
| alpha_ref ctx p q :
    paired ctx (pid p) (pid q) ->
    alpha ctx (ParameterReference p) (ParameterReference q)
| alpha_apply ctx f1 a1 f2 a2 :
    alpha ctx f1 f2 -> alpha ctx a1 a2 ->
    alpha ctx (ApplyExpr f1 a1) (ApplyExpr f2 a2)
| alpha_function ctx p q b1 b2 :
    alpha ((pid p, pid q) :: ctx) b1 b2 ->
    alpha ctx (FunctionExpr p b1) (FunctionExpr q b2).

Definition alpha_equivalent (e1 e2 : Expr) : Prop := alpha [] e1 e2.

(** [unbind] by recursion on the tree: [replacements] and [names_in_scope]
    are the dictionary and the set on entry to the node. *)
Fixpoint unbind_rec (replacements : gmap nat string)
    (names_in_scope : gset string) (e : Expr) : exn + Ast :=
  match e with
  | ParameterReference p =>
      let! name := dict_get replacements p in
      inr (Name name)
  | ApplyExpr f a =>
      let! function := unbind_rec replacements names_in_scope f in
      let! argument := unbind_rec replacements names_in_scope a in
      inr (Apply function argument)
  | FunctionExpr p b =>
      let name := name_avoiding names_in_scope (name p) in
      let! _ := assert (bool_decide (name ∉ names_in_scope)) in
      let! _ := assert (bool_decide (replacements !! pid p = None)) in
      let! body := unbind_rec (<[pid p := name]> replacements)
                     ({[ name ]} ∪ names_in_scope) b in
      inr (Function name body)
  end.

(** [bind] by recursion on the raw tree. *)
Fixpoint bind_rec (bindings : list (string * Param)) (a : Ast) (next : nat)
  : exn + (Expr * nat) :=
  match a with
  | Name x =>
      let! parameter := lookup bindings x in
      inr (ParameterReference parameter, next)
  | Apply f a =>
      let! (fn, next) := bind_rec bindings f next in
      let! (arg, next) := bind_rec bindings a next in
      inr (ApplyExpr fn arg, next)
  | Function x b =>
      let '(parameter, next) := new_Parameter x next in
      let! (body, next) := bind_rec ((x, parameter) :: bindings) b next in
      inr (FunctionExpr parameter body, next)
  end.

(** The loop of [FunctionExpr.__call__] by recursion on the body. *)
Fixpoint call_rec (replacements : gmap nat Expr) (e : Expr) (next : nat)
  : exn + (Expr * nat) :=
  match e with
  | ParameterReference p =>
      let! r := dict_get replacements p in
      inr (r, next)
  | ApplyExpr f a =>
      let! (function, next) := call_rec replacements f next in
      let! (argument, next) := call_rec replacements a next in
      inr (ApplyExpr function argument, next)
  | FunctionExpr p b =>
      let '(new_parameter, next) := new_Parameter (name p) next in
      let! _ := assert (bool_decide (replacements !! pid p = None)) in
      let! (body, next) :=
        call_rec (<[pid p := ParameterReference new_parameter]> replacements)
                 b next in
      inr (FunctionExpr new_parameter body, next)
  end.

(** Replace every reference to the Parameter [p] in [e] with [arg]. *)
Fixpoint replace_parameter (p : nat) (arg : Expr) (e : Expr) : Expr :=
  match e with
  | ParameterReference q => if decide (pid q = p) then arg else ParameterReference q
  | ApplyExpr f a => ApplyExpr (replace_parameter p arg f) (replace_parameter p arg a)
  | FunctionExpr q b => FunctionExpr q (replace_parameter p arg b)
  end.

(** A copy of [e] in which every binder is a newly allocated Parameter with
    the name of the original, and every reference to a binder follows it;
    [renaming] maps the binders already entered to their copies. *)
Fixpoint reallocate (renaming : gmap nat Param) (e : Expr) (next : nat)
  : Expr * nat :=
  match e with
  | ParameterReference q =>
      (ParameterReference (default q (renaming !! pid q)), next)
  | ApplyExpr f a =>
      let '(f', next) := reallocate renaming f next in
      let '(a', next) := reallocate renaming a next in
      (ApplyExpr f' a', next)
  | FunctionExpr q b =>
      let '(q', next) := new_Parameter (name q) next in
      let '(b', next) := reallocate (<[pid q := q']> renaming) b next in
      (FunctionExpr q' b', next)
  end.

(** The tokens of a fully parenthesised rendering of a raw tree. *)
Fixpoint tokens_of (a : Ast) : list token :=
  match a with
  | Name x => [(ID, VStr x)]
  | Apply f a =>
      [(LEFT, VNone)] ++ tokens_of f ++ tokens_of a ++ [(RIGHT, VNone)]
  | Function x b =>
      [(LEFT, VNone); (SLASH, VNone); (ID, VStr x); (DOT, VNone)]
        ++ tokens_of b ++ [(RIGHT, VNone)]
  end.

(** The raw tree with each name resolved to the nearest enclosing binder
    of that name: the index counts the binders between the reference and
    that binder; [scope] lists the names bound around the tree, innermost
    first. *)
Fixpoint name_index (x : string) (scope : list string) : nat :=
  match scope with
  | [] => 0
  | y :: scope => if String.eqb y x then 0 else S (name_index x scope)
  end.

Fixpoint Ast_to_dB (scope : list string) (a : Ast) : dB :=
  match a with
  | Name x => dVar (name_index x scope)
  | Apply f a => dApp (Ast_to_dB scope f) (Ast_to_dB scope a)
  | Function x b => dLam (Ast_to_dB (x :: scope) b)
  end.

(** Every name of the raw tree has a binder of that name around it. *)
Fixpoint Ast_closed (scope : list string) (a : Ast) : bool :=
  match a with
  | Name x => bool_decide (x ∈ scope)
  | Apply f a => Ast_closed scope f && Ast_closed scope a
  | Function x b => Ast_closed (x :: scope) b
  end.

(** The states that read a token. *)
Definition shift_state (st : state) : bool :=
  match st with
  | SBEGIN | SDOT | SLEFT | SEXPR | SBEGIN_COMPLETE | SLEFT_COMPLETE
  | SSLASH | SSLASH_NAMES => true
  | _ => false
  end.

(** The characters the tokenizer accepts. *)
Definition accepted_character (c : ascii) : bool :=
  IDENTIFIER_CHARACTERS c
  || match SINGLE_TOKEN_CHARS c with Some _ => true | None => false end
  || WHITESPACE c.

Fixpoint all_accepted (s : string) : bool :=
  match s with
  | EmptyString => true
  | String c s => accepted_character c && all_accepted s
  end.

(** The exception of the tokenizer for the character [c]. *)
Definition invalid_character (c : ascii) : exn :=
  ParseError ["Invalid character in string: " +:+ String c ""].

(** The states in which an expression may begin. *)
Definition expr_state (st : state) : bool :=
  match st with
  | SBEGIN | SLEFT | SDOT | SEXPR => true
  | _ => false
  end.

(** [reaches ps ps']: the loop gets from the variables [ps] to the
    variables [ps'] in some rounds. *)
Inductive reaches : parser -> parser -> Prop :=
| reaches_refl ps : reaches ps ps
| reaches_step ps ps1 ps' :
    parse_step ps = inr (inl ps1) -> reaches ps1 ps' -> reaches ps ps'.

(** The tokens of [\x1 ... xn. body], the body in its parenthesised
    rendering. *)
Definition name_tokens (names : list string) : list token :=
  (fun name => (ID, VStr name)) <$> names.

Definition lambda_tokens (names : list string) (body : Ast) : list token :=
  [(SLASH, VNone)] ++ name_tokens names ++ [(DOT, VNone)] ++ tokens_of body.

(** *** What holds of the parser variables in every round *)

(** The kinds of values on the value stack. *)
Inductive value_kind : Type := KNone | KStr | KNames | KNode.

Definition kind_of (v : value) : value_kind :=
  match v with
  | VNone => KNone
  | VStr _ => KStr
  | VNames _ => KNames
  | VNode _ => KNode
  end.

Definition value_kind_eqb (a b : value_kind) : bool :=
  match a, b with
  | KNone, KNone | KStr, KStr | KNames, KNames | KNode, KNode => true
  | _, _ => false
  end.

(** The kind of value that a token of a given type carries. *)
Definition expected_kind (kind : token_type) : value_kind :=
  match kind with
  | ID => KStr
  | NAMES => KNames
  | ATOM | EXPR | COMPLETE => KNode
  | _ => KNone
  end.

Definition token_ok (tok : token) : bool :=
  value_kind_eqb (kind_of (snd tok)) (expected_kind (fst tok)).

(** The type of the token whose shift enters a state. *)
Definition entered_by (st : state) : option token_type :=
  match st with
  | SBEGIN => None
  | SID | SNAMES | SNAMES_ID => Some ID
  | SLEFT => Some LEFT
  | SSLASH => Some SLASH
  | SDOT => Some DOT
  | SATOM | EXPR_ATOM => Some ATOM
  | SEXPR | RCOMPLETE => Some EXPR
  | SBEGIN_COMPLETE | SLEFT_COMPLETE | RLAMBDA => Some COMPLETE
  | SSLASH_NAMES => Some NAMES
  | SLEFT_EXPR_RIGHT => Some RIGHT
  | SBEGIN_COMPLETE_END => Some END
  end.

(** [may_precede below st]: the state [st] is entered from the state
    [below] only. *)
Definition may_precede (below st : state) : bool :=
  match st, below with
  | (SID | SLEFT | SSLASH), (SBEGIN | SLEFT | SDOT | SEXPR) => true
  | (SATOM | SEXPR | RCOMPLETE), (SBEGIN | SLEFT | SDOT) => true
  | EXPR_ATOM, SEXPR => true
  | SBEGIN_COMPLETE, SBEGIN => true
  | SLEFT_COMPLETE, SLEFT => true
  | RLAMBDA, SDOT => true
  | (SNAMES | SSLASH_NAMES), SSLASH => true
  | (SNAMES_ID | SDOT), SSLASH_NAMES => true
  | SLEFT_EXPR_RIGHT, SLEFT_COMPLETE => true
  | SBEGIN_COMPLETE_END, SBEGIN_COMPLETE => true
  | _, _ => false
  end.

(** The stacks of the parser fit the current state: the state stack lists
    the states passed through, each over the state from which it was
    entered, and the value stack the values of the tokens shifted. *)
Fixpoint stack_ok (st : state) (ss : list state) (vs : list value) : bool :=
  match ss, vs with
  | [], [] => match st with SBEGIN => true | _ => false end
  | below :: ss, v :: vs =>
      may_precede below st
      && match entered_by st with
         | Some kind => value_kind_eqb (kind_of v) (expected_kind kind)
         | None => false
         end
      && stack_ok below ss vs
  | _, _ => false
  end.

(** What the token generator of [tokenize(s)] holds: tokens with a value of
    their kind, and the exception for a character of [s] that is not
    accepted. *)
Fixpoint occurs (c : ascii) (s : string) : Prop :=
  match s with
  | EmptyString => False
  | String a s => a = c \/ occurs c s
  end.

Definition item_ok (s : string) (item : exn + token) : Prop :=
  match item with
  | inl e =>
      exists c, occurs c s /\ accepted_character c = false
                /\ e = invalid_character c
  | inr tok => token_ok tok = true
  end.

Definition item_ends (item : exn + token) : Prop :=
  match item with
  | inl _ => True
  | inr tok => fst tok = END
  end.

Definition stream_ok (s : string) (tokens : TokenStream) : Prop :=
  Forall (fun tok => token_ok tok = true) (_head tokens)
  /\ Forall (item_ok s) (_tail tokens).

(** The end of the input, or the exception of the tokenizer, is still to
    be read. *)
Definition stream_ends (tokens : TokenStream) : Prop :=
  Exists (fun tok => fst tok = END) (_head tokens)
  \/ Exists item_ends (_tail tokens).

Definition parser_ok (s : string) (ps : parser) : Prop :=
  stack_ok (ps_state ps) (ps_state_stack ps) (ps_value_stack ps) = true
  /\ stream_ok s (ps_tokens ps)
  /\ (ps_state ps = SBEGIN_COMPLETE_END \/ stream_ends (ps_tokens ps)).

(** The exceptions of [parse(s)]. *)
Definition parse_error (s : string) (err : exn) : Prop :=
  err = ParseError []
  \/ exists c, occurs c s /\ accepted_character c = false
               /\ err = invalid_character c.

(** ** Notions used by the further properties *)

#[global] Instance dB_eq_dec : EqDecision dB.
Proof. solve_decision. Defined.

(** The names bound in a raw tree, in the order of the [OPEN_FUNCTION]
    events. *)
Fixpoint Ast_binders (a : Ast) : list string :=
  match a with
  | Name _ => []
  | Apply f a => Ast_binders f ++ Ast_binders a
  | Function x b => x :: Ast_binders b
  end.

(** Every name of the raw tree has a binder, and no function binds a name
    that a function around it binds ([scope] lists the names bound around
    the tree). *)
Fixpoint Ast_unshadowed (scope : list string) (a : Ast) : bool :=
  match a with
  | Name x => bool_decide (x ∈ scope)
  | Apply f a => Ast_unshadowed scope f && Ast_unshadowed scope a
  | Function x b => bool_decide (x ∉ scope) && Ast_unshadowed (x :: scope) b
  end.

(** *** The text of the tokens *)

(** The characters that a token of the tokenizer stands for. *)
Definition token_text (tok : token) : string :=
  match tok with
  | (ID, VStr x) => x
  | (LEFT, _) => "("
  | (RIGHT, _) => ")"
  | (SLASH, _) => "\"
  | (DOT, _) => "."
  | _ => ""
  end.

(** The string without its whitespace. *)
Fixpoint strip_whitespace (s : string) : string :=
  match s with
  | EmptyString => EmptyString
  | String c s =>
      if WHITESPACE c then strip_whitespace s else String c (strip_whitespace s)
  end.

Fixpoint identifier_characters (s : string) : bool :=
  match s with
  | EmptyString => true
  | String c s => IDENTIFIER_CHARACTERS c && identifier_characters s
  end.

(** An identifier: one or more identifier characters. *)
Definition identifier (s : string) : bool :=
  match s with
  | EmptyString => false
  | String _ _ => identifier_characters s
  end.

(** The tokens that the tokenizer yields before the end of the input. *)
Definition lexeme (tok : token) : bool :=
  match tok with
  | (ID, VStr x) => identifier x
  | (LEFT, VNone) | (RIGHT, VNone) | (SLASH, VNone) | (DOT, VNone) => true
  | _ => false
  end.

(** *** The grammar of the parser

    The module gives the grammar

      names -> ID | names ID
      atom  -> ID | LEFT expr RIGHT | SLASH names DOT expr
      expr  -> atom | expr atom

    in which [\x. a b] can be read in two ways.  The lookahead of the
    states that read an [EXPR] settles it: an expression goes on until a
    RIGHT or the END.  So a lambda that is not in parentheses is the last
    atom of its expression, and its body reaches to the end of that
    expression.  [derives] is the grammar with this reading, each phrase
    with the tree it stands for:

    - [PAtom]: an identifier or an expression in parentheses;
    - [PLambda]: [SLASH names DOT expr];
    - [PJuxta]: one or more [PAtom] phrases side by side;
    - [PExpr]: an expression, that is a [PJuxta] phrase, a [PLambda]
      phrase, or a [PJuxta] phrase followed by a [PLambda] phrase. *)
Inductive phrase : Type := PAtom | PLambda | PJuxta | PExpr.

Inductive derives : phrase -> list token -> Ast -> Prop :=
| derives_name x :
    derives PAtom [(ID, VStr x)] (Name x)
| derives_parentheses toks a :
    derives PExpr toks a ->
    derives PAtom ([(LEFT, VNone)] ++ toks ++ [(RIGHT, VNone)]) a
| derives_lambda x xs toks a :
    derives PExpr toks a ->
    derives PLambda
      ([(SLASH, VNone)] ++ name_tokens (x :: xs) ++ [(DOT, VNone)] ++ toks)
      (foldr Function a (x :: xs))
| derives_atom toks a :
    derives PAtom toks a -> derives PJuxta toks a
| derives_apply tf f ta a :
    derives PJuxta tf f -> derives PAtom ta a ->
    derives PJuxta (tf ++ ta) (Apply f a)
| derives_juxta toks a :
    derives PJuxta toks a -> derives PExpr toks a
| derives_last_lambda toks a :
    derives PLambda toks a -> derives PExpr toks a
| derives_apply_lambda tf f ta a :
    derives PJuxta tf f -> derives PLambda ta a ->
    derives PExpr (tf ++ ta) (Apply f a).

(** The states in which an expression is read up to its end. *)
Definition start_state (st : state) : bool :=
  match st with
  | SBEGIN | SLEFT | SDOT => true
  | _ => false
  end.

(** The tokens that end an expression. *)
Definition closing (tok : token) : bool :=
  match fst tok with
  | END | RIGHT => true
  | _ => false
  end.

(** [runs ps ps']: the loop gets from [ps] to [ps'] in one round or more. *)
Definition runs (ps ps' : parser) : Prop :=
  exists ps1, parse_step ps = inr (inl ps1) /\ reaches ps1 ps'.

(** *** The text of a raw tree *)

(** The raw tree written out with every application and every function in
    parentheses. *)
Fixpoint render (a : Ast) : string :=
  match a with
  | Name x => x
  | Apply f a => "(" +:+ render f +:+ " " +:+ render a +:+ ")"
  | Function x b => "(\" +:+ x +:+ "." +:+ render b +:+ ")"
  end.

(** Every name of the raw tree is an identifier. *)
Fixpoint Ast_identifiers (a : Ast) : bool :=
  match a with
  | Name x => identifier x
  | Apply f a => Ast_identifiers f && Ast_identifiers a
  | Function x b => identifier x && Ast_identifiers b
  end.

(** The string is empty or begins with a character that ends an
    identifier. *)
Definition ends_identifier (rest : string) : bool :=
  match rest with
  | EmptyString => true
  | String c _ => negb (IDENTIFIER_CHARACTERS c)
  end.

(** *** Substitution on de Bruijn terms *)

(** The indices of [t] that point outside [c] binders, raised by one. *)
Fixpoint dB_lift (c : nat) (t : dB) : dB :=
  match t with
  | dVar i => dVar (if Nat.leb c i then S i else i)
  | dApp f a => dApp (dB_lift c f) (dB_lift c a)
  | dLam b => dLam (dB_lift (S c) b)
  end.

(** [dB_subst k t d]: the term [d] with [t] in place of the index that
    points [k] binders out, and the indices beyond it lowered by one: the
    body of a beta-redex after the reduction. *)
Fixpoint dB_subst (k : nat) (t : dB) (d : dB) : dB :=
  match d with
  | dVar i =>
      if Nat.ltb i k then dVar i
      else if Nat.eqb i k then t else dVar (Nat.pred i)
  | dApp f a => dApp (dB_subst k t f) (dB_subst k t a)
  | dLam b => dLam (dB_subst (S k) (dB_lift 0 t) b)
  end.

(** Every index of the term points to one of [c] binders around it. *)
Fixpoint dB_closed (c : nat) (t : dB) : Prop :=
  match t with
  | dVar i => (i < c)%nat
  | dApp f a => dB_closed c f /\ dB_closed c a
  | dLam b => dB_closed (S c) b
  end.

(** *** What the parser has read

    The terminals are the tokens of the tokenizer, the non-terminals the
    tokens that a reduction pushes back. *)
Definition nonterminal (tok : token) : bool :=
  match fst tok with
  | ATOM | EXPR | NAMES | COMPLETE => true
  | _ => false
  end.

Definition terminal (tok : token) : bool :=
  token_ok tok && negb (nonterminal tok).

Definition terminal_item (item : exn + token) : Prop :=
  match item with
  | inl _ => True
  | inr tok => terminal tok = true
  end.

(** The items that follow begin with a token that ends an expression. *)
Definition closes (rest : token_gen) : bool :=
  match rest with
  | inr tok :: _ => closing tok
  | _ => false
  end.

(** [sem tok seg rest]: the token [tok], read by the parser or pushed back
    by a reduction, stands for the tokens [seg] of the input, which are
    followed there by [rest].  A lambda is an atom, and an expression is
    complete, only before a token that ends an expression. *)
Definition sem (tok : token) (seg : list token) (rest : token_gen) : Prop :=
  match tok with
  | (NAMES, VNames names) =>
      exists x xs, names = rev (x :: xs) /\ seg = name_tokens (x :: xs)
  | (ATOM, VNode a) =>
      derives PAtom seg a \/ (derives PLambda seg a /\ closes rest = true)
  | (EXPR, VNode a) =>
      derives PJuxta seg a \/ (derives PExpr seg a /\ closes rest = true)
  | (COMPLETE, VNode a) =>
      derives PExpr seg a /\ closes rest = true
  | _ => terminal tok = true /\ seg = [tok]
  end.

(** [covers st ss vs consumed rest]: the stacks hold, from the bottom, the
    tokens that stand for the part [consumed] of the input, which is
    followed there by [rest]. *)
Inductive covers :
  state -> list state -> list value -> list token -> token_gen -> Prop :=
| covers_begin rest : covers SBEGIN [] [] [] rest
| covers_shift st below ss vs consumed seg v kind rest :
    covers below ss vs consumed ((inr <$> seg) ++ rest) ->
    may_precede below st = true ->
    entered_by st = Some kind ->
    sem (kind, v) seg rest ->
    covers st (below :: ss) (v :: vs) (consumed ++ seg) rest.

(** The tokens pushed back stand for the items from [mid] to [rest]. *)
Fixpoint parsed (nts : list token) (mid rest : token_gen) : Prop :=
  match nts with
  | [] => mid = rest
  | tok :: nts =>
      exists seg mid', mid = (inr <$> seg) ++ mid' /\ sem tok seg mid'
                       /\ parsed nts mid' rest
  end.

(** The stream holds the items [mid]: tokens pushed back by reductions,
    then terminals looked at and put back, then the items still to be
    generated. *)
Definition stream_parsed (tokens : TokenStream) (mid : token_gen) : Prop :=
  exists nts las,
    _head tokens = nts ++ las
    /\ Forall (fun tok => nonterminal tok = true) nts
    /\ Forall (fun tok => terminal tok = true) las
    /\ Forall terminal_item (_tail tokens)
    /\ parsed nts mid ((inr <$> las) ++ _tail tokens).

(** What holds in every round of the parser on the items [items]. *)
Definition parser_sound (items : token_gen) (ps : parser) : Prop :=
  exists consumed mid,
    items = (inr <$> consumed) ++ mid
    /\ covers (ps_state ps) (ps_state_stack ps) (ps_value_stack ps) consumed mid
    /\ stream_parsed (ps_tokens ps) mid
    /\ (ps_state ps = RCOMPLETE -> closes mid = true).

(** * Properties *)

Local Arguments String.append !_ _ / : simpl nomatch.

(** ** Loops and exceptions *)

Lemma for_each_app {S X : Type} (body : S -> X -> exn + S) (s : S) (xs ys : list X) :
  for_each body s (xs ++ ys)
  = let! s' := for_each body s xs in for_each body s' ys.
Proof.
  revert s. induction xs as [|x xs IH]; intros s; simpl; [reflexivity|].
  destruct (body s x) as [e|s']; simpl; [reflexivity | apply IH].
Qed.

Lemma bind_exn_assoc {A B C : Type} (c : exn + A) (k : A -> exn + B) (h : B -> exn + C) :
  bind_exn (bind_exn c k) h = bind_exn c (fun a => bind_exn (k a) h).
Proof. destruct c; reflexivity. Qed.

Lemma assert_true (b : bool) : b = true -> assert b = inr tt.
Proof. intros ->. reflexivity. Qed.

(** ** The traversal yields the events of the tree *)

Lemma flatten_loop_process (e : Expr) (to_do : list todo) :
  flatten_loop (PROCESS e :: to_do) = pieces_of e ++ flatten_loop to_do.
Proof.
  revert to_do. induction e as [f IHf a IHa | p b IHb | p]; intros to_do;
    rewrite flatten_loop_equation_2; simpl; rewrite flatten_loop_equation_3.
  - rewrite IHf, IHa, flatten_loop_equation_3.
    now rewrite <- !app_assoc.
  - rewrite IHb, flatten_loop_equation_3. now rewrite <- app_assoc.
  - reflexivity.
Qed.

Lemma flatten_pieces_of (e : Expr) : flatten e = pieces_of e.
Proof.
  unfold flatten. rewrite flatten_loop_process. simp flatten_loop.
  apply app_nil_r.
Qed.

(** ** The loops of [unbind], [bind] and [__call__], by recursion *)

Lemma unbind_loop_rec (e : Expr) :
  forall stack replacements names rest,
    for_each unbind_body (mkUnbindState stack replacements names)
             (pieces_of e ++ rest)
    = let! node := unbind_rec replacements names e in
      for_each unbind_body
        (mkUnbindState (item_node node :: stack) replacements names) rest.
Proof.
  induction e as [f IHf a IHa | p b IHb | p]; intros stack repl names rest.
  - simpl. rewrite <- app_assoc, IHf.
    destruct (unbind_rec repl names f) as [err|nf]; simpl; [reflexivity|].
    rewrite <- app_assoc, IHa.
    destruct (unbind_rec repl names a) as [err|na]; reflexivity.
  - simpl.
    destruct (decide (name_avoiding names (name p) ∉ names)) as [Hf|Hf];
      [rewrite (bool_decide_eq_true_2 _ Hf)
      | rewrite (bool_decide_eq_false_2 _ Hf); reflexivity].
    destruct (decide (repl !! pid p = None)) as [Hn|Hn];
      [rewrite (bool_decide_eq_true_2 _ Hn)
      | rewrite (bool_decide_eq_false_2 _ Hn); reflexivity].
    simpl. rewrite <- app_assoc, IHb.
    destruct (unbind_rec _ _ b) as [err|nb]; simpl; [reflexivity|].
    unfold dict_get. rewrite lookup_insert_eq. simpl.
    unfold set_remove.
    rewrite bool_decide_eq_true_2
      by (apply elem_of_union; left; now apply elem_of_singleton).
    simpl.
    rewrite delete_insert_id by exact Hn.
    assert (Hnames : ({[name_avoiding names (name p)]} ∪ names)
                       ∖ {[name_avoiding names (name p)]} = names).
    { apply set_eq. intros y.
      rewrite elem_of_difference, elem_of_union, elem_of_singleton.
      split; [intros [[?|?] ?]; [contradiction | assumption]|].
      intros Hy. split; [now right | intros ->; contradiction]. }
    now rewrite Hnames.
  - simpl. destruct (dict_get repl p); reflexivity.
Qed.

Lemma bind_loop_rec (a : Ast) :
  forall stack bindings next rest,
    for_each bind_body (mkBindState stack bindings next) (Ast_flatten a ++ rest)
    = let! (e, next') := bind_rec bindings a next in
      for_each bind_body (mkBindState (e :: stack) bindings next') rest.
Proof.
  induction a as [x | f IHf a IHa | x b IHb]; intros stack bindings next rest.
  - simpl. destruct (lookup bindings x); reflexivity.
  - simpl. rewrite <- app_assoc, IHf.
    destruct (bind_rec bindings f next) as [err|[ef n1]]; simpl; [reflexivity|].
    rewrite <- app_assoc, IHa.
    destruct (bind_rec bindings a n1) as [err|[ea n2]]; reflexivity.
  - simpl. rewrite <- app_assoc, IHb.
    destruct (bind_rec _ b (S next)) as [err|[eb n1]]; reflexivity.
Qed.

Lemma call_loop_rec (e : Expr) :
  forall stack replacements next rest,
    for_each call_body (mkCallState stack replacements next) (pieces_of e ++ rest)
    = let! (r, next') := call_rec replacements e next in
      for_each call_body (mkCallState (r :: stack) replacements next') rest.
Proof.
  induction e as [f IHf a IHa | p b IHb | p]; intros stack repl next rest.
  - simpl. rewrite <- app_assoc, IHf.
    destruct (call_rec repl f next) as [err|[rf n1]]; simpl; [reflexivity|].
    rewrite <- app_assoc, IHa.
    destruct (call_rec repl a n1) as [err|[ra n2]]; reflexivity.
  - simpl.
    destruct (decide (repl !! pid p = None)) as [Hn|Hn];
      [rewrite (bool_decide_eq_true_2 _ Hn)
      | rewrite (bool_decide_eq_false_2 _ Hn); reflexivity].
    simpl. rewrite <- app_assoc, IHb.
    destruct (call_rec _ b (S next)) as [err|[rb n1]]; simpl; [reflexivity|].
    unfold dict_get. rewrite lookup_insert_eq. simpl.
    rewrite delete_insert_id by exact Hn. reflexivity.
  - simpl. destruct (dict_get repl p); reflexivity.
Qed.

(** ** Strings *)

Lemma append_assoc (a b c : string) : (a +:+ b) +:+ c = a +:+ (b +:+ c).
Proof. induction a as [|x a IH]; simpl; [reflexivity | now rewrite IH]. Qed.

Lemma append_empty_r (a : string) : a +:+ "" = a.
Proof. induction a as [|x a IH]; simpl; [reflexivity | now rewrite IH]. Qed.

Lemma join_app (l1 l2 : list string) : join (l1 ++ l2) = join l1 +:+ join l2.
Proof.
  induction l1 as [|s l1 IH]; simpl; [reflexivity|].
  unfold join in *. simpl. now rewrite IH, append_assoc.
Qed.

Lemma str_mul_ones (n : nat) : str_mul "1" (Z.of_nat n) = ones n.
Proof.
  unfold str_mul. rewrite Nat2Z.id.
  induction n as [|n IH]; [reflexivity|].
  simpl. unfold join in *. simpl. now rewrite IH.
Qed.

(** ** The bindings of [bitstring] *)

Lemma levels_lookup_None (scope : list nat) (p : nat) :
  p ∉ scope -> levels scope !! p = None.
Proof.
  induction scope as [|q scope IH]; intros Hp; simpl; [apply lookup_empty|].
  rewrite not_elem_of_cons in Hp. destruct Hp as [Hne Hp].
  rewrite lookup_insert_ne by congruence. now apply IH.
Qed.

Lemma levels_size (scope : list nat) :
  NoDup scope -> size (levels scope) = length scope.
Proof.
  induction 1 as [|q scope Hq Hnd IH]; simpl; [apply map_size_empty|].
  rewrite map_size_insert_None by now apply levels_lookup_None.
  now rewrite IH.
Qed.

Lemma index_of_lt (scope : list nat) (p : nat) :
  p ∈ scope -> index_of p scope < length scope.
Proof.
  induction scope as [|q scope IH]; intros Hp; [now apply elem_of_nil in Hp|].
  simpl. destruct (decide (p = q)) as [->|Hne]; [lia|].
  apply elem_of_cons in Hp. destruct Hp as [?|Hp]; [contradiction|].
  specialize (IH Hp). lia.
Qed.

Lemma levels_lookup (scope : list nat) (p : nat) :
  p ∈ scope ->
  levels scope !! p = Some (Z.of_nat (length scope - 1 - index_of p scope)).
Proof.
  induction scope as [|q scope IH]; intros Hp; [now apply elem_of_nil in Hp|].
  simpl. destruct (decide (p = q)) as [->|Hne].
  - rewrite lookup_insert_eq. do 2 f_equal. lia.
  - rewrite lookup_insert_ne by congruence.
    apply elem_of_cons in Hp. destruct Hp as [?|Hp]; [contradiction|].
    rewrite (IH Hp). pose proof (index_of_lt _ _ Hp). do 2 f_equal. lia.
Qed.

(** ** [bitstring] is the code of the de Bruijn form *)

Lemma bitstring_loop (e : Expr) :
  forall scope bits rest,
    NoDup scope -> well_scoped scope e ->
    exists bits',
      join bits' = join bits +:+ dB_bits (to_dB scope e)
      /\ for_each bitstring_body (levels scope, bits) (pieces_of e ++ rest)
         = for_each bitstring_body (levels scope, bits') rest.
Proof.
  induction e as [f IHf a IHa | p b IHb | p]; intros scope bits rest Hnd Hws.
  - destruct Hws as [Hf Ha]. simpl.
    destruct (IHf scope (bits ++ ["01"]) (pieces_of a ++ [CLOSE_APPLY] ++ rest) Hnd Hf)
      as [bits1 [Hj1 Hrun1]].
    destruct (IHa scope bits1 ([CLOSE_APPLY] ++ rest) Hnd Ha) as [bits2 [Hj2 Hrun2]].
    exists bits2. split.
    + rewrite Hj2, Hj1, join_app. simpl. now rewrite !append_assoc.
    + rewrite <- !app_assoc. rewrite Hrun1, Hrun2. reflexivity.
  - destruct Hws as [Hp Hb]. simpl.
    rewrite (bool_decide_eq_true_2 _ (levels_lookup_None _ _ Hp)). simpl.
    assert (Hnd' : NoDup (pid p :: scope)) by now constructor.
    assert (Hlv : <[pid p := len (levels scope)]> (levels scope)
                  = levels (pid p :: scope)).
    { simpl. unfold len. now rewrite levels_size. }
    rewrite Hlv.
    destruct (IHb (pid p :: scope) (bits ++ ["00"]) ([CLOSE_FUNCTION p] ++ rest) Hnd' Hb)
      as [bits1 [Hj1 Hrun1]].
    exists bits1. split.
    + rewrite Hj1, join_app. simpl. now rewrite !append_assoc.
    + rewrite <- app_assoc, Hrun1. simpl.
      unfold dict_get. rewrite lookup_insert_eq. simpl.
      rewrite delete_insert_id by now apply levels_lookup_None.
      unfold len. rewrite levels_size by assumption.
      rewrite Z.eqb_refl. reflexivity.
  - simpl in Hws. simpl. unfold dict_get. rewrite (levels_lookup _ _ Hws). simpl.
    eexists. split; [|reflexivity].
    rewrite join_app. f_equal. unfold len. rewrite levels_size by assumption.
    pose proof (index_of_lt _ _ Hws) as Hlt.
    replace (Z.of_nat (length scope) - 1
             - Z.of_nat (length scope - 1 - index_of (pid p) scope))%Z
      with (Z.of_nat (index_of (pid p) scope)) by lia.
    rewrite str_mul_ones. unfold join. simpl. reflexivity.
Qed.

Lemma bitstring_encode (e : Expr) :
  well_scoped [] e -> bitstring e = inr (dB_bits (to_dB [] e)).
Proof.
  intros Hws. unfold bitstring. rewrite flatten_pieces_of.
  destruct (bitstring_loop e [] [] [] (NoDup_nil_2) Hws) as [bits' [Hj Hrun]].
  rewrite app_nil_r in Hrun. change (levels []) with (∅ : gmap nat Z) in Hrun.
  rewrite Hrun. simpl. now rewrite Hj.
Qed.

(** ** Well-formed expressions are well scoped *)

Lemma scoped_well_scoped (e : Expr) :
  forall scope,
    scoped scope e = true ->
    NoDup (pid <$> binders e) ->
    (forall q, q ∈ binders e -> pid q ∉ scope) ->
    well_scoped scope e.
Proof.
  induction e as [f IHf a IHa | p b IHb | p]; intros scope Hsc Hnd Hdis; simpl in *.
  - apply andb_true_iff in Hsc. destruct Hsc as [Hf Ha].
    rewrite fmap_app in Hnd. apply NoDup_app in Hnd.
    destruct Hnd as [Hndf [_ Hnda]].
    split; [apply IHf | apply IHa]; try assumption;
      intros q Hq; apply Hdis; apply elem_of_app; auto.
  - apply NoDup_cons in Hnd. destruct Hnd as [Hp Hnd]. split.
    + apply Hdis. now left.
    + apply IHb; try assumption.
      intros q Hq Hin. apply elem_of_cons in Hin. destruct Hin as [Heq|Hin].
      * apply Hp. rewrite <- Heq. apply list_elem_of_fmap. now exists q.
      * apply (Hdis q); [now right | assumption].
  - now apply bool_decide_eq_true in Hsc.
Qed.

Lemma well_formed_well_scoped (e : Expr) :
  well_formed e = true -> well_scoped [] e.
Proof.
  unfold well_formed. intros H. apply andb_true_iff in H. destruct H as [Hsc Hnd].
  apply bool_decide_eq_true in Hnd.
  apply scoped_well_scoped; try assumption.
  intros q _. apply not_elem_of_nil.
Qed.

(** ** [bind] resolves names to the nearest binder *)

Lemma String_eqb_decide (x y : string) : String.eqb x y = bool_decide (x = y).
Proof.
  destruct (String.eqb_spec x y) as [->|Hne].
  - now rewrite bool_decide_eq_true_2.
  - now rewrite bool_decide_eq_false_2.
Qed.

Lemma lookup_missing (bindings : list (string * Param)) (x : string) :
  x ∉ bindings.*1 -> lookup bindings x = inl (ValueError "Failed lookup").
Proof.
  induction bindings as [|[y q] bindings IH]; intros Hx; simpl; [reflexivity|].
  simpl in Hx. rewrite not_elem_of_cons in Hx. destruct Hx as [Hne Hx].
  rewrite String_eqb_decide, bool_decide_eq_false_2 by congruence.
  now apply IH.
Qed.

Lemma lookup_returns (bindings : list (string * Param)) (x : string) :
  x ∈ bindings.*1 -> exists q, lookup bindings x = inr q /\ q ∈ bindings.*2.
Proof.
  induction bindings as [|[y q] bindings IH]; intros Hx; simpl in *.
  - now apply elem_of_nil in Hx.
  - rewrite String_eqb_decide. case_bool_decide as Heq.
    + exists q. split; [reflexivity | now left].
    + apply elem_of_cons in Hx. destruct Hx as [?|Hx]; [congruence|].
      destruct (IH Hx) as [q' [Hq' Hin]]. exists q'. split; [assumption | now right].
Qed.

Lemma lookup_index (bindings : list (string * Param)) (x : string) (q : Param) :
  NoDup (pid <$> bindings.*2) ->
  lookup bindings x = inr q ->
  index_of (pid q) (pid <$> bindings.*2) = name_index x bindings.*1.
Proof.
  induction bindings as [|[y q'] bindings IH]; intros Hnd Hq; simpl in *.
  - discriminate.
  - apply NoDup_cons in Hnd. destruct Hnd as [Hq' Hnd].
    destruct (String.eqb y x) eqn:Hyx.
    + injection Hq as ->. now rewrite decide_True.
    + assert (Hin : x ∈ bindings.*1).
      { destruct (decide (x ∈ bindings.*1)) as [|Hn]; [assumption|].
        rewrite (lookup_missing _ _ Hn) in Hq. discriminate. }
      destruct (lookup_returns _ _ Hin) as [q0 [Hq0 Hin0]].
      rewrite Hq0 in Hq. injection Hq as ->.
      rewrite decide_False.
      * f_equal. now apply IH.
      * intros Heq. apply Hq'. rewrite <- Heq.
        apply list_elem_of_fmap. now exists q.
Qed.

Lemma bind_rec_closed (a : Ast) :
  forall bindings next,
    Ast_closed bindings.*1 a = true ->
    NoDup (pid <$> bindings.*2) ->
    Forall (fun q => pid q < next) bindings.*2 ->
    exists e next',
      bind_rec bindings a next = inr (e, next')
      /\ next <= next'
      /\ well_scoped (pid <$> bindings.*2) e
      /\ to_dB (pid <$> bindings.*2) e = Ast_to_dB bindings.*1 a
      /\ Forall (fun q => pid q < next') (parameters e)
      /\ Forall (fun q => next <= pid q) (binders e).
Proof.
  induction a as [x | f IHf a IHa | x b IHb]; intros bindings next Hcl Hnd Hlt;
    simpl in Hcl.
  - apply bool_decide_eq_true in Hcl.
    destruct (lookup_returns _ _ Hcl) as [q [Hq Hin]].
    exists (ParameterReference q), next. simpl. rewrite Hq. simpl.
    repeat split.
    + lia.
    + apply list_elem_of_fmap. now exists q.
    + f_equal. now apply lookup_index.
    + constructor; [|constructor]. rewrite Forall_forall in Hlt. now apply Hlt.
    + constructor.
  - apply andb_true_iff in Hcl. destruct Hcl as [Hf Ha].
    destruct (IHf bindings next Hf Hnd Hlt)
      as (ef & n1 & Hef & Hn1 & Hwf & Hdf & Hpf & Hbf).
    assert (Hlt1 : Forall (fun q => pid q < n1) bindings.*2).
    { eapply Forall_impl; [exact Hlt | simpl; intros; lia]. }
    destruct (IHa bindings n1 Ha Hnd Hlt1)
      as (ea & n2 & Hea & Hn2 & Hwa & Hda & Hpa & Hba).
    exists (ApplyExpr ef ea), n2. simpl. rewrite Hef. simpl. rewrite Hea. simpl.
    repeat split; try assumption; try congruence; try lia.
    + apply Forall_app. split; [|assumption].
      eapply Forall_impl; [exact Hpf | simpl; intros; lia].
    + apply Forall_app. split; [assumption|].
      eapply Forall_impl; [exact Hba | simpl; intros; lia].
  - set (q := mkParameter next x).
    assert (Hfresh : pid q ∉ pid <$> bindings.*2).
    { intros Hin. apply list_elem_of_fmap in Hin. destruct Hin as [q' [Heq Hin]].
      rewrite Forall_forall in Hlt. specialize (Hlt _ Hin). simpl in Heq. lia. }
    destruct (IHb ((x, q) :: bindings) (S next)) as (eb & n1 & Heb & Hn1 & Hwb & Hdb & Hpb & Hbb).
    + exact Hcl.
    + simpl. now constructor.
    + simpl. constructor; [simpl; lia|].
      eapply Forall_impl; [exact Hlt | simpl; intros; lia].
    + exists (FunctionExpr q eb), n1. simpl. fold q. rewrite Heb. simpl.
      repeat split; try assumption; try lia.
      * f_equal. exact Hdb.
      * constructor; [simpl; lia | assumption].
      * constructor; [simpl; lia|].
        eapply Forall_impl; [exact Hbb | simpl; intros; lia].
Qed.

Lemma bind_rec_error (a : Ast) :
  forall bindings next err,
    bind_rec bindings a next = inl err -> err = ValueError "Failed lookup".
Proof.
  induction a as [x | f IHf a IHa | x b IHb]; intros bindings next err Hrun;
    simpl in Hrun.
  - destruct (decide (x ∈ bindings.*1)) as [Hin|Hn].
    + destruct (lookup_returns _ _ Hin) as [q [Hq _]].
      rewrite Hq in Hrun. discriminate.
    + rewrite (lookup_missing _ _ Hn) in Hrun. simpl in Hrun. congruence.
  - destruct (bind_rec bindings f next) as [e1|[r1 n1]] eqn:H1; simpl in Hrun.
    + injection Hrun as <-. eapply IHf, H1.
    + destruct (bind_rec bindings a n1) as [e2|[r2 n2]] eqn:H2; simpl in Hrun.
      * injection Hrun as <-. eapply IHa, H2.
      * discriminate.
  - destruct (bind_rec ((x, mkParameter next x) :: bindings) b (S next))
      as [e1|[r1 n1]] eqn:H1; simpl in Hrun.
    + injection Hrun as <-. eapply IHb, H1.
    + discriminate.
Qed.

Lemma bind_rec_unbound (a : Ast) :
  forall bindings next,
    Ast_closed bindings.*1 a = false ->
    bind_rec bindings a next = inl (ValueError "Failed lookup").
Proof.
  induction a as [x | f IHf a IHa | x b IHb]; intros bindings next Hcl;
    simpl in Hcl; simpl.
  - apply bool_decide_eq_false in Hcl. now rewrite lookup_missing.
  - destruct (bind_rec bindings f next) as [err|[ef n1]] eqn:Hrun; simpl.
    + now rewrite (bind_rec_error _ _ _ _ Hrun).
    + destruct (Ast_closed bindings.*1 f) eqn:Hf.
      * simpl in Hcl. now rewrite IHa.
      * rewrite IHf in Hrun by assumption. discriminate.
  - now rewrite (IHb ((x, mkParameter next x) :: bindings) (S next)).
Qed.

(** ** The loops at top level *)

Lemma bind_bind_rec (a : Ast) (next : nat) : bind a next = bind_rec [] a next.
Proof.
  unfold bind. rewrite <- (app_nil_r (Ast_flatten a)), bind_loop_rec.
  destruct (bind_rec [] a next) as [err|[e n']]; reflexivity.
Qed.

Lemma unbind_unbind_rec (e : Expr) : unbind e = unbind_rec ∅ ∅ e.
Proof.
  unfold unbind. rewrite flatten_pieces_of.
  rewrite <- (app_nil_r (pieces_of e)), unbind_loop_rec.
  destruct (unbind_rec ∅ ∅ e) as [err|a]; reflexivity.
Qed.

Lemma unbind_rec_raises (e : Expr) :
  forall replacements names err,
    unbind_rec replacements names e = inl err ->
    err = KeyError \/ err = AssertionError.
Proof.
  induction e as [f IHf a IHa | p b IHb | p]; intros repl names err; simpl.
  - destruct (unbind_rec repl names f) as [e1|nf] eqn:Hf; simpl.
    + intros [= <-]. eapply IHf, Hf.
    + destruct (unbind_rec repl names a) as [e2|na] eqn:Ha; simpl.
      * intros [= <-]. eapply IHa, Ha.
      * discriminate.
  - destruct (bool_decide _); simpl; [|intros [= <-]; now right].
    destruct (bool_decide _); simpl; [|intros [= <-]; now right].
    destruct (unbind_rec _ _ b) as [e1|nb] eqn:Hb; simpl.
    + intros [= <-]. eapply IHb, Hb.
    + discriminate.
  - unfold dict_get. destruct (repl !! pid p); simpl; [discriminate|].
    intros [= <-]. now left.
Qed.

(** [unbind] raises for an expression with a reference that has no owner
    ([KeyError]) or with a function that re-uses the Parameter of an
    enclosing function ([AssertionError]), and for no other reason. *)
Lemma unbind_raises (e : Expr) (err : exn) :
  unbind e = inl err -> err = KeyError \/ err = AssertionError.
Proof. rewrite unbind_unbind_rec. apply unbind_rec_raises. Qed.

Lemma call_call_rec (p : Param) (body arg : Expr) (next : nat) :
  __call__ (FunctionExpr p body) arg next
  = call_rec {[ pid p := arg ]} body next.
Proof.
  unfold __call__. rewrite flatten_pieces_of.
  rewrite <- (app_nil_r (pieces_of body)), call_loop_rec.
  destruct (call_rec _ body next) as [err|[r n']]; reflexivity.
Qed.

(** ** [name_avoiding] returns a name that is not to be avoided *)

Lemma name_avoiding_from_fresh (names : gset string) (base : string) (k : nat) :
  name_avoiding_from names base k ∉ names.
Proof.
  funelim (name_avoiding_from names base k).
  - match goal with
    | Hfind : List.find _ _ = Some _ |- _ =>
        destruct (find_some _ _ Hfind) as [_ Hb];
        cbv beta in Hb; apply bool_decide_eq_true in Hb; exact Hb
    end.
  - assumption.
Qed.

Lemma name_avoiding_fresh (names : gset string) (base : string) :
  name_avoiding names base ∉ names.
Proof. apply name_avoiding_from_fresh. Qed.

(** ** [unbind] keeps the binding structure *)

Lemma replacements_lookup (env : list (nat * string)) (o : nat) :
  o ∈ env.*1 -> NoDup env.*2 ->
  exists n,
    (list_to_map env : gmap nat string) !! o = Some n
    /\ n ∈ env.*2
    /\ name_index n env.*2 = index_of o env.*1.
Proof.
  induction env as [|[o1 n1] env IH]; intros Ho Hnd; simpl in *.
  - now apply elem_of_nil in Ho.
  - apply NoDup_cons in Hnd. destruct Hnd as [Hn1 Hnd].
    destruct (decide (o = o1)) as [->|Hne].
    + exists n1. rewrite lookup_insert_eq, String.eqb_refl.
      split; [reflexivity | split; [now left | reflexivity]].
    + apply elem_of_cons in Ho. destruct Ho as [?|Ho]; [contradiction|].
      destruct (IH Ho Hnd) as (n & Hlk & Hin & Hidx).
      exists n. rewrite lookup_insert_ne by congruence.
      split; [assumption | split; [now right|]].
      rewrite String_eqb_decide, bool_decide_eq_false_2
        by (intros ->; contradiction).
      f_equal. exact Hidx.
Qed.

Lemma unbind_rec_resolves (e : Expr) :
  forall env : list (nat * string),
    NoDup env.*2 -> well_scoped env.*1 e ->
    exists a,
      unbind_rec (list_to_map env) (list_to_set env.*2) e = inr a
      /\ Ast_closed env.*2 a = true
      /\ Ast_to_dB env.*2 a = to_dB env.*1 e.
Proof.
  induction e as [f IHf a IHa | p b IHb | p]; intros env Hnd Hws; simpl in Hws.
  - destruct Hws as [Hf Ha].
    destruct (IHf env Hnd Hf) as (af & Hrf & Hcf & Hdf).
    destruct (IHa env Hnd Ha) as (aa & Hra & Hca & Hda).
    exists (Apply af aa). simpl. rewrite Hrf. simpl. rewrite Hra. simpl.
    rewrite Hcf, Hca, Hdf, Hda. auto.
  - destruct Hws as [Hp Hb]. simpl.
    set (names := list_to_set env.*2 : gset string).
    set (nm := name_avoiding names (name p)).
    assert (Hfresh : nm ∉ names) by apply name_avoiding_fresh.
    assert (Hnew : (list_to_map env : gmap nat string) !! pid p = None).
    { apply not_elem_of_list_to_map_1. exact Hp. }
    rewrite (bool_decide_eq_true_2 _ Hfresh), (bool_decide_eq_true_2 _ Hnew).
    simpl.
    destruct (IHb ((pid p, nm) :: env)) as (ab & Hrb & Hcb & Hdb).
    + simpl. constructor; [|assumption].
      intros Hin. apply Hfresh. unfold names. now apply elem_of_list_to_set.
    + exact Hb.
    + exists (Function nm ab).
      change (unbind_rec (<[pid p:=nm]> (list_to_map env)) ({[nm]} ∪ names) b
              = inr ab) in Hrb.
      rewrite Hrb. simpl. split; [reflexivity|]. split; [exact Hcb|].
      f_equal. exact Hdb.
  - destruct (replacements_lookup env (pid p) Hws Hnd) as (n & Hlk & Hin & Hidx).
    exists (Name n). simpl. unfold dict_get. rewrite Hlk. simpl.
    rewrite (bool_decide_eq_true_2 _ Hin), Hidx. auto.
Qed.

(** ** The bit code determines the de Bruijn term *)

Lemma ones_prefix_free (n m : nat) (r1 r2 : string) :
  ones n +:+ "0" +:+ r1 = ones m +:+ "0" +:+ r2 -> n = m /\ r1 = r2.
Proof.
  revert m. induction n as [|n IH]; intros [|m] H; simpl in H.
  - injection H as ->. auto.
  - discriminate.
  - discriminate.
  - injection H as H. destruct (IH m H) as [-> ->]. auto.
Qed.

Lemma dB_bits_prefix_free (t1 : dB) :
  forall t2 r1 r2,
    dB_bits t1 +:+ r1 = dB_bits t2 +:+ r2 -> t1 = t2 /\ r1 = r2.
Proof.
  induction t1 as [n | f1 IHf a1 IHa | b1 IHb]; intros [m | f2 a2 | b2] r1 r2 H;
    simpl in H; try discriminate.
  - injection H as H. rewrite !append_assoc in H.
    destruct (ones_prefix_free _ _ _ _ H) as [-> ->]. auto.
  - injection H as H. rewrite !append_assoc in H.
    destruct (IHf _ _ _ H) as [-> H'].
    destruct (IHa _ _ _ H') as [-> ->]. auto.
  - injection H as H. destruct (IHb _ _ _ H) as [-> ->]. auto.
Qed.

Lemma dB_bits_inj (t1 t2 : dB) : dB_bits t1 = dB_bits t2 -> t1 = t2.
Proof.
  intros H. apply (dB_bits_prefix_free t1 t2 "" "").
  now rewrite !append_empty_r.
Qed.

(** ** Equal de Bruijn forms are alpha-equivalence *)

Lemma paired_index (ctx : list (nat * nat)) (x y : nat) :
  x ∈ ctx.*1 -> y ∈ ctx.*2 ->
  (index_of x ctx.*1 = index_of y ctx.*2 <-> paired ctx x y).
Proof.
  induction ctx as [|[a b] ctx IH]; intros Hx Hy; simpl in *.
  - now apply elem_of_nil in Hx.
  - destruct (decide (x = a)) as [->|Hxa], (decide (y = b)) as [->|Hyb].
    + tauto.
    + split; [discriminate | intros [[_ ?]|[? _]]; contradiction].
    + split; [discriminate | intros [[? _]|[_ [? _]]]; contradiction].
    + apply elem_of_cons in Hx. destruct Hx as [?|Hx]; [contradiction|].
      apply elem_of_cons in Hy. destruct Hy as [?|Hy]; [contradiction|].
      specialize (IH Hx Hy). split.
      * intros H. injection H as H. right. tauto.
      * intros [[? _]|[_ [_ H]]]; [contradiction|]. f_equal. now apply IH.
Qed.

Lemma to_dB_alpha (e1 : Expr) :
  forall e2 ctx,
    well_scoped ctx.*1 e1 -> well_scoped ctx.*2 e2 ->
    (to_dB ctx.*1 e1 = to_dB ctx.*2 e2 <-> alpha ctx e1 e2).
Proof.
  induction e1 as [f1 IHf a1 IHa | p b1 IHb | p];
    intros [f2 a2 | q b2 | q] ctx H1 H2; simpl in H1, H2;
    try (split; [discriminate | intros H; inversion H]).
  - destruct H1 as [Hf1 Ha1], H2 as [Hf2 Ha2].
    specialize (IHf f2 ctx Hf1 Hf2). specialize (IHa a2 ctx Ha1 Ha2).
    split.
    + simpl. intros H. injection H as Hf Ha. constructor; tauto.
    + intros H. inversion H; subst. simpl. f_equal; tauto.
  - destruct H1 as [Hp Hb1], H2 as [Hq Hb2].
    specialize (IHb b2 ((pid p, pid q) :: ctx) Hb1 Hb2).
    split.
    + simpl. intros H. injection H as H. constructor. now apply IHb.
    + intros H. inversion H; subst. simpl. f_equal. now apply IHb.
  - pose proof (paired_index ctx (pid p) (pid q) H1 H2) as Hidx.
    split.
    + simpl. intros H. injection H as H. constructor. now apply Hidx.
    + intros H. inversion H; subst. simpl. f_equal. now apply Hidx.
Qed.

(** ** Equality of expressions *)

Lemma to_dB_type (e1 e2 : Expr) (s1 s2 : list nat) :
  to_dB s1 e1 = to_dB s2 e2 -> type e1 = type e2.
Proof. destruct e1, e2; simpl; intros H; try discriminate; reflexivity. Qed.

Lemma Expr_class_eqb_eq (a b : Expr_class) : Expr_class_eqb a b = true <-> a = b.
Proof. destruct a, b; simpl; split; intros H; try discriminate; reflexivity. Qed.

Lemma eq_of_to_dB (e1 e2 : Expr) :
  well_scoped [] e1 -> well_scoped [] e2 ->
  to_dB [] e1 = to_dB [] e2 -> __eq__ e1 e2 = inr true.
Proof.
  intros H1 H2 Hdb. unfold __eq__.
  rewrite (proj2 (Expr_class_eqb_eq _ _) (to_dB_type _ _ _ _ Hdb)).
  rewrite (bitstring_encode _ H1), (bitstring_encode _ H2), Hdb. simpl.
  now rewrite String.eqb_refl.
Qed.

(** C2.  For well-formed expressions [e1] and [e2], [bitstring] returns a
    bit string for each, the two bit strings are equal exactly when [e1]
    and [e2] are alpha-equivalent, and [__eq__] is the conjunction of "same
    class at the root" and "same bit string". *)
Theorem bitstring_equal_iff_alpha_equivalent (e1 e2 : Expr) :
  well_formed e1 = true -> well_formed e2 = true ->
  exists s1 s2,
    bitstring e1 = inr s1 /\ bitstring e2 = inr s2
    /\ (s1 = s2 <-> alpha_equivalent e1 e2)
    /\ __eq__ e1 e2 = inr (Expr_class_eqb (type e1) (type e2) && String.eqb s1 s2).
Proof.
  intros H1 H2.
  apply well_formed_well_scoped in H1, H2.
  exists (dB_bits (to_dB [] e1)), (dB_bits (to_dB [] e2)).
  split; [now apply bitstring_encode|]. split; [now apply bitstring_encode|].
  split.
  - unfold alpha_equivalent. rewrite <- (to_dB_alpha e1 e2 [] H1 H2). simpl.
    split; [apply dB_bits_inj | now intros ->].
  - unfold __eq__. rewrite (bitstring_encode _ H1), (bitstring_encode _ H2).
    destruct (Expr_class_eqb (type e1) (type e2)); reflexivity.
Qed.

Lemma bitstring_equal_iff_alpha_equivalent_witness :
  let e1 := FunctionExpr (mkParameter 0 "x") (ParameterReference (mkParameter 0 "x")) in
  let e2 := FunctionExpr (mkParameter 1 "y") (ParameterReference (mkParameter 1 "y")) in
  exists s1 s2,
    bitstring e1 = inr s1 /\ bitstring e2 = inr s2
    /\ (s1 = s2 <-> alpha_equivalent e1 e2)
    /\ __eq__ e1 e2 = inr (Expr_class_eqb (type e1) (type e2) && String.eqb s1 s2).
Proof.
  intros e1 e2.
  apply (bitstring_equal_iff_alpha_equivalent e1 e2); vm_compute; reflexivity.
Defined.

(** C1.  For every well-formed expression [e], [unbind e] returns a raw
    tree, [bind] of that tree returns an expression, whatever the state of
    the allocator, and that expression is equal to [e] for [__eq__]. *)
Theorem bind_unbind_round_trip (e : Expr) :
  well_formed e = true ->
  forall next, exists a e' next',
    unbind e = inr a /\ bind a next = inr (e', next') /\ __eq__ e' e = inr true.
Proof.
  intros Hwf next. apply well_formed_well_scoped in Hwf.
  destruct (unbind_rec_resolves e [] (NoDup_nil_2) Hwf) as (a & Hub & Hcl & Hdb).
  destruct (bind_rec_closed a [] next Hcl (NoDup_nil_2) (Forall_nil_2 _))
    as (e' & next' & Hb & _ & Hws & Hdb' & _).
  exists a, e', next'. rewrite unbind_unbind_rec, bind_bind_rec.
  split; [exact Hub|]. split; [exact Hb|].
  apply eq_of_to_dB; try assumption.
  simpl in Hdb, Hdb'. congruence.
Qed.

Lemma bind_unbind_round_trip_witness :
  let x := mkParameter 0 "x" in
  let y := mkParameter 1 "x" in
  let e := FunctionExpr x (FunctionExpr y
             (ApplyExpr (ParameterReference x) (ParameterReference y))) in
  well_formed e = true /\
  exists a e' next',
    unbind e = inr a /\ bind a 7 = inr (e', next') /\ __eq__ e' e = inr true.
Proof.
  intros x y e. split; [vm_compute; reflexivity|].
  apply (bind_unbind_round_trip e); vm_compute; reflexivity.
Defined.

(** ** Re-allocation of the binders of a body *)

Lemma reallocate_binders (e : Expr) :
  forall renaming next,
    pid <$> binders (reallocate renaming e next).1
      = seq next (length (binders e))
    /\ name <$> binders (reallocate renaming e next).1 = name <$> binders e
    /\ (reallocate renaming e next).2 = next + length (binders e).
Proof.
  induction e as [f IHf a IHa | p b IHb | p]; intros ren next; simpl.
  - destruct (IHf ren next) as (Hpf & Hnf & Hxf).
    destruct (reallocate ren f next) as [f' n1]. simpl in *. subst n1.
    destruct (IHa ren (next + length (binders f))) as (Hpa & Hna & Hxa).
    destruct (reallocate ren a (next + length (binders f))) as [a' n2].
    simpl in *. subst n2.
    rewrite !fmap_app, Hpf, Hpa, Hnf, Hna, length_app, seq_app.
    repeat split; lia.
  - destruct (IHb (<[pid p := mkParameter next (name p)]> ren) (S next))
      as (Hpb & Hnb & Hxb).
    destruct (reallocate _ b (S next)) as [b' n1].
    cbn [fst snd binders] in *. subst n1.
    rewrite !fmap_cons, Hpb, Hnb. cbn. repeat split; f_equal; lia.
  - repeat split; lia.
Qed.

Lemma reallocate_next (e : Expr) (renaming : gmap nat Param) (next : nat) :
  next <= (reallocate renaming e next).2.
Proof. destruct (reallocate_binders e renaming next) as (_ & _ & ->). lia. Qed.

Lemma paired_snd (ctx : list (nat * nat)) (x y : nat) :
  paired ctx x y -> x ∈ ctx.*1 -> y ∈ ctx.*2.
Proof.
  induction ctx as [|[a b] ctx IH]; simpl; intros Hp Hx.
  - now apply elem_of_nil in Hx.
  - destruct Hp as [[_ ->]|(Hxa & _ & Hp)]; [now left|].
    apply elem_of_cons in Hx. destruct Hx as [?|Hx]; [contradiction|].
    right. now apply IH.
Qed.

Lemma reallocate_alpha (e : Expr) :
  forall ctx (renaming : gmap nat Param) next,
    well_scoped ctx.*1 e ->
    (forall y, y ∈ ctx.*2 -> y < next) ->
    (forall q : Param, pid q ∈ ctx.*1 ->
       paired ctx (pid q) (pid (default q (renaming !! pid q)))) ->
    alpha ctx e (reallocate renaming e next).1.
Proof.
  induction e as [f IHf a IHa | p b IHb | p]; intros ctx ren next Hws Hlt Hren;
    simpl in Hws; simpl.
  - destruct Hws as [Hf Ha].
    pose proof (IHf ctx ren next Hf Hlt Hren) as Haf.
    pose proof (reallocate_next f ren next) as Hn1.
    destruct (reallocate ren f next) as [f' n1]. simpl in *.
    assert (Hlt1 : forall y, y ∈ ctx.*2 -> y < n1).
    { intros y Hy. specialize (Hlt y Hy). lia. }
    pose proof (IHa ctx ren n1 Ha Hlt1 Hren) as Haa.
    destruct (reallocate ren a n1) as [a' n2]. simpl in *.
    now constructor.
  - destruct Hws as [Hp Hb].
    set (p' := mkParameter next (name p)).
    pose proof (IHb ((pid p, pid p') :: ctx) (<[pid p := p']> ren) (S next)) as Hab.
    destruct (reallocate (<[pid p := p']> ren) b (S next)) as [b' n1]. simpl in *.
    constructor. apply Hab.
    + exact Hb.
    + intros y Hy. apply elem_of_cons in Hy. destruct Hy as [->|Hy]; [lia|].
      specialize (Hlt y Hy). lia.
    + intros q Hq. simpl.
      destruct (decide (pid q = pid p)) as [Heq|Hne].
      * left. rewrite Heq, lookup_insert_eq. auto.
      * right. apply elem_of_cons in Hq. destruct Hq as [?|Hq]; [contradiction|].
        rewrite lookup_insert_ne by congruence.
        specialize (Hren q Hq). split; [assumption|]. split; [|assumption].
        pose proof (paired_snd _ _ _ Hren Hq) as Hy.
        specialize (Hlt _ Hy). lia.
  - constructor. now apply Hren.
Qed.

(** ** [__call__] substitutes into a re-allocated copy of the body *)

Lemma call_rec_reallocate (p : nat) (arg : Expr) (e : Expr) :
  forall scope (renaming : gmap nat Param) next,
    well_scoped (scope ++ [p]) e ->
    (forall x, x ∈ scope <-> is_Some (renaming !! x)) ->
    p ∉ scope ->
    (forall x q', renaming !! x = Some q' -> pid q' <> p) ->
    p < next ->
    call_rec (<[p := arg]> (ParameterReference <$> renaming)) e next
    = inr (replace_parameter p arg (reallocate renaming e next).1,
           (reallocate renaming e next).2).
Proof.
  induction e as [f IHf a IHa | q b IHb | q];
    intros scope ren next Hws Hdom Hp Hval Hlt; simpl in Hws; simpl.
  - destruct Hws as [Hf Ha].
    rewrite (IHf scope ren next Hf Hdom Hp Hval Hlt).
    pose proof (reallocate_next f ren next) as Hn1.
    destruct (reallocate ren f next) as [f' n1]. simpl in *.
    rewrite (IHa scope ren n1 Ha Hdom Hp Hval ltac:(lia)).
    destruct (reallocate ren a n1) as [a' n2]. reflexivity.
  - destruct Hws as [Hq Hb].
    rewrite not_elem_of_app, not_elem_of_cons in Hq. destruct Hq as [Hqs [Hqp _]].
    assert (Hnone : ren !! pid q = None).
    { destruct (ren !! pid q) eqn:E; [|reflexivity].
      exfalso. apply Hqs, Hdom. now rewrite E. }
    rewrite bool_decide_eq_true_2
      by (rewrite lookup_insert_ne, lookup_fmap, Hnone by congruence; reflexivity).
    simpl.
    set (q' := mkParameter next (name q)).
    rewrite insert_insert_ne by congruence.
    rewrite <- (fmap_insert ParameterReference ren (pid q) q').
    rewrite (IHb (pid q :: scope) (<[pid q := q']> ren) (S next)).
    + destruct (reallocate (<[pid q := q']> ren) b (S next)) as [b' n1].
      reflexivity.
    + exact Hb.
    + intros x. rewrite elem_of_cons, lookup_insert.
      destruct (decide (pid q = x)) as [->|Hne].
      * split; [eauto | now left].
      * rewrite <- Hdom. split; [intros [?|?]; [congruence | assumption] | now right].
    + rewrite not_elem_of_cons. split; [congruence | assumption].
    + intros x r. rewrite lookup_insert.
      destruct (decide (pid q = x)) as [Heq|Hne].
      * intros [= <-]. simpl. lia.
      * apply Hval.
    + lia.
  - apply elem_of_app in Hws. unfold dict_get.
    destruct (decide (pid q = p)) as [Heq|Hne].
    + rewrite Heq, lookup_insert_eq.
      assert (Hnone : ren !! p = None).
      { destruct (ren !! p) eqn:E; [|reflexivity].
        exfalso. apply Hp, Hdom. now rewrite E. }
      rewrite Hnone. simpl. now rewrite decide_True.
    + rewrite lookup_insert_ne, lookup_fmap by congruence.
      destruct Hws as [Hin|Hin]; [|apply list_elem_of_singleton in Hin; contradiction].
      apply Hdom in Hin. destruct Hin as [r Hr]. rewrite Hr. simpl.
      rewrite decide_False by (eapply Hval; eassumption). reflexivity.
Qed.

Lemma reallocate_parameters (p n0 : nat) (e : Expr) :
  forall scope (renaming : gmap nat Param) next,
    well_scoped scope e ->
    (forall q : Param, pid q ∈ scope ->
       pid (default q (renaming !! pid q)) = p
       \/ n0 <= pid (default q (renaming !! pid q))) ->
    n0 <= next ->
    Forall (fun q => pid q = p \/ n0 <= pid q)
           (parameters (reallocate renaming e next).1)
    /\ Forall (fun q => n0 <= pid q) (binders (reallocate renaming e next).1).
Proof.
  induction e as [f IHf a IHa | q b IHb | q]; intros scope ren next Hws Hren Hn;
    simpl in Hws; simpl.
  - destruct Hws as [Hf Ha].
    pose proof (IHf scope ren next Hf Hren Hn) as [Hpf Hbf].
    pose proof (reallocate_next f ren next) as Hn1.
    destruct (reallocate ren f next) as [f' n1]. simpl in *.
    pose proof (IHa scope ren n1 Ha Hren ltac:(lia)) as [Hpa Hba].
    destruct (reallocate ren a n1) as [a' n2]. simpl in *.
    split; apply Forall_app; auto.
  - destruct Hws as [Hq Hb].
    set (q' := mkParameter next (name q)).
    pose proof (IHb (pid q :: scope) (<[pid q := q']> ren) (S next) Hb) as IH.
    destruct (reallocate (<[pid q := q']> ren) b (S next)) as [b' n1]. simpl in *.
    destruct IH as [Hpb Hbb].
    + intros r Hr. destruct (decide (pid r = pid q)) as [Heq|Hne].
      * rewrite Heq, lookup_insert_eq. simpl. right. lia.
      * rewrite lookup_insert_ne by congruence. apply Hren.
        apply elem_of_cons in Hr. destruct Hr as [?|Hr]; [contradiction | assumption].
    + lia.
    + split; constructor; simpl; auto.
  - split; [|constructor]. constructor; [|constructor]. now apply Hren.
Qed.

Lemma replace_parameter_parameters (p n0 : nat) (arg e : Expr) :
  Forall (fun q => pid q = p \/ n0 <= pid q) (parameters e) ->
  Forall (fun q => n0 <= pid q) (binders e) ->
  forall q, q ∈ parameters (replace_parameter p arg e) ->
            q ∈ parameters arg \/ n0 <= pid q.
Proof.
  induction e as [f IHf a IHa | r b IHb | r]; simpl; intros Hp Hb q Hq.
  - apply Forall_app in Hp, Hb. destruct Hp as [Hpf Hpa], Hb as [Hbf Hba].
    apply elem_of_app in Hq. destruct Hq as [Hq|Hq]; auto.
  - apply Forall_cons in Hp, Hb. destruct Hp as [_ Hp], Hb as [Hr Hb].
    apply elem_of_cons in Hq. destruct Hq as [->|Hq]; auto.
  - destruct (decide (pid r = p)) as [Heq|Hne]; [now left|].
    simpl in Hq. apply list_elem_of_singleton in Hq. subst q.
    apply Forall_cons in Hp. destruct Hp as [[?|?] _]; [contradiction | now right].
Qed.

(** ** When [__call__] returns *)

Lemma call_rec_returns (e : Expr) :
  forall scope (replacements : gmap nat Expr) next,
    well_scoped scope e ->
    (forall x, x ∈ scope <-> is_Some (replacements !! x)) ->
    exists r next', call_rec replacements e next = inr (r, next').
Proof.
  induction e as [f IHf a IHa | q b IHb | q]; intros scope repl next Hws Hdom;
    simpl in Hws; simpl.
  - destruct Hws as [Hf Ha].
    destruct (IHf scope repl next Hf Hdom) as (rf & n1 & ->). simpl.
    destruct (IHa scope repl n1 Ha Hdom) as (ra & n2 & ->). simpl. eauto.
  - destruct Hws as [Hq Hb].
    assert (Hnone : repl !! pid q = None).
    { destruct (repl !! pid q) eqn:E; [|reflexivity].
      exfalso. apply Hq, Hdom. now rewrite E. }
    rewrite (bool_decide_eq_true_2 _ Hnone). simpl.
    destruct (IHb (pid q :: scope)
                (<[pid q := ParameterReference (mkParameter next (name q))]> repl)
                (S next) Hb) as (rb & n1 & ->).
    + intros x. rewrite elem_of_cons, lookup_insert.
      destruct (decide (pid q = x)) as [Heq|Hne].
      * split; [eauto | now left].
      * rewrite <- Hdom. split; [intros [?|?]; [congruence | assumption] | now right].
    + simpl. eauto.
  - apply Hdom in Hws. destruct Hws as [r Hr]. unfold dict_get. rewrite Hr.
    simpl. eauto.
Qed.

Lemma call_rec_scoped_error (e : Expr) :
  forall scope (replacements : gmap nat Expr) next err,
    scoped scope e = true ->
    (forall x, x ∈ scope -> is_Some (replacements !! x)) ->
    call_rec replacements e next = inl err -> err = AssertionError.
Proof.
  induction e as [f IHf a IHa | q b IHb | q]; intros scope repl next err Hsc Hdom;
    simpl in Hsc; simpl.
  - apply andb_true_iff in Hsc. destruct Hsc as [Hf Ha].
    destruct (call_rec repl f next) as [e1|[rf n1]] eqn:E1; simpl.
    + intros [= <-]. eapply IHf; eassumption.
    + destruct (call_rec repl a n1) as [e2|[ra n2]] eqn:E2; simpl.
      * intros [= <-]. eapply IHa; eassumption.
      * discriminate.
  - case_bool_decide as Hnone; simpl; [|now intros [= <-]].
    destruct (call_rec _ b (S next)) as [e1|[rb n1]] eqn:E1; simpl.
    + intros [= <-]. eapply (IHb (pid q :: scope)); [exact Hsc | | exact E1].
      intros x Hx. rewrite lookup_insert.
      destruct (decide (pid q = x)); [eauto|].
      apply Hdom. apply elem_of_cons in Hx. destruct Hx; [congruence | assumption].
    + discriminate.
  - apply bool_decide_eq_true in Hsc. apply Hdom in Hsc. destruct Hsc as [r Hr].
    unfold dict_get. rewrite Hr. discriminate.
Qed.

Lemma call_rec_KeyError (e : Expr) :
  forall scope (replacements : gmap nat Expr) next,
    scoped scope e = false ->
    NoDup (pid <$> binders e) ->
    (forall q, q ∈ binders e -> pid q ∉ scope) ->
    (forall x, x ∈ scope <-> is_Some (replacements !! x)) ->
    call_rec replacements e next = inl KeyError.
Proof.
  induction e as [f IHf a IHa | q b IHb | q];
    intros scope repl next Hsc Hnd Hdis Hdom; simpl in Hsc, Hnd; simpl.
  - rewrite fmap_app in Hnd. apply NoDup_app in Hnd. destruct Hnd as (Hndf & _ & Hnda).
    assert (Hdf : forall q, q ∈ binders f -> pid q ∉ scope).
    { intros q Hq. apply Hdis. simpl. apply elem_of_app. now left. }
    assert (Hda : forall q, q ∈ binders a -> pid q ∉ scope).
    { intros q Hq. apply Hdis. simpl. apply elem_of_app. now right. }
    destruct (scoped scope f) eqn:Hf.
    + simpl in Hsc.
      destruct (call_rec_returns f scope repl next
                  (scoped_well_scoped f scope Hf Hndf Hdf) Hdom) as (rf & n1 & ->).
      simpl. now rewrite (IHa scope repl n1 Hsc Hnda Hda Hdom).
    + now rewrite (IHf scope repl next Hf Hndf Hdf Hdom).
  - apply NoDup_cons in Hnd. destruct Hnd as [Hq Hnd].
    assert (Hnone : repl !! pid q = None).
    { destruct (repl !! pid q) eqn:E; [|reflexivity].
      exfalso. apply (Hdis q); [now left|]. apply Hdom. now rewrite E. }
    rewrite (bool_decide_eq_true_2 _ Hnone). simpl.
    rewrite (IHb (pid q :: scope)); try assumption; [reflexivity| |].
    + intros r Hr Hin. apply elem_of_cons in Hin. destruct Hin as [Heq|Hin].
      * apply Hq. rewrite <- Heq. apply list_elem_of_fmap. now exists r.
      * apply (Hdis r); [now right | assumption].
    + intros x. rewrite elem_of_cons, lookup_insert.
      destruct (decide (pid q = x)) as [Heq|Hne].
      * split; [eauto | now left].
      * rewrite <- Hdom. split; [intros [?|?]; [congruence | assumption] | now right].
  - apply bool_decide_eq_false in Hsc. unfold dict_get.
    destruct (repl !! pid q) eqn:E; [|reflexivity].
    exfalso. apply Hsc, Hdom. now rewrite E.
Qed.

(** ** [bind] on closed raw trees *)

Lemma bind_closed (ast : Ast) (next : nat) :
  Ast_closed [] ast = true ->
  exists e next',
    bind ast next = inr (e, next')
    /\ well_scoped [] e
    /\ to_dB [] e = Ast_to_dB [] ast
    /\ bitstring e = inr (dB_bits (Ast_to_dB [] ast)).
Proof.
  intros Hcl.
  destruct (bind_rec_closed ast [] next Hcl (NoDup_nil_2) (Forall_nil_2 _))
    as (e & next' & Hb & _ & Hws & Hdb & _).
  exists e, next'. rewrite bind_bind_rec.
  split; [exact Hb|]. split; [exact Hws|]. split; [exact Hdb|].
  rewrite (bitstring_encode e Hws). simpl in Hdb. now rewrite Hdb.
Qed.

(** [bind] is not written for the nodes of the parser: whenever [parse]
    returns, [bind] of its result raises [AttributeError], and
    [bind(parse(s))] never returns an expression. *)
Lemma bind_parse_raises_AttributeError (s : string) (next : nat) :
  (forall node, parse s = inr node -> bind_parse s next = inl AttributeError)
  /\ (forall r, bind_parse s next <> inr r).
Proof.
  unfold bind_parse. destruct (parse s) as [err|node]; cbn [bind_exn bind_object].
  - split; [discriminate | discriminate].
  - split; [reflexivity | discriminate].
Qed.

(** C6, as the code has it.  Whatever the state of the allocator, [bind] of
    the [church.ast] tree of [\x.x] returns an expression with the bit
    string "0010", that of [\x.\y.x] one with "0000110" and that of
    [\x.\y.x y] one with "00000111010". *)
Theorem bitstring_literals (next : nat) :
  (exists e next',
     bind (Function "x" (Name "x")) next = inr (e, next')
     /\ bitstring e = inr "0010")
  /\ (exists e next',
        bind (Function "x" (Function "y" (Name "x"))) next = inr (e, next')
        /\ bitstring e = inr "0000110")
  /\ (exists e next',
        bind (Function "x" (Function "y" (Apply (Name "x") (Name "y")))) next
        = inr (e, next')
        /\ bitstring e = inr "00000111010").
Proof.
  split; [|split].
  - destruct (bind_closed (Function "x" (Name "x")) next)
      as (e & next' & Hb & _ & _ & Hbits); [reflexivity|].
    exists e, next'. split; [exact Hb | exact Hbits].
  - destruct (bind_closed (Function "x" (Function "y" (Name "x"))) next)
      as (e & next' & Hb & _ & _ & Hbits); [reflexivity|].
    exists e, next'. split; [exact Hb | exact Hbits].
  - destruct (bind_closed
                (Function "x" (Function "y" (Apply (Name "x") (Name "y")))) next)
      as (e & next' & Hb & _ & _ & Hbits); [reflexivity|].
    exists e, next'. split; [exact Hb | exact Hbits].
Qed.

(** C6 as stated fails: [parse("\x.x")] returns a node of the parser's own
    classes, [bind] of that node raises [AttributeError], and so
    [bind(parse("\x.x"))] has no bit string. *)
Lemma bind_of_parsed_literal_has_no_bitstring :
  parse "\x.x" = inr (Function "x" (Name "x"))
  /\ bind_parse "\x.x" 0 = inl AttributeError
  /\ ~ (exists e next',
          bind_parse "\x.x" 0 = inr (e, next') /\ bitstring e = inr "0010").
Proof.
  split; [reflexivity|]. split; [reflexivity|].
  intros (e & next' & H & _).
  exact (proj2 (bind_parse_raises_AttributeError "\x.x" 0) _ H).
Qed.

(** C5, as the code has it.  [bind] of a raw tree in which every name has a
    binder returns an expression of the same shape in which every reference
    is to the Parameter of the nearest enclosing function of that name: the
    distance from a reference to its binder is the distance to the
    innermost function with that name.  In particular [bind] of the
    [church.ast] trees of [\x.\x.x] and of [\x.\y.y] returns expressions
    that are equal for [__eq__], and both have the bit string "000010". *)
Theorem bind_resolves_to_nearest_binder :
  (forall ast next,
     Ast_closed [] ast = true ->
     exists e next',
       bind ast next = inr (e, next')
       /\ well_scoped [] e
       /\ to_dB [] e = Ast_to_dB [] ast)
  /\ (forall next1 next2, exists e1 next1' e2 next2',
        bind (Function "x" (Function "x" (Name "x"))) next1 = inr (e1, next1')
        /\ bind (Function "x" (Function "y" (Name "y"))) next2 = inr (e2, next2')
        /\ __eq__ e1 e2 = inr true
        /\ bitstring e1 = inr "000010" /\ bitstring e2 = inr "000010").
Proof.
  split.
  - intros ast next Hcl.
    destruct (bind_closed ast next Hcl) as (e & next' & Hb & Hws & Hdb & _).
    eauto.
  - intros next1 next2.
    destruct (bind_closed (Function "x" (Function "x" (Name "x"))) next1)
      as (e1 & next1' & Hb1 & Hws1 & Hdb1 & Hbits1); [reflexivity|].
    destruct (bind_closed (Function "x" (Function "y" (Name "y"))) next2)
      as (e2 & next2' & Hb2 & Hws2 & Hdb2 & Hbits2); [reflexivity|].
    exists e1, next1', e2, next2'. repeat split; try assumption.
    apply eq_of_to_dB; try assumption. now rewrite Hdb1, Hdb2.
Qed.

Lemma bind_resolves_to_nearest_binder_witness :
  let ast := Function "x" (Function "x" (Name "x")) in
  Ast_closed [] ast = true /\
  exists e next',
    bind ast 0 = inr (e, next')
    /\ well_scoped [] e
    /\ to_dB [] e = Ast_to_dB [] ast.
Proof.
  intros ast. split; [reflexivity|].
  apply (proj1 bind_resolves_to_nearest_binder ast 0). reflexivity.
Defined.

(** C5 as stated fails: [parse("\x.\x.x")] and [parse("\x.\y.y")] return
    nodes of the parser's own classes, [bind] of such a node raises
    [AttributeError], and so neither [bind(parse("\x.\x.x"))] nor
    [bind(parse("\x.\y.y"))] is an expression with a bit string. *)
Lemma bind_of_parsed_shadowing_literals_raises :
  parse "\x.\x.x" = inr (Function "x" (Function "x" (Name "x")))
  /\ parse "\x.\y.y" = inr (Function "x" (Function "y" (Name "y")))
  /\ bind_parse "\x.\x.x" 0 = inl AttributeError
  /\ bind_parse "\x.\y.y" 0 = inl AttributeError
  /\ ~ (exists e1 next1 e2 next2,
          bind_parse "\x.\x.x" 0 = inr (e1, next1)
          /\ bind_parse "\x.\y.y" 0 = inr (e2, next2)
          /\ __eq__ e1 e2 = inr true
          /\ bitstring e1 = inr "000010" /\ bitstring e2 = inr "000010").
Proof.
  split; [reflexivity|]. split; [reflexivity|].
  split; [reflexivity|]. split; [reflexivity|].
  intros (e1 & next1 & e2 & next2 & H & _).
  exact (proj2 (bind_parse_raises_AttributeError "\x.\x.x" 0) _ H).
Qed.

(** ** Unbound names *)

(** C8, as the code has it.  [bind] of a raw tree in which some name has no
    binder of that name around it raises [ValueError("Failed lookup")]: the
    exception is the same whatever the name.  [bind] of the [church.ast]
    tree [Name("x")] raises it, and it is of another class than the
    [ParseError] of the tokenizer and the parser. *)
Theorem bind_unbound_name_raises_ValueError :
  (forall ast next,
     Ast_closed [] ast = false ->
     bind ast next = inl (ValueError "Failed lookup"))
  /\ (forall next, bind (Name "x") next = inl (ValueError "Failed lookup"))
  /\ (forall args, ValueError "Failed lookup" <> ParseError args).
Proof.
  split; [|split].
  - intros ast next Hcl. rewrite bind_bind_rec. now apply bind_rec_unbound.
  - intros next. reflexivity.
  - discriminate.
Qed.

Lemma bind_unbound_name_raises_ValueError_witness :
  Ast_closed [] (Apply (Function "x" (Name "x")) (Name "y")) = false
  /\ bind (Apply (Function "x" (Name "x")) (Name "y")) 0
     = inl (ValueError "Failed lookup").
Proof.
  split; [reflexivity|].
  apply (proj1 bind_unbound_name_raises_ValueError). reflexivity.
Defined.

(** C8 as stated fails: the exception raised for an unbound name does not
    identify the name, since the unbound names "x" and "y" raise the same
    exception. *)
Lemma unbound_name_error_does_not_identify_name :
  ~ (exists name_of : exn -> string,
       forall x next err, bind (Name x) next = inl err -> name_of err = x).
Proof.
  intros [name_of H].
  pose proof (H "x" 0 (ValueError "Failed lookup") eq_refl) as Hx.
  pose proof (H "y" 0 (ValueError "Failed lookup") eq_refl) as Hy.
  rewrite Hx in Hy. discriminate.
Qed.

(** ** Function application *)

Lemma binders_parameters (e : Expr) (q : Param) :
  q ∈ binders e -> q ∈ parameters e.
Proof.
  induction e as [f IHf a IHa | p b IHb | p]; simpl; intros Hq.
  - apply elem_of_app in Hq. apply elem_of_app. tauto.
  - apply elem_of_cons in Hq. apply elem_of_cons. tauto.
  - now apply elem_of_nil in Hq.
Qed.

Lemma well_formed_function (p : Param) (body : Expr) :
  well_formed (FunctionExpr p body) = true -> well_scoped [pid p] body.
Proof. intros H. now apply well_formed_well_scoped in H as [_ H]. Qed.

Lemma call_reallocate (p : Param) (body arg : Expr) (next : nat) :
  well_scoped [pid p] body -> pid p < next ->
  __call__ (FunctionExpr p body) arg next
  = inr (replace_parameter (pid p) arg (reallocate ∅ body next).1,
         (reallocate ∅ body next).2).
Proof.
  intros Hws Hlt. rewrite call_call_rec.
  rewrite <- (call_rec_reallocate (pid p) arg body [] ∅ next); try assumption.
  - now rewrite fmap_empty, insert_empty.
  - intros x. rewrite lookup_empty. split.
    + intros Hx. now apply elem_of_nil in Hx.
    + intros [? ?]. discriminate.
  - apply not_elem_of_nil.
  - intros x q'. rewrite lookup_empty. discriminate.
Qed.

(** C3.  Applying a well-formed function whose Parameters have been
    allocated returns its body with every reference to the function's own
    parameter replaced by the argument, in a copy [body'] of the body that
    is the body up to the renaming of its binders.  In particular the bound
    form of [\x.x], which is what [bind] returns for the [church.ast] tree
    [Function("x", Name("x"))], applied to a well-formed [arg] returns an
    expression equal to [arg] for [__eq__] (it returns [arg] itself). *)
Theorem call_replaces_parameter_references :
  (forall p body arg next,
     well_formed (FunctionExpr p body) = true ->
     allocated next (FunctionExpr p body) ->
     exists body' next',
       alpha [(pid p, pid p)] body body'
       /\ __call__ (FunctionExpr p body) arg next
          = inr (replace_parameter (pid p) arg body', next'))
  /\ (forall arg next,
        well_formed arg = true ->
        exists f next1 r next2,
          bind (Function "x" (Name "x")) next = inr (f, next1)
          /\ __call__ f arg next1 = inr (r, next2)
          /\ r = arg /\ __eq__ r arg = inr true).
Proof.
  split.
  - intros p body arg next Hwf Hal.
    apply well_formed_function in Hwf.
    assert (Hlt : pid p < next).
    { unfold allocated in Hal. simpl in Hal. now apply Forall_cons in Hal as [? _]. }
    exists (reallocate ∅ body next).1, (reallocate ∅ body next).2.
    split; [|now apply call_reallocate].
    apply reallocate_alpha.
    + exact Hwf.
    + simpl. intros y Hy. apply list_elem_of_singleton in Hy. now subst y.
    + simpl. intros q Hq. apply list_elem_of_singleton in Hq.
      rewrite lookup_empty. simpl. left. auto.
  - intros arg next Hwf. apply well_formed_well_scoped in Hwf.
    exists (FunctionExpr (mkParameter next "x")
              (ParameterReference (mkParameter next "x"))),
           (S next), arg, (S next).
    split; [reflexivity|].
    split.
    + rewrite call_call_rec. simpl. unfold dict_get. simpl.
      now rewrite lookup_singleton_eq.
    + split; [reflexivity|]. now apply eq_of_to_dB.
Qed.

Lemma call_replaces_parameter_references_witness :
  let x := mkParameter 0 "x" in
  let y := mkParameter 1 "y" in
  let z := mkParameter 2 "z" in
  let f := FunctionExpr y (ApplyExpr (ParameterReference y) (ParameterReference y)) in
  let arg := FunctionExpr z (ParameterReference z) in
  (exists body' next',
     alpha [(pid y, pid y)] (ApplyExpr (ParameterReference y) (ParameterReference y)) body'
     /\ __call__ f arg 3 = inr (replace_parameter (pid y) arg body', next'))
  /\ (exists g next1 r next2,
        bind (Function "x" (Name "x")) 3 = inr (g, next1)
        /\ __call__ g arg next1 = inr (r, next2)
        /\ r = arg /\ __eq__ r arg = inr true).
Proof.
  intros x y z f arg. split.
  - apply (proj1 call_replaces_parameter_references y _ arg 3).
    + vm_compute. reflexivity.
    + unfold allocated. simpl. repeat constructor.
  - apply (proj2 call_replaces_parameter_references arg 3).
    vm_compute. reflexivity.
Defined.

(** C4, as the code has it.  Applying a well-formed function whose
    Parameters have been allocated returns [replace_parameter p arg body']
    where the binders of [body'] are newly allocated Parameters with the
    names of the binders of the body, in the same order; none of them is a
    Parameter of the function.  Every Parameter of the result is a
    Parameter of the argument or newly allocated, so the result has no
    Parameter of the body's binders unless the argument has one. *)
Theorem call_reallocates_inner_binders (p : Param) (body arg : Expr) (next : nat) :
  well_formed (FunctionExpr p body) = true ->
  allocated next (FunctionExpr p body) ->
  exists body' next',
    __call__ (FunctionExpr p body) arg next
      = inr (replace_parameter (pid p) arg body', next')
    /\ name <$> binders body' = name <$> binders body
    /\ pid <$> binders body' = seq next (length (binders body))
    /\ (forall q q0, q ∈ binders body' ->
                     q0 ∈ parameters (FunctionExpr p body) -> pid q <> pid q0)
    /\ (forall q, q ∈ parameters (replace_parameter (pid p) arg body') ->
                  q ∈ parameters arg \/ next <= pid q)
    /\ ((forall q, q ∈ parameters arg -> pid q ∉ pid <$> binders body) ->
        forall q, q ∈ parameters (replace_parameter (pid p) arg body') ->
                  pid q ∉ pid <$> binders body).
Proof.
  intros Hwf Hal. apply well_formed_function in Hwf.
  assert (Hlt : pid p < next).
  { unfold allocated in Hal. simpl in Hal. now apply Forall_cons in Hal as [? _]. }
  destruct (reallocate_binders body ∅ next) as (Hpids & Hnames & Hnext).
  destruct (reallocate_parameters (pid p) next body [pid p] ∅ next Hwf)
    as [Hpar Hbin].
  { intros q Hq. apply list_elem_of_singleton in Hq.
    rewrite lookup_empty. simpl. now left. }
  { lia. }
  pose proof (replace_parameter_parameters (pid p) next arg _ Hpar Hbin) as Hres.
  exists (reallocate ∅ body next).1, (reallocate ∅ body next).2.
  split; [now apply call_reallocate|].
  split; [exact Hnames|]. split; [exact Hpids|].
  assert (Hold : forall q0, q0 ∈ parameters (FunctionExpr p body) -> pid q0 < next).
  { intros q0 Hq0. unfold allocated in Hal. rewrite Forall_forall in Hal. now apply Hal. }
  split; [|split].
  - intros q q0 Hq Hq0. rewrite Forall_forall in Hbin.
    specialize (Hbin q Hq). specialize (Hold q0 Hq0). lia.
  - exact Hres.
  - intros Harg q Hq Hin.
    destruct (Hres q Hq) as [Ha|Hn]; [now apply (Harg q)|].
    apply list_elem_of_fmap in Hin. destruct Hin as (q0 & Heq & Hq0).
    assert (pid q0 < next); [|lia].
    apply Hold. simpl. right. now apply binders_parameters.
Qed.

Lemma call_reallocates_inner_binders_witness :
  let x := mkParameter 0 "x" in
  let y := mkParameter 1 "y" in
  let z := mkParameter 2 "z" in
  let body := FunctionExpr y (ApplyExpr (ParameterReference x) (ParameterReference y)) in
  let arg := FunctionExpr z (ParameterReference z) in
  exists body' next',
    __call__ (FunctionExpr x body) arg 3
      = inr (replace_parameter (pid x) arg body', next')
    /\ name <$> binders body' = name <$> binders body
    /\ pid <$> binders body' = seq 3 (length (binders body))
    /\ (forall q q0, q ∈ binders body' ->
                     q0 ∈ parameters (FunctionExpr x body) -> pid q <> pid q0)
    /\ (forall q, q ∈ parameters (replace_parameter (pid x) arg body') ->
                  q ∈ parameters arg \/ 3 <= pid q)
    /\ ((forall q, q ∈ parameters arg -> pid q ∉ pid <$> binders body) ->
        forall q, q ∈ parameters (replace_parameter (pid x) arg body') ->
                  pid q ∉ pid <$> binders body).
Proof.
  intros x y z body arg.
  apply (call_reallocates_inner_binders x body arg 3).
  - vm_compute. reflexivity.
  - unfold allocated. simpl. repeat constructor.
Defined.

(** C4 as stated fails when the argument itself holds a binder of the body:
    in [f(f)] for [f = \x.\y.x] the result is [\y'.f], in which the binder
    [y] of the body of [f] occurs. *)
Lemma call_result_may_share_body_binders :
  ~ (forall p body arg next r next',
       well_formed (FunctionExpr p body) = true ->
       allocated next (FunctionExpr p body) ->
       well_formed arg = true ->
       __call__ (FunctionExpr p body) arg next = inr (r, next') ->
       forall q, q ∈ binders body -> pid q ∉ pid <$> parameters r).
Proof.
  intros H.
  set (x := mkParameter 0 "x"). set (y := mkParameter 1 "y").
  set (body := FunctionExpr y (ParameterReference x)).
  set (f := FunctionExpr x body).
  set (y' := mkParameter 2 "y").
  apply (H x body f 2 (FunctionExpr y' f) 3) with (q := y).
  - vm_compute. reflexivity.
  - unfold allocated. simpl. repeat constructor.
  - vm_compute. reflexivity.
  - vm_compute. reflexivity.
  - simpl. now left.
  - simpl. set_solver.
Qed.

(** C10.  Applying a function whose body has a reference to a Parameter
    that is neither the function's own nor that of a function of the body
    around the reference raises [KeyError] (the binders being pairwise
    distinct, so that no assertion fails first); when every reference of
    the body is to the function's parameter or to a binder inside the body,
    no [KeyError] is raised, and the application of a well-formed function
    returns. *)
Theorem call_requires_closed_body (p : Param) (body arg : Expr) (next : nat) :
  (scoped [pid p] body = false ->
   NoDup (pid <$> binders (FunctionExpr p body)) ->
   __call__ (FunctionExpr p body) arg next = inl KeyError)
  /\ (scoped [pid p] body = true ->
      forall err, __call__ (FunctionExpr p body) arg next = inl err ->
                  err <> KeyError)
  /\ (well_formed (FunctionExpr p body) = true ->
      exists r next', __call__ (FunctionExpr p body) arg next = inr (r, next')).
Proof.
  assert (Hdom : forall x, x ∈ [pid p]
                           <-> is_Some (({[pid p := arg]} : gmap nat Expr) !! x)).
  { intros x. rewrite list_elem_of_singleton, lookup_singleton.
    destruct (decide (pid p = x)); split; intros H; try congruence; eauto.
    destruct H. discriminate. }
  rewrite call_call_rec. split; [|split].
  - intros Hsc Hnd. simpl in Hnd. apply NoDup_cons in Hnd. destruct Hnd as [Hp Hnd].
    apply (call_rec_KeyError body [pid p]); try assumption.
    intros q Hq Hin. apply list_elem_of_singleton in Hin.
    apply Hp. rewrite <- Hin. apply list_elem_of_fmap. now exists q.
  - intros Hsc err Hrun.
    rewrite (call_rec_scoped_error body [pid p] {[pid p := arg]} next err Hsc);
      [discriminate | | exact Hrun].
    intros x Hx. now apply Hdom.
  - intros Hwf. apply well_formed_function in Hwf.
    now apply (call_rec_returns body [pid p]).
Qed.

Lemma call_requires_closed_body_witness :
  let x := mkParameter 0 "x" in
  let y := mkParameter 1 "y" in
  let z := mkParameter 2 "z" in
  let arg := FunctionExpr z (ParameterReference z) in
  __call__ (FunctionExpr x (ApplyExpr (ParameterReference x) (ParameterReference y)))
           arg 3 = inl KeyError
  /\ (forall err,
        __call__ (FunctionExpr x (FunctionExpr y (ParameterReference x))) arg 3
        = inl err -> err <> KeyError)
  /\ (exists r next',
        __call__ (FunctionExpr x (FunctionExpr y (ParameterReference x))) arg 3
        = inr (r, next')).
Proof.
  intros x y z arg. split; [|split].
  - apply (proj1 (call_requires_closed_body x _ arg 3)).
    + vm_compute. reflexivity.
    + simpl. apply NoDup_singleton.
  - apply (proj1 (proj2 (call_requires_closed_body x _ arg 3))).
    vm_compute. reflexivity.
  - apply (proj2 (proj2 (call_requires_closed_body x _ arg 3))).
    vm_compute. reflexivity.
Defined.

(** ** Errors of the tokenizer and of the parser *)

Lemma parse_loop_round (ps : parser) :
  parse_loop ps
  = match parse_step ps with
    | inl e => inl e
    | inr (inr result) => inr result
    | inr (inl ps') => parse_loop ps'
    end.
Proof.
  funelim (parse_loop ps);
    match goal with
    | Hstep : parse_step _ = _ |- _ => rewrite Hstep
    end; reflexivity.
Qed.

Lemma tokenize_loop_invalid (pre : string) :
  forall parsing_id id_chars c rest,
    all_accepted pre = true -> accepted_character c = false ->
    exists toks : list token,
      tokenize_loop (pre +:+ String c rest) parsing_id id_chars
      = (inr <$> toks) ++ [inl (invalid_character c)].
Proof.
  induction pre as [|a pre IH]; intros parsing_id id_chars c rest Hpre Hc.
  - unfold accepted_character in Hc.
    apply orb_false_iff in Hc. destruct Hc as [Hc Hw].
    apply orb_false_iff in Hc. destruct Hc as [Hi Hs].
    simpl. rewrite Hi, Hw. destruct (SINGLE_TOKEN_CHARS c); [discriminate|].
    destruct parsing_id; simpl.
    + now exists [(ID, VStr id_chars)].
    + now exists [].
  - simpl in Hpre. apply andb_true_iff in Hpre. destruct Hpre as [Ha Hpre].
    simpl. destruct (IDENTIFIER_CHARACTERS a) eqn:Hi.
    + apply IH; assumption.
    + unfold accepted_character in Ha. rewrite Hi in Ha. simpl in Ha.
      destruct (SINGLE_TOKEN_CHARS a) as [kind|].
      * destruct (IH false id_chars c rest Hpre Hc) as [toks Htoks].
        rewrite Htoks. destruct parsing_id; simpl.
        -- now exists ((ID, VStr id_chars) :: (kind, VNone) :: toks).
        -- now exists ((kind, VNone) :: toks).
      * simpl in Ha. rewrite Ha.
        destruct (IH false id_chars c rest Hpre Hc) as [toks Htoks].
        rewrite Htoks. destruct parsing_id; simpl.
        -- now exists ((ID, VStr id_chars) :: toks).
        -- now exists toks.
Qed.

(** ** The exceptions of [parse] *)

Lemma next_ok (s : string) (tokens : TokenStream) :
  stream_ok s tokens -> stream_ends tokens ->
  match TokenStream_next tokens with
  | inl e => parse_error s e
  | inr (tok, tokens') =>
      token_ok tok = true /\ stream_ok s tokens'
      /\ (fst tok = END \/ stream_ends tokens')
  end.
Proof.
  destruct tokens as [h t]. unfold stream_ok, stream_ends, TokenStream_next.
  cbn [_head _tail]. intros [Hh Ht] Hend.
  destruct h as [|tok h].
  - destruct Hend as [Hend|Hend]; [now apply Exists_nil in Hend|].
    destruct t as [|[e|tok] t]; [now apply Exists_nil in Hend| |].
    + apply Forall_cons in Ht. destruct Ht as [He _]. right. exact He.
    + apply Forall_cons in Ht. destruct Ht as [Htok Ht].
      split; [exact Htok|]. split; [split; [constructor | exact Ht]|].
      apply Exists_cons in Hend. destruct Hend as [Hend|Hend]; [now left|].
      right. now right.
  - apply Forall_cons in Hh. destruct Hh as [Htok Hh].
    split; [exact Htok|]. split; [split; assumption|].
    destruct Hend as [Hend|Hend].
    + apply Exists_cons in Hend. destruct Hend as [Hend|Hend]; [now left|].
      right. now left.
    + right. now right.
Qed.

Lemma push_ok (s : string) (tokens : TokenStream) (tok : token) :
  stream_ok s tokens -> token_ok tok = true ->
  stream_ok s (TokenStream_push tokens tok).
Proof.
  intros [Hh Ht] Htok. split; [|exact Ht]. cbn. constructor; assumption.
Qed.

Lemma push_ends (tokens : TokenStream) (tok : token) :
  stream_ends tokens -> stream_ends (TokenStream_push tokens tok).
Proof.
  intros [H|H]; [left | now right]. cbn. now apply Exists_cons_tl.
Qed.

Lemma peek_type_ok (s : string) (tokens : TokenStream) :
  stream_ok s tokens -> stream_ends tokens ->
  match TokenStream_peek_type tokens with
  | inl e => parse_error s e
  | inr (_, tokens') => stream_ok s tokens' /\ stream_ends tokens'
  end.
Proof.
  intros Hok Hend. pose proof (next_ok s tokens Hok Hend) as Hn.
  unfold TokenStream_peek_type, TokenStream_peek.
  destruct (TokenStream_next tokens) as [e|[[kind v] ts]]; cbn [bind_exn];
    [exact Hn|].
  destruct Hn as (Htok & Hts & Hends). split; [now apply push_ok|].
  destruct Hends as [Hk|Hends]; [|now apply push_ends].
  left. cbn. now apply Exists_cons_hd.
Qed.

Ltac peel H :=
  match type of H with
  | stack_ok ?st ?ss ?vs = true =>
      let below := fresh "below" in
      let v := fresh "v" in
      let Hp := fresh "Hprec" in
      let Hk := fresh "Hkind" in
      destruct ss as [|below ss]; destruct vs as [|v vs];
      cbn [stack_ok] in H; try discriminate H;
      apply andb_true_iff in H; destruct H as [Hp H];
      apply andb_true_iff in Hp; destruct Hp as [Hp Hk];
      destruct below; try discriminate Hp;
      destruct v; try discriminate Hk;
      clear Hp Hk
  end.

Lemma shift_ok (s : string) (st : state) ss vs (tokens tokens' : TokenStream)
    (kind : token_type) (v : value) (next_state : state) :
  stack_ok st ss vs = true ->
  token_ok (kind, v) = true ->
  may_precede st next_state = true ->
  entered_by next_state = Some kind ->
  stream_ok s tokens' ->
  (kind = END -> next_state = SBEGIN_COMPLETE_END) ->
  (kind = END \/ stream_ends tokens') ->
  parser_ok s (shift (mkParser st ss vs tokens) v tokens' next_state).
Proof.
  intros Hstack Htok Hprec Hent Hstream Hend1 Hend2.
  unfold parser_ok, shift. cbn [ps_state ps_state_stack ps_value_stack ps_tokens].
  split; [|split].
  - cbn [stack_ok]. rewrite Hprec, Hent, Hstack. unfold token_ok in Htok.
    cbn in Htok. now rewrite Htok.
  - exact Hstream.
  - destruct Hend2 as [Hk|He]; [left; auto | now right].
Qed.

Lemma reduce_ok (s : string) (ps : parser) (st : state) ss vs (tok : token) :
  stack_ok st ss vs = true ->
  token_ok tok = true ->
  st <> SBEGIN_COMPLETE_END ->
  stream_ok s (ps_tokens ps) ->
  stream_ends (ps_tokens ps) ->
  parser_ok s (reduce ps st ss vs tok).
Proof.
  intros Hstack Htok Hst Hstream Hends. unfold parser_ok, reduce.
  cbn [ps_state ps_state_stack ps_value_stack ps_tokens].
  split; [exact Hstack|]. split; [now apply push_ok|].
  right. now apply push_ends.
Qed.

Ltac reduce_finish Hstack Hstream Hends :=
  cbn;
  apply reduce_ok;
    [exact Hstack | reflexivity | discriminate | exact Hstream | exact Hends].

Lemma parse_step_ok (s : string) (ps : parser) :
  parser_ok s ps ->
  match parse_step ps with
  | inl e => parse_error s e
  | inr (inl ps') => parser_ok s ps'
  | inr (inr _) => True
  end.
Proof.
  destruct ps as [st ss vs ts]. intros (Hstack & Hstream & Hends).
  cbn [ps_state ps_state_stack ps_value_stack ps_tokens] in *.
  destruct st.
  (* shift states *)
  1-8: destruct Hends as [?|Hends]; [discriminate|];
    pose proof (next_ok s ts Hstream Hends) as Hn;
    unfold parse_step, shift_expr_start;
    cbn [ps_state ps_state_stack ps_value_stack ps_tokens];
    destruct (TokenStream_next ts) as [e|[[kind v] ts']]; cbn [bind_exn];
    [exact Hn|]; destruct Hn as (Htok & Hts' & Hend');
    destruct kind; cbn [bind_exn]; try (left; reflexivity);
    try (eapply shift_ok; try eassumption; try reflexivity; discriminate).
  1-3: destruct Hend' as [?|Hend']; [discriminate|];
    pose proof (peek_type_ok s ts' Hts' Hend') as Hp;
    destruct (TokenStream_peek_type ts') as [e|[k ts'']]; cbn [bind_exn];
    [exact Hp|]; destruct Hp as [Hts'' Hend''];
    destruct (token_type_eqb k END || token_type_eqb k RIGHT); cbn [bind_exn];
    (eapply shift_ok; try eassumption; try reflexivity; try discriminate;
     now right).
  (* reduce states *)
  1-8: destruct Hends as [?|Hends]; [discriminate|].
  - do 2 (peel Hstack); reduce_finish Hstack Hstream Hends.
  - do 3 (peel Hstack); reduce_finish Hstack Hstream Hends.
  - peel Hstack; reduce_finish Hstack Hstream Hends.
  - peel Hstack; reduce_finish Hstack Hstream Hends.
  - peel Hstack; reduce_finish Hstack Hstream Hends.
  - do 4 (peel Hstack); reduce_finish Hstack Hstream Hends.
  - do 2 (peel Hstack); reduce_finish Hstack Hstream Hends.
  - peel Hstack; reduce_finish Hstack Hstream Hends.
  - do 2 (peel Hstack). cbn. exact I.
Qed.

Lemma item_ok_weaken (a : ascii) (s : string) (item : exn + token) :
  item_ok s item -> item_ok (String a s) item.
Proof.
  destruct item as [e|tok]; [|auto].
  intros (c & Hc & Hacc & He). exists c. split; [now right | auto].
Qed.

Lemma tokenize_loop_ok (chars : string) :
  forall parsing_id id_chars,
    Forall (item_ok chars) (tokenize_loop chars parsing_id id_chars)
    /\ Exists item_ends (tokenize_loop chars parsing_id id_chars).
Proof.
  induction chars as [|a chars IH]; intros parsing_id id_chars; cbn [tokenize_loop].
  - split.
    + apply Forall_app. split; [destruct parsing_id|]; repeat constructor.
    + apply Exists_app. right. constructor. reflexivity.
  - destruct (IDENTIFIER_CHARACTERS a) eqn:Hi.
    + destruct (IH true ((if parsing_id then id_chars else "") +:+ String a ""))
        as [Hok Hend].
      split; [|exact Hend].
      eapply Forall_impl; [exact Hok | apply item_ok_weaken].
    + assert (Hflush : Forall (item_ok (String a chars)) (flush_id parsing_id id_chars))
        by (destruct parsing_id; repeat constructor).
      destruct (IH false id_chars) as [Hok Hend].
      assert (Hok' : Forall (item_ok (String a chars))
                            (tokenize_loop chars false id_chars))
        by (eapply Forall_impl; [exact Hok | apply item_ok_weaken]).
      destruct (SINGLE_TOKEN_CHARS a) as [kind|] eqn:Hs.
      * split.
        -- apply Forall_app. split; [exact Hflush|]. constructor; [|exact Hok'].
           unfold SINGLE_TOKEN_CHARS in Hs.
           repeat match type of Hs with
                  | (if ?b then _ else _) = _ => destruct b
                  end; inversion Hs; reflexivity.
        -- apply Exists_app. right. now apply Exists_cons_tl.
      * destruct (WHITESPACE a) eqn:Hw.
        -- split; [apply Forall_app; auto | apply Exists_app; auto].
        -- split.
           ++ apply Forall_app. split; [exact Hflush|]. constructor; [|constructor].
              exists a. split; [now left|]. split; [|reflexivity].
              unfold accepted_character. now rewrite Hi, Hs, Hw.
           ++ apply Exists_app. right. constructor. exact I.
Qed.

Lemma parse_loop_ok (s : string) (ps : parser) :
  parser_ok s ps ->
  forall err, parse_loop ps = inl err -> parse_error s err.
Proof.
  funelim (parse_loop ps); intros Hok err Herr;
    pose proof (parse_step_ok s ps Hok) as Hstep;
    match goal with
    | H : parse_step _ = _ |- _ => rewrite H in Hstep
    end.
  - injection Herr as <-. exact Hstep.
  - eauto.
  - discriminate.
Qed.

Lemma parse_raises_parse_error (s : string) (err : exn) :
  parse s = inl err -> parse_error s err.
Proof.
  apply parse_loop_ok. destruct (tokenize_loop_ok s false "") as [Hok Hend].
  split; [reflexivity|]. split; [split; [constructor | exact Hok]|].
  right. right. exact Hend.
Qed.

(** C9, as the code has it.  Every exception of [parse] is a [ParseError]:
    without arguments, or with the message of the tokenizer for a character
    of the input that is not accepted.  A state that has read a token for
    which it has no transition raises [ParseError()], without arguments:
    once a token is read, the only other exception of the round is one met
    by the lookahead.  The tokenizer raises, at the first character outside the
    accepted alphabet, [ParseError] with a message that ends in that
    character, and so does [parse] when that character comes first.
    [parse("")] and [parse("(x")] raise [ParseError()], and [parse("$")]
    raises [ParseError("Invalid character in string: $")]. *)
Theorem parse_errors :
  (forall s err,
     parse s = inl err ->
     err = ParseError []
     \/ exists c, occurs c s /\ accepted_character c = false
                  /\ err = invalid_character c)
  /\ (forall ps tok tokens' err,
        shift_state (ps_state ps) = true ->
        TokenStream_next (ps_tokens ps) = inr (tok, tokens') ->
        parse_step ps = inl err ->
        err = ParseError []
        \/ (fst tok = EXPR /\ TokenStream_peek_type tokens' = inl err))
  /\ (forall pre c rest,
        all_accepted pre = true -> accepted_character c = false ->
        exists toks : list token,
          tokenize (pre +:+ String c rest)
          = (inr <$> toks) ++ [inl (invalid_character c)])
  /\ (forall c rest,
        accepted_character c = false ->
        parse (String c rest) = inl (invalid_character c))
  /\ parse "" = inl (ParseError [])
  /\ parse "(x" = inl (ParseError [])
  /\ parse "$" = inl (ParseError ["Invalid character in string: $"]).
Proof.
  split; [exact parse_raises_parse_error|].
  split; [|split; [|split; [|repeat split]]].
  - intros ps tok tokens' err Hst Hn. unfold parse_step.
    destruct (ps_state ps); try discriminate; unfold shift_expr_start;
      rewrite Hn; destruct tok as [kind v]; simpl;
      destruct kind; simpl; try discriminate;
      try (intros [= <-]; now left).
    all: destruct (TokenStream_peek_type tokens') as [e|[k ts]]; simpl;
      [intros [= <-]; right; auto
      | destruct (token_type_eqb k END || token_type_eqb k RIGHT); discriminate].
  - intros pre c rest. apply tokenize_loop_invalid.
  - intros c rest Hc.
    destruct (tokenize_loop_invalid "" false "" c rest eq_refl Hc) as [toks Htoks].
    unfold accepted_character in Hc.
    apply orb_false_iff in Hc. destruct Hc as [Hc Hw].
    apply orb_false_iff in Hc. destruct Hc as [Hi Hs].
    unfold parse, SMParser_parse, tokenize. simpl. rewrite Hi, Hw.
    destruct (SINGLE_TOKEN_CHARS c); [discriminate|]. simpl.
    rewrite parse_loop_round. reflexivity.
Qed.

Lemma parse_errors_witness :
  let ps := mkParser SBEGIN [] [] (mkTokenStream [] (tokenize ")")) in
  (ParseError [] = ParseError []
   \/ exists c, occurs c "(x" /\ accepted_character c = false
                /\ ParseError [] = invalid_character c)
  /\ (ParseError [] = ParseError []
   \/ (fst (RIGHT, VNone) = EXPR
       /\ TokenStream_peek_type (mkTokenStream [] [inr (END, VNone)])
          = inl (ParseError [])))
  /\ (exists toks : list token,
        tokenize ("\x. x" +:+ String "$" "y")
        = (inr <$> toks) ++ [inl (invalid_character "$")])
  /\ parse (String "#" "x") = inl (invalid_character "#").
Proof.
  intros ps. split; [|split; [|split]].
  - apply (proj1 parse_errors "(x" (ParseError [])). reflexivity.
  - apply (proj1 (proj2 parse_errors) ps (RIGHT, VNone)
             (mkTokenStream [] [inr (END, VNone)]) (ParseError []));
      reflexivity.
  - apply (proj1 (proj2 (proj2 parse_errors)) "\x. x" "$"%char "y"); reflexivity.
  - apply (proj1 (proj2 (proj2 (proj2 parse_errors))) "#"%char "x"). reflexivity.
Defined.

(** C9 as stated fails: the exception of a syntax error does not identify
    the unexpected token.  [parse("")] is rejected at the token END and
    [parse(")")] at the token RIGHT, with the same exception. *)
Lemma syntax_error_does_not_identify_token :
  ~ (exists token_of : exn -> token_type,
       (forall err, parse "" = inl err -> token_of err = END)
       /\ (forall err, parse ")" = inl err -> token_of err = RIGHT)).
Proof.
  intros [token_of [H1 H2]].
  specialize (H1 (ParseError []) eq_refl).
  specialize (H2 (ParseError []) eq_refl).
  rewrite H1 in H2. discriminate.
Qed.

(** ** Runs of the parser *)

Lemma reaches_trans (ps1 ps2 ps3 : parser) :
  reaches ps1 ps2 -> reaches ps2 ps3 -> reaches ps1 ps3.
Proof.
  induction 1 as [|ps ps1 ps' Hstep _ IH]; [auto|].
  intros H. eapply reaches_step; [exact Hstep | now apply IH].
Qed.

Lemma reaches_parse_loop (ps ps' : parser) :
  reaches ps ps' -> parse_loop ps = parse_loop ps'.
Proof.
  induction 1 as [|ps ps1 ps' Hstep _ IH]; [reflexivity|].
  now rewrite parse_loop_round, Hstep.
Qed.

(** A token in the push-back slot is read like a token that is about to be
    generated. *)
Lemma parse_step_pushed (st : state) ss vs (tok : token) (t : token_gen) :
  shift_state st = true ->
  parse_step (mkParser st ss vs (mkTokenStream [tok] t))
  = parse_step (mkParser st ss vs (mkTokenStream [] (inr tok :: t))).
Proof. destruct st; try discriminate; reflexivity. Qed.

Lemma tokens_of_first (a : Ast) :
  exists tok toks,
    tokens_of a = tok :: toks /\ (fst tok = ID \/ fst tok = LEFT).
Proof. destruct a; simpl; eauto. Qed.

Ltac parser_rounds := repeat (eapply reaches_step; [reflexivity|]).

Ltac parser_finish :=
  first [ apply reaches_refl
        | eapply reaches_step; [reflexivity|]; parser_finish ].

(** From a state in which an expression may begin, reading the tokens of
    the rendering of [a] leaves the stacks as they were and pushes back the
    atom [a]. *)
Lemma atom_run (a : Ast) :
  forall st ss vs (rest : token_gen),
    expr_state st = true ->
    exists ps1,
      parse_step (mkParser st ss vs
                    (mkTokenStream [] ((inr <$> tokens_of a) ++ rest)))
      = inr (inl ps1)
      /\ reaches ps1 (mkParser st ss vs (mkTokenStream [(ATOM, VNode a)] rest)).
Proof.
  induction a as [x | f IHf a IHa | x b IHb]; intros st ss vs rest Hst.
  - destruct st; try discriminate; eexists; (split; [reflexivity|]);
      parser_finish.
  - cbn [tokens_of]. rewrite !fmap_app, <- !app_assoc. cbn [fmap list_fmap app].
    destruct (IHf SLEFT (st :: ss) (VNone :: vs)
                ((inr <$> tokens_of a) ++ inr (RIGHT, VNone) :: rest) eq_refl)
      as (pf & Hpf & Hrf).
    destruct (tokens_of_first a) as (tok & toks & Htok & Hkind).
    destruct (IHa SEXPR (SLEFT :: st :: ss) (VNode f :: VNone :: vs)
                (inr (RIGHT, VNone) :: rest) eq_refl)
      as (pa & Hpa & Hra).
    assert (Hmid :
      reaches (mkParser SLEFT (st :: ss) (VNone :: vs)
                 (mkTokenStream [(ATOM, VNode f)]
                    ((inr <$> tokens_of a) ++ inr (RIGHT, VNone) :: rest)))
              (mkParser st ss vs
                 (mkTokenStream [(ATOM, VNode (Apply f a))] rest))).
    { eapply reaches_step; [reflexivity|].
      eapply reaches_step; [reflexivity|].
      eapply (reaches_step _
                (mkParser SEXPR (SLEFT :: st :: ss) (VNode f :: VNone :: vs)
                   (mkTokenStream [tok]
                      ((inr <$> toks) ++ inr (RIGHT, VNone) :: rest)))).
      { rewrite Htok. destruct tok as [kind v]. simpl in Hkind.
        destruct Hkind as [-> | ->]; reflexivity. }
      eapply reaches_step.
      { rewrite parse_step_pushed by reflexivity.
        rewrite Htok in Hpa. exact Hpa. }
      eapply reaches_trans; [exact Hra|].
      parser_finish. }
    destruct st; try discriminate; eexists; (split; [reflexivity|]);
      (eapply reaches_step; [exact Hpf|]);
      (eapply reaches_trans; [exact Hrf|]); exact Hmid.
  - cbn [tokens_of]. rewrite !fmap_app, <- !app_assoc. cbn [fmap list_fmap app].
    destruct (IHb SDOT (SSLASH_NAMES :: SSLASH :: SLEFT :: st :: ss)
                (VNone :: VNames [x] :: VNone :: VNone :: vs)
                (inr (RIGHT, VNone) :: rest) eq_refl)
      as (pb & Hpb & Hrb).
    destruct st; try discriminate; eexists; (split; [reflexivity|]);
      parser_rounds; (eapply reaches_step; [exact Hpb|]);
      (eapply reaches_trans; [exact Hrb|]);
      parser_finish.
Qed.

(** ** Multi-name lambdas *)

Lemma lambda_loop_app (l1 l2 : list string) (atom : Ast) :
  lambda_loop (l1 ++ l2) atom = lambda_loop l2 (lambda_loop l1 atom).
Proof. revert atom. induction l1 as [|n l1 IH]; intros atom; simpl; auto. Qed.

Lemma lambda_loop_rev (names : list string) (atom : Ast) :
  lambda_loop (rev names) atom = foldr Function atom names.
Proof.
  induction names as [|n names IH]; [reflexivity|].
  simpl. now rewrite lambda_loop_app, IH.
Qed.

(** Reading further names extends the list of names on the value stack. *)
Lemma names_run (xs : list string) :
  forall acc st0 ss0 vs0 (rest : token_gen),
    reaches
      (mkParser SSLASH_NAMES (SSLASH :: st0 :: ss0)
         (VNames acc :: VNone :: vs0)
         (mkTokenStream [] ((inr <$> name_tokens xs) ++ rest)))
      (mkParser SSLASH_NAMES (SSLASH :: st0 :: ss0)
         (VNames (rev xs ++ acc) :: VNone :: vs0)
         (mkTokenStream [] rest)).
Proof.
  induction xs as [|x xs IH]; intros acc st0 ss0 vs0 rest.
  - apply reaches_refl.
  - do 3 (eapply reaches_step; [reflexivity|]).
    simpl rev. rewrite <- app_assoc. apply (IH (x :: acc)).
Qed.

Lemma parse_loop_accepts (ps ps' : parser) (result : Ast) :
  reaches ps ps' -> parse_step ps' = inr (inr result) ->
  parse_loop ps = inr result.
Proof.
  intros Hr Hstep. rewrite (reaches_parse_loop _ _ Hr), parse_loop_round.
  now rewrite Hstep.
Qed.

Lemma lambda_tokens_parse (x : string) (xs : list string) (body : Ast) :
  SMParser_parse (inr <$> (lambda_tokens (x :: xs) body ++ [(END, VNone)]))
  = inr (foldr Function body (x :: xs)).
Proof.
  unfold SMParser_parse, lambda_tokens.
  rewrite !fmap_app, <- !app_assoc.
  destruct (atom_run body SDOT [SSLASH_NAMES; SSLASH; SBEGIN]
              [VNone; VNames (rev xs ++ [x]); VNone] [inr (END, VNone)] eq_refl)
    as (pb & Hpb & Hrb).
  eapply parse_loop_accepts.
  - do 4 (eapply reaches_step; [reflexivity|]).
    eapply reaches_trans; [apply names_run|].
    eapply reaches_step; [reflexivity|].
    eapply reaches_step; [exact Hpb|].
    eapply reaches_trans; [exact Hrb|].
    do 12 (eapply reaches_step; [reflexivity|]).
    apply reaches_refl.
  - rewrite <- (lambda_loop_rev (x :: xs) body). reflexivity.
Qed.

(** C7.  The tokens of a lambda with the names [x1 ... xn] (at least one)
    and any body parse to [Function x1 (... (Function xn body))]: nested
    functions of one name each, the last name innermost.  The loop of the
    reduction unwinds the list of names from its end.  For three names the
    result is [Function x (Function y (Function z body))], as for the text
    [\x y z. x]. *)
Theorem multi_name_lambda_nests :
  (forall x xs body,
     SMParser_parse (inr <$> (lambda_tokens (x :: xs) body ++ [(END, VNone)]))
     = inr (foldr Function body (x :: xs)))
  /\ (forall x y z body,
        SMParser_parse (inr <$> (lambda_tokens [x; y; z] body ++ [(END, VNone)]))
        = inr (Function x (Function y (Function z body))))
  /\ (forall names atom, lambda_loop (rev names) atom = foldr Function atom names)
  /\ tokenize "\x y z. x"
     = inr <$> (lambda_tokens ["x"; "y"; "z"] (Name "x") ++ [(END, VNone)])
  /\ parse "\x y z. x"
     = inr (Function "x" (Function "y" (Function "z" (Name "x"))))
  /\ parse "\x y. x y"
     = inr (Function "x" (Function "y" (Apply (Name "x") (Name "y")))).
Proof.
  split; [exact lambda_tokens_parse|].
  split; [intros x y z body; apply (lambda_tokens_parse x [y; z] body)|].
  split; [exact lambda_loop_rev|].
  repeat split; reflexivity.
Qed.

(** * Further properties of the code *)

(** ** The traversal *)

(** X1.  The explicit-stack loop of [Expr.flatten] yields the events of the
    tree in pre-order with the close markers, whatever work is still
    pending below the node on the [to_do] list: the events of the node come
    first, then those of the pending work. *)
Theorem flatten_is_the_recursive_traversal (e : Expr) (to_do : list todo) :
  flatten e = pieces_of e
  /\ flatten_loop (PROCESS e :: to_do) = pieces_of e ++ flatten_loop to_do.
Proof. split; [apply flatten_pieces_of | apply flatten_loop_process]. Qed.

(** ** When [bitstring] returns *)

Lemma bitstring_loop_result (e : Expr) :
  forall scope (bindings : gmap nat Z) bits rest,
    (forall x, x ∈ scope <-> is_Some (bindings !! x)) ->
    (well_scoped scope e
     /\ exists bits',
          for_each bitstring_body (bindings, bits) (pieces_of e ++ rest)
          = for_each bitstring_body (bindings, bits') rest)
    \/ (~ well_scoped scope e
        /\ (for_each bitstring_body (bindings, bits) (pieces_of e ++ rest)
              = inl KeyError
            \/ for_each bitstring_body (bindings, bits) (pieces_of e ++ rest)
               = inl AssertionError)).
Proof.
  induction e as [f IHf a IHa | p b IHb | p]; intros scope bindings bits rest Hdom.
  - cbn [pieces_of well_scoped]. rewrite <- !app_comm_cons, <- !app_assoc.
    cbn [for_each bitstring_body bind_exn].
    destruct (IHf scope bindings (bits ++ ["01"])
                (pieces_of a ++ [CLOSE_APPLY] ++ rest) Hdom)
      as [[Hf [bits1 Hrun1]] | [Hf Herr]].
    + rewrite Hrun1.
      destruct (IHa scope bindings bits1 ([CLOSE_APPLY] ++ rest) Hdom)
        as [[Ha [bits2 Hrun2]] | [Ha Herr]].
      * left. split; [split; assumption|]. exists bits2. rewrite Hrun2.
        reflexivity.
      * right. split; [tauto | exact Herr].
    + right. split; [tauto | exact Herr].
  - cbn [pieces_of well_scoped]. rewrite <- !app_comm_cons, <- !app_assoc.
    cbn [for_each bitstring_body bind_exn].
    destruct (bindings !! pid p) as [lvl|] eqn:Hp.
    + right. split.
      * intros [Hn _]. apply Hn, Hdom. now rewrite Hp.
      * right. rewrite bool_decide_eq_false_2 by congruence. reflexivity.
    + rewrite bool_decide_eq_true_2 by reflexivity. cbn [assert bind_exn].
      assert (Hnew : pid p ∉ scope).
      { intros Hin. apply Hdom in Hin. rewrite Hp in Hin. now destruct Hin. }
      destruct (IHb (pid p :: scope) (<[pid p := len bindings]> bindings)
                  (bits ++ ["00"]) ([CLOSE_FUNCTION p] ++ rest))
        as [[Hb [bits1 Hrun1]] | [Hb Herr]].
      * intros x. rewrite elem_of_cons, lookup_insert.
        destruct (decide (pid p = x)) as [Heq|Hne].
        -- split; [eauto | now left].
        -- rewrite <- Hdom.
           split; [intros [?|?]; [congruence | assumption] | now right].
      * left. split; [split; assumption|]. exists bits1. rewrite Hrun1.
        cbn [app for_each bitstring_body]. unfold dict_get.
        rewrite lookup_insert_eq. cbn [bind_exn].
        rewrite delete_insert_id by exact Hp.
        rewrite Z.eqb_refl. reflexivity.
      * right. split; [tauto | exact Herr].
  - cbn [pieces_of well_scoped app for_each bitstring_body]. unfold dict_get.
    destruct (bindings !! pid p) as [lvl|] eqn:Hp; cbn [bind_exn].
    + left. split; [apply Hdom; now rewrite Hp | eauto].
    + right. split; [|now left].
      intros Hin. apply Hdom in Hin. rewrite Hp in Hin. now destruct Hin.
Qed.

Lemma bitstring_result (e : Expr) :
  (well_scoped [] e /\ bitstring e = inr (dB_bits (to_dB [] e)))
  \/ (~ well_scoped [] e
      /\ (bitstring e = inl KeyError \/ bitstring e = inl AssertionError)).
Proof.
  destruct (bitstring_loop_result e [] ∅ [] []) as [[Hws _] | [Hws Herr]].
  - intros x. rewrite lookup_empty. split.
    + intros Hx. now apply elem_of_nil in Hx.
    + intros [? ?]. discriminate.
  - left. split; [exact Hws | now apply bitstring_encode].
  - right. split; [exact Hws|]. unfold bitstring. rewrite flatten_pieces_of.
    rewrite app_nil_r in Herr. destruct Herr as [-> | ->]; auto.
Qed.

(** X2.  [bitstring] returns exactly for the expressions in which every
    reference has an enclosing owner and no function re-uses the Parameter
    of a function around it.  For the others it raises [KeyError] (a
    reference without owner) or [AssertionError] (a Parameter opened
    twice); the assertion on the depth, at the close of a function, never
    fails. *)
Theorem bitstring_returns_iff_well_scoped (e : Expr) :
  ((exists s, bitstring e = inr s) <-> well_scoped [] e)
  /\ (forall err, bitstring e = inl err ->
                  ~ well_scoped [] e
                  /\ (err = KeyError \/ err = AssertionError)).
Proof.
  destruct (bitstring_result e) as [[Hws Hrun] | [Hws Herr]].
  - split.
    + split; [auto | eauto].
    + intros err H. rewrite Hrun in H. discriminate.
  - split.
    + split; [|contradiction].
      intros [s Hs]. destruct Herr as [H|H]; rewrite H in Hs; discriminate.
    + intros err H. split; [exact Hws|].
      destruct Herr as [H'|H']; rewrite H' in H; injection H as <-; auto.
Qed.

Lemma bitstring_returns_iff_well_scoped_witness :
  let x := mkParameter 0 "x" in
  let y := mkParameter 1 "y" in
  ~ well_scoped [] (FunctionExpr x (ParameterReference y))
  /\ (KeyError = KeyError \/ KeyError = AssertionError).
Proof.
  intros x y.
  apply (proj2 (bitstring_returns_iff_well_scoped
                  (FunctionExpr x (ParameterReference y))) KeyError).
  vm_compute. reflexivity.
Defined.

(** ** Equality *)

Lemma eq_value (e1 e2 : Expr) :
  well_scoped [] e1 -> well_scoped [] e2 ->
  __eq__ e1 e2 = inr (bool_decide (to_dB [] e1 = to_dB [] e2)).
Proof.
  intros H1 H2. unfold __eq__.
  rewrite (bitstring_encode _ H1), (bitstring_encode _ H2). cbn [bind_exn].
  destruct (decide (to_dB [] e1 = to_dB [] e2)) as [Heq|Hne].
  - rewrite (bool_decide_eq_true_2 _ Heq).
    rewrite (proj2 (Expr_class_eqb_eq _ _) (to_dB_type _ _ _ _ Heq)).
    now rewrite Heq, String.eqb_refl.
  - rewrite (bool_decide_eq_false_2 _ Hne).
    destruct (Expr_class_eqb (type e1) (type e2)); [|reflexivity].
    f_equal. apply String.eqb_neq. intros Hs. now apply Hne, dB_bits_inj.
Qed.



(** X4.  The bit strings are self-delimiting: when the bit string of one
    expression is the beginning of the bit string of another, the two bit
    strings are the same, and the expressions are alpha-equivalent. *)
Theorem bitstring_is_prefix_free (e1 e2 : Expr) (s r : string) :
  bitstring e1 = inr s -> bitstring e2 = inr (s +:+ r) ->
  r = "" /\ alpha_equivalent e1 e2.
Proof.
  intros Hs1 Hs2.
  destruct (bitstring_result e1) as [[Hw1 Hb1] | [_ [He|He]]];
    [| rewrite He in Hs1; discriminate | rewrite He in Hs1; discriminate].
  destruct (bitstring_result e2) as [[Hw2 Hb2] | [_ [He|He]]];
    [| rewrite He in Hs2; discriminate | rewrite He in Hs2; discriminate].
  rewrite Hb1 in Hs1. injection Hs1 as <-.
  rewrite Hb2 in Hs2. injection Hs2 as Hs2.
  destruct (dB_bits_prefix_free (to_dB [] e1) (to_dB [] e2) r "") as [Ht Hr].
  { now rewrite append_empty_r. }
  split; [exact Hr|].
  unfold alpha_equivalent. now apply (to_dB_alpha e1 e2 [] Hw1 Hw2).
Qed.

Lemma bitstring_is_prefix_free_witness :
  let e1 := FunctionExpr (mkParameter 0 "x") (ParameterReference (mkParameter 0 "x")) in
  let e2 := FunctionExpr (mkParameter 1 "y") (ParameterReference (mkParameter 1 "y")) in
  "" = "" /\ alpha_equivalent e1 e2.
Proof.
  intros e1 e2.
  apply (bitstring_is_prefix_free e1 e2 "0010" ""); vm_compute; reflexivity.
Defined.

(** ** [unbind] alone *)

Lemma unbind_rec_well_scoped (e : Expr) :
  forall scope (replacements : gmap nat string) names a,
    (forall x, x ∈ scope <-> is_Some (replacements !! x)) ->
    unbind_rec replacements names e = inr a -> well_scoped scope e.
Proof.
  induction e as [f IHf a0 IHa | p b IHb | p];
    intros scope repl names a Hdom; cbn [unbind_rec well_scoped].
  - destruct (unbind_rec repl names f) as [?|nf] eqn:Hf; cbn [bind_exn];
      [discriminate|].
    destruct (unbind_rec repl names a0) as [?|na] eqn:Ha; cbn [bind_exn];
      [discriminate|].
    intros _. split; [eapply IHf | eapply IHa]; eassumption.
  - destruct (bool_decide (name_avoiding names (name p) ∉ names));
      cbn [assert bind_exn]; [|discriminate].
    case_bool_decide as Hp; cbn [assert bind_exn]; [|discriminate].
    destruct (unbind_rec _ _ b) as [?|nb] eqn:Hb; cbn [bind_exn]; [discriminate|].
    intros _. split.
    + intros Hin. apply Hdom in Hin. rewrite Hp in Hin. now destruct Hin.
    + eapply IHb; [|exact Hb]. intros x. rewrite elem_of_cons, lookup_insert.
      destruct (decide (pid p = x)) as [Heq|Hne].
      * split; [eauto | now left].
      * rewrite <- Hdom.
        split; [intros [?|?]; [congruence | assumption] | now right].
  - unfold dict_get. destruct (repl !! pid p) eqn:Hp; cbn [bind_exn];
      [|discriminate].
    intros _. apply Hdom. now rewrite Hp.
Qed.

(** X5.  [unbind] returns exactly for the expressions in which every
    reference has an enclosing owner and no function re-uses the Parameter
    of a function around it; otherwise it raises [KeyError] or
    [AssertionError].  In the raw tree it returns every name has a binder,
    and each name resolves, by the nearest binder of that name, to the
    binder of the Parameter it stands for: the invented names capture
    nothing. *)
Theorem unbind_returns_iff_well_scoped (e : Expr) :
  ((exists a, unbind e = inr a) <-> well_scoped [] e)
  /\ (forall a, unbind e = inr a ->
                Ast_closed [] a = true /\ Ast_to_dB [] a = to_dB [] e)
  /\ (forall err, unbind e = inl err -> err = KeyError \/ err = AssertionError).
Proof.
  assert (Hdom : forall x : nat,
             x ∈ @nil nat <-> is_Some ((∅ : gmap nat string) !! x)).
  { intros x. rewrite lookup_empty. split.
    - intros Hx. now apply elem_of_nil in Hx.
    - intros [? ?]. discriminate. }
  rewrite unbind_unbind_rec. split; [|split].
  - split.
    + intros [a Ha]. eapply unbind_rec_well_scoped; eassumption.
    + intros Hws.
      destruct (unbind_rec_resolves e [] (NoDup_nil_2) Hws) as (a & Ha & _).
      now exists a.
  - intros a Ha.
    pose proof (unbind_rec_well_scoped e [] ∅ ∅ a Hdom Ha) as Hws.
    destruct (unbind_rec_resolves e [] (NoDup_nil_2) Hws) as (a' & Ha' & Hcl & Hdb).
    cbn in Ha'. rewrite Ha in Ha'. injection Ha' as <-. auto.
  - apply unbind_rec_raises.
Qed.

Lemma unbind_returns_iff_well_scoped_witness :
  let x := mkParameter 0 "x" in
  let y := mkParameter 1 "x" in
  let e := FunctionExpr x (FunctionExpr y (ParameterReference x)) in
  let a := Function "x" (Function "x0" (Name "x")) in
  Ast_closed [] a = true /\ Ast_to_dB [] a = to_dB [] e.
Proof.
  intros x y e a.
  apply (proj1 (proj2 (unbind_returns_iff_well_scoped e)) a).
  vm_compute. reflexivity.
Defined.

(** ** [name_avoiding] *)

Lemma name_avoiding_from_first (names : gset string) (base : string) (k0 : nat) :
  exists k,
    k0 <= k
    /\ List.find (fun variant => bool_decide (variant ∉ names))
                 (variants_of_length base k)
       = Some (name_avoiding_from names base k0)
    /\ forall j, k0 <= j < k ->
                 Forall (fun variant => variant ∈ names) (variants_of_length base j).
Proof.
  funelim (name_avoiding_from names base k0).
  - exists suffix_length0. split; [lia|]. split; [assumption|]. intros j Hj. lia.
  - destruct H as (k & Hle & Hfind & Hbefore).
    exists k. split; [lia|]. split; [exact Hfind|].
    intros j Hj. destruct (decide (j = suffix_length0)) as [->|Hne].
    + apply Forall_forall. intros w Hw.
      match goal with
      | Hnone : List.find _ _ = None |- _ =>
          pose proof (find_none _ _ Hnone w (proj1 (list_elem_of_In _ _) Hw)) as Hb
      end.
      cbv beta in Hb. apply bool_decide_eq_false in Hb.
      destruct (decide (w ∈ names_to_avoid)); [assumption | contradiction].
    + apply Hbefore. lia.
Qed.

(** X6.  [name_avoiding] returns the first of the variants of [base_name],
    in the order in which [variants] yields them, that is not to be
    avoided: it is not in the set, it is the first such variant for its
    suffix length, and every variant with a shorter suffix is in the set.
    It returns [base_name] itself when that is not to be avoided. *)
Theorem name_avoiding_first_free_variant (names : gset string) (base : string) :
  name_avoiding names base ∉ names
  /\ (exists k,
        List.find (fun variant => bool_decide (variant ∉ names))
                  (variants_of_length base k)
        = Some (name_avoiding names base)
        /\ forall j, j < k ->
             Forall (fun variant => variant ∈ names) (variants_of_length base j))
  /\ (base ∉ names -> name_avoiding names base = base).
Proof.
  split; [apply name_avoiding_fresh|].
  destruct (name_avoiding_from_first names base 0) as (k & _ & Hfind & Hbefore).
  split.
  - exists k. split; [exact Hfind|]. intros j Hj. apply Hbefore. lia.
  - intros Hbase. destruct k as [|k].
    + cbn in Hfind. rewrite append_empty_r in Hfind.
      rewrite bool_decide_eq_true_2 in Hfind by exact Hbase.
      unfold name_avoiding. congruence.
    + specialize (Hbefore 0 ltac:(lia)). cbn in Hbefore.
      rewrite append_empty_r in Hbefore.
      apply Forall_cons in Hbefore. destruct Hbefore as [Hin _]. contradiction.
Qed.

Lemma name_avoiding_first_free_variant_witness :
  name_avoiding {[ "y" ]} "x" = "x".
Proof.
  apply (proj2 (proj2 (name_avoiding_first_free_variant {[ "y" ]} "x"))).
  intros Hin. apply elem_of_singleton in Hin. discriminate.
Defined.

(** ** The expression that [bind] returns *)

Lemma well_scoped_scoped (e : Expr) :
  forall scope, well_scoped scope e -> scoped scope e = true.
Proof.
  induction e as [f IHf a IHa | p b IHb | p]; intros scope; cbn.
  - intros [Hf Ha]. now rewrite (IHf _ Hf), (IHa _ Ha).
  - intros [_ Hb]. now apply IHb.
  - intros Hp. now apply bool_decide_eq_true.
Qed.

Lemma bind_rec_binders (a : Ast) :
  forall bindings next e next',
    bind_rec bindings a next = inr (e, next') ->
    pid <$> binders e = seq next (length (Ast_binders a))
    /\ name <$> binders e = Ast_binders a
    /\ next' = next + length (Ast_binders a).
Proof.
  induction a as [x | f IHf a IHa | x b IHb]; intros bindings next e next';
    cbn [bind_rec Ast_binders].
  - destruct (lookup bindings x); cbn [bind_exn]; [discriminate|].
    intros [= <- <-]. cbn. repeat split; lia.
  - destruct (bind_rec bindings f next) as [?|[ef n1]] eqn:Hf; cbn [bind_exn];
      [discriminate|].
    destruct (bind_rec bindings a n1) as [?|[ea n2]] eqn:Ha; cbn [bind_exn];
      [discriminate|].
    intros [= <- <-].
    destruct (IHf _ _ _ _ Hf) as (Hpf & Hnf & ->).
    destruct (IHa _ _ _ _ Ha) as (Hpa & Hna & ->).
    cbn [binders]. rewrite !fmap_app, Hpf, Hpa, Hnf, Hna, length_app, seq_app.
    repeat split; lia.
  - cbn [new_Parameter].
    destruct (bind_rec _ b (S next)) as [?|[eb n1]] eqn:Hb; cbn [bind_exn];
      [discriminate|].
    intros [= <- <-]. destruct (IHb _ _ _ _ Hb) as (Hpb & Hnb & ->).
    cbn [binders]. rewrite !fmap_cons, Hpb, Hnb. cbn. repeat split; f_equal; lia.
Qed.

(** X7.  The expression that [bind] returns is well-formed: every reference
    has an enclosing owner, and the parameters of its functions are
    pairwise distinct.  They are the Parameters allocated by this call, one
    for each function of the raw tree, in the order of the tree and with
    the names bound there. *)
Theorem bind_returns_well_formed (ast : Ast) (next : nat) (e : Expr) (next' : nat) :
  bind ast next = inr (e, next') ->
  well_formed e = true
  /\ pid <$> binders e = seq next (length (Ast_binders ast))
  /\ name <$> binders e = Ast_binders ast
  /\ next' = next + length (Ast_binders ast)
  /\ allocated next' e.
Proof.
  rewrite bind_bind_rec. intros Hb.
  destruct (bind_rec_binders ast [] next e next' Hb) as (Hp & Hn & Hnext).
  destruct (Ast_closed [] ast) eqn:Hcl.
  - destruct (bind_rec_closed ast [] next Hcl (NoDup_nil_2) (Forall_nil_2 _))
      as (e0 & n0 & Hb0 & _ & Hws & _ & Hpar & _).
    rewrite Hb in Hb0. injection Hb0 as <- <-.
    split; [|auto]. unfold well_formed.
    rewrite (well_scoped_scoped e [] Hws). cbn [andb].
    apply bool_decide_eq_true. rewrite Hp. apply NoDup_seq.
  - rewrite (bind_rec_unbound ast [] next Hcl) in Hb. discriminate.
Qed.

Lemma bind_returns_well_formed_witness :
  let ast := Function "x" (Apply (Function "y" (Name "x")) (Name "x")) in
  let x := mkParameter 3 "x" in
  let y := mkParameter 4 "y" in
  let e := FunctionExpr x (ApplyExpr (FunctionExpr y (ParameterReference x))
                                     (ParameterReference x)) in
  well_formed e = true
  /\ pid <$> binders e = seq 3 (length (Ast_binders ast))
  /\ name <$> binders e = Ast_binders ast
  /\ 5 = 3 + length (Ast_binders ast)
  /\ allocated 5 e.
Proof.
  intros ast x y e. apply (bind_returns_well_formed ast 3 e 5). reflexivity.
Defined.

(** ** [unbind] after [bind] *)

(** X8.  For a raw tree in which every name has a binder, [bind] returns an
    expression, [unbind] of it returns a raw tree, and the two raw trees
    have the same binding structure: the same shape, each name resolved to
    the same binder.  The names themselves may differ. *)
Theorem unbind_bind_keeps_binding_structure (ast : Ast) (next : nat) :
  Ast_closed [] ast = true ->
  exists e next' ast',
    bind ast next = inr (e, next')
    /\ unbind e = inr ast'
    /\ Ast_closed [] ast' = true
    /\ Ast_to_dB [] ast' = Ast_to_dB [] ast.
Proof.
  intros Hcl.
  destruct (bind_rec_closed ast [] next Hcl (NoDup_nil_2) (Forall_nil_2 _))
    as (e & next' & Hb & _ & Hws & Hdb & _).
  destruct (unbind_rec_resolves e [] (NoDup_nil_2) Hws) as (ast' & Hu & Hcl' & Hdb').
  exists e, next', ast'. rewrite bind_bind_rec, unbind_unbind_rec.
  split; [exact Hb|]. split; [exact Hu|]. split; [exact Hcl'|].
  cbn in Hdb, Hdb'. congruence.
Qed.

Lemma unbind_bind_keeps_binding_structure_witness :
  let ast := Function "x" (Function "x" (Name "x")) in
  exists e next' ast',
    bind ast 0 = inr (e, next')
    /\ unbind e = inr ast'
    /\ Ast_closed [] ast' = true
    /\ Ast_to_dB [] ast' = Ast_to_dB [] ast.
Proof.
  intros ast. apply (unbind_bind_keeps_binding_structure ast 0). reflexivity.
Defined.

Lemma name_avoiding_free (names : gset string) (base : string) :
  base ∉ names -> name_avoiding names base = base.
Proof.
  intros Hbase.
  destruct (name_avoiding_from_first names base 0) as (k & _ & Hfind & Hbefore).
  destruct k as [|k].
  - cbn in Hfind. rewrite append_empty_r in Hfind.
    rewrite bool_decide_eq_true_2 in Hfind by exact Hbase.
    unfold name_avoiding. congruence.
  - specialize (Hbefore 0 ltac:(lia)). cbn in Hbefore.
    rewrite append_empty_r in Hbefore.
    apply Forall_cons in Hbefore. destruct Hbefore as [Hin _]. contradiction.
Qed.

Lemma bound_name_lookup (bindings : list (string * Param)) (x : string) (q : Param) :
  NoDup (pid <$> bindings.*2) ->
  lookup bindings x = inr q ->
  (list_to_map ((fun b => (pid b.2, b.1)) <$> bindings) : gmap nat string)
    !! pid q = Some x.
Proof.
  induction bindings as [|[n1 q1] bindings IH]; cbn [lookup]; [discriminate|].
  intros Hnd Hq. cbn in Hnd. apply NoDup_cons in Hnd. destruct Hnd as [Hq1 Hnd].
  cbn [fmap list_fmap list_to_map foldr fst snd].
  destruct (String.eqb_spec n1 x) as [->|Hne].
  - injection Hq as ->. apply lookup_insert_eq.
  - assert (Hin : x ∈ bindings.*1).
    { destruct (decide (x ∈ bindings.*1)) as [|Hn]; [assumption|].
      rewrite (lookup_missing _ _ Hn) in Hq. discriminate. }
    destruct (lookup_returns _ _ Hin) as (q0 & Hq0 & Hin0).
    rewrite Hq0 in Hq. injection Hq as ->.
    rewrite lookup_insert_ne.
    + apply IH; assumption.
    + intros Heq. apply Hq1. cbn. rewrite Heq.
      apply list_elem_of_fmap. now exists q.
Qed.

Lemma unbind_bind_rec (a : Ast) :
  forall bindings next,
    Ast_unshadowed bindings.*1 a = true ->
    NoDup (pid <$> bindings.*2) ->
    Forall (fun q => pid q < next) bindings.*2 ->
    exists e next',
      bind_rec bindings a next = inr (e, next')
      /\ next <= next'
      /\ unbind_rec (list_to_map ((fun b => (pid b.2, b.1)) <$> bindings))
                    (list_to_set bindings.*1) e
         = inr a.
Proof.
  induction a as [x | f IHf a IHa | x b IHb]; intros bindings next Hun Hnd Hlt;
    cbn [Ast_unshadowed] in Hun.
  - apply bool_decide_eq_true in Hun.
    destruct (lookup_returns _ _ Hun) as (q & Hq & _).
    exists (ParameterReference q), next. cbn [bind_rec unbind_rec].
    rewrite Hq. cbn [bind_exn]. split; [reflexivity|]. split; [lia|].
    unfold dict_get. now rewrite (bound_name_lookup bindings x q Hnd Hq).
  - apply andb_true_iff in Hun. destruct Hun as [Hf Ha].
    destruct (IHf bindings next Hf Hnd Hlt) as (ef & n1 & Hbf & Hn1 & Huf).
    assert (Hlt1 : Forall (fun q => pid q < n1) bindings.*2).
    { eapply Forall_impl; [exact Hlt | cbn; intros; lia]. }
    destruct (IHa bindings n1 Ha Hnd Hlt1) as (ea & n2 & Hba & Hn2 & Hua).
    exists (ApplyExpr ef ea), n2. cbn [bind_rec unbind_rec].
    rewrite Hbf. cbn [bind_exn]. rewrite Hba. cbn [bind_exn].
    rewrite Huf. cbn [bind_exn]. rewrite Hua. cbn [bind_exn].
    split; [reflexivity|]. split; [lia | reflexivity].
  - apply andb_true_iff in Hun. destruct Hun as [Hx Hb].
    apply bool_decide_eq_true in Hx.
    set (q := mkParameter next x).
    destruct (IHb ((x, q) :: bindings) (S next)) as (eb & n1 & Hbb & Hn1 & Hub).
    + exact Hb.
    + cbn. constructor; [|exact Hnd].
      intros Hin. apply list_elem_of_fmap in Hin. destruct Hin as (q' & Heq & Hin).
      rewrite Forall_forall in Hlt. specialize (Hlt _ Hin). lia.
    + cbn. constructor; [cbn; lia|].
      eapply Forall_impl; [exact Hlt | cbn; intros; lia].
    + exists (FunctionExpr q eb), n1. cbn [bind_rec new_Parameter unbind_rec].
      fold q. rewrite Hbb. cbn [bind_exn]. split; [reflexivity|].
      split; [lia|].
      assert (Hfree : x ∉ (list_to_set bindings.*1 : gset string))
        by now rewrite elem_of_list_to_set.
      change (name q) with x. rewrite (name_avoiding_free _ _ Hfree).
      rewrite (bool_decide_eq_true_2 _ Hfree). cbn [assert bind_exn].
      rewrite bool_decide_eq_true_2.
      * cbn [assert bind_exn].
        change (unbind_rec _ _ eb) with
          (unbind_rec
             (list_to_map ((fun b => (pid b.2, b.1)) <$> (x, q) :: bindings))
             (list_to_set ((x, q) :: bindings).*1) eb).
        rewrite Hub. reflexivity.
      * apply not_elem_of_list_to_map_1. rewrite <- list_fmap_compose.
        intros Hin. apply list_elem_of_fmap in Hin.
        destruct Hin as ([n' q'] & Heq & Hin). cbn in Heq.
        rewrite Forall_forall in Hlt.
        assert (Hq' : q' ∈ bindings.*2)
          by (apply list_elem_of_fmap; now exists (n', q')).
        specialize (Hlt _ Hq'). lia.
Qed.

(** X9.  For a raw tree in which every name has a binder and no function
    binds a name already bound around it, [unbind] undoes [bind]: it returns
    the raw tree itself. *)
Theorem unbind_bind_round_trip (ast : Ast) (next : nat) :
  Ast_unshadowed [] ast = true ->
  exists e next', bind ast next = inr (e, next') /\ unbind e = inr ast.
Proof.
  intros Hun.
  destruct (unbind_bind_rec ast [] next Hun (NoDup_nil_2) (Forall_nil_2 _))
    as (e & next' & Hb & _ & Hu).
  exists e, next'. rewrite bind_bind_rec, unbind_unbind_rec. auto.
Qed.

Lemma unbind_bind_round_trip_witness :
  let ast := Function "f" (Function "x" (Apply (Name "f") (Name "x"))) in
  exists e next', bind ast 0 = inr (e, next') /\ unbind e = inr ast.
Proof.
  intros ast. apply (unbind_bind_round_trip ast 0). reflexivity.
Defined.

(** ** What [unbind] returns *)

Lemma unbind_rec_unshadowed (e : Expr) :
  forall (replacements : gmap nat string) (names : gset string)
         (scope : list string) (a : Ast),
    (forall x, x ∈ scope <-> x ∈ names) ->
    (forall k v, replacements !! k = Some v -> v ∈ names) ->
    unbind_rec replacements names e = inr a ->
    Ast_unshadowed scope a = true.
Proof.
  induction e as [f IHf a0 IHa | p b IHb | p];
    intros replacements names scope a Hscope Hrep; cbn [unbind_rec].
  - destruct (unbind_rec replacements names f) as [?|af] eqn:Hf; cbn [bind_exn];
      [discriminate|].
    destruct (unbind_rec replacements names a0) as [?|aa] eqn:Ha; cbn [bind_exn];
      [discriminate|].
    intros [= <-]. cbn [Ast_unshadowed].
    rewrite (IHf _ _ _ _ Hscope Hrep Hf), (IHa _ _ _ _ Hscope Hrep Ha).
    reflexivity.
  - set (x := name_avoiding names (name p)).
    destruct (decide (x ∉ names)) as [Hx|Hx].
    2: { rewrite (bool_decide_eq_false_2 _ Hx). discriminate. }
    rewrite (bool_decide_eq_true_2 _ Hx). cbn [assert bind_exn].
    destruct (bool_decide (replacements !! pid p = None)); cbn [assert bind_exn];
      [|discriminate].
    destruct (unbind_rec _ _ b) as [?|ab] eqn:Hb; cbn [bind_exn]; [discriminate|].
    intros [= <-]. cbn [Ast_unshadowed].
    rewrite bool_decide_eq_true_2 by (rewrite Hscope; exact Hx).
    apply (IHb _ _ (x :: scope) _) in Hb; [exact Hb| |].
    + intros y. rewrite elem_of_cons, elem_of_union, elem_of_singleton, Hscope.
      reflexivity.
    + intros k v. destruct (decide (k = pid p)) as [->|Hne].
      * rewrite lookup_insert_eq. intros [= <-]. apply elem_of_union_l.
        now apply elem_of_singleton.
      * rewrite lookup_insert_ne by congruence. intros Hk.
        apply elem_of_union_r. eauto.
  - unfold dict_get. destruct (replacements !! pid p) as [x|] eqn:Hp;
      cbn [bind_exn]; [|discriminate].
    intros [= <-]. cbn [Ast_unshadowed]. apply bool_decide_eq_true.
    apply Hscope. eauto.
Qed.

(** X10.  A raw tree returned by [unbind] has a binder for every name, and
    none of its functions binds a name that a function around it binds: the
    names chosen avoid the names in scope.  Such a tree is reproduced
    exactly by [bind] followed by [unbind]. *)
Theorem unbind_returns_unshadowed_tree (e : Expr) (ast : Ast) :
  unbind e = inr ast ->
  Ast_unshadowed [] ast = true
  /\ Ast_closed [] ast = true
  /\ forall next, exists e' next',
       bind ast next = inr (e', next') /\ unbind e' = inr ast.
Proof.
  rewrite unbind_unbind_rec. intros Hu.
  assert (Hun : Ast_unshadowed [] ast = true).
  { apply (unbind_rec_unshadowed e ∅ ∅ [] ast); [| |exact Hu].
    - intros x. rewrite elem_of_nil, elem_of_empty. reflexivity.
    - intros k v. rewrite lookup_empty. discriminate. }
  split; [exact Hun|]. split.
  - clear Hu. revert Hun. generalize (@nil string).
    induction ast as [x | f IHf a IHa | x b IHb]; intros scope;
      cbn [Ast_unshadowed Ast_closed].
    + auto.
    + rewrite !andb_true_iff. intros [Hf Ha]. auto.
    + rewrite andb_true_iff. intros [_ Hb]. auto.
  - intros next.
    destruct (unbind_bind_rec ast [] next Hun (NoDup_nil_2) (Forall_nil_2 _))
      as (e' & next' & Hb & _ & Hu').
    exists e', next'. rewrite bind_bind_rec, unbind_unbind_rec. auto.
Qed.

Lemma unbind_returns_unshadowed_tree_witness :
  let x := mkParameter 0 "x" in
  let y := mkParameter 1 "x" in
  let e := FunctionExpr x (FunctionExpr y
             (ApplyExpr (ParameterReference x) (ParameterReference y))) in
  let ast := Function "x" (Function "x0"
               (Apply (Name "x") (Name "x0"))) in
  Ast_unshadowed [] ast = true
  /\ Ast_closed [] ast = true
  /\ forall next, exists e' next',
       bind ast next = inr (e', next') /\ unbind e' = inr ast.
Proof.
  intros x y e ast. apply (unbind_returns_unshadowed_tree e ast).
  vm_compute. reflexivity.
Defined.

(** ** Equality of raw trees *)

(** X11.  The [__eq__] methods of the node classes [Name], [Apply] and
    [Function] together decide structural equality of raw trees: two trees
    compare equal exactly when they are the same tree. *)
Theorem Ast_eq_is_structural_equality (a b : Ast) :
  Ast_eqb a b = true <-> a = b.
Proof.
  revert b. induction a as [x | f IHf a IHa | x b0 IHb]; intros [y | g c | y c];
    cbn [Ast_eqb]; try (split; [discriminate | congruence]).
  - rewrite String.eqb_eq. split; congruence.
  - rewrite andb_true_iff, IHf, IHa. split; [intros [-> ->]; reflexivity|].
    intros [= -> ->]. auto.
  - rewrite andb_true_iff, String.eqb_eq, IHb. split; [intros [-> ->]; reflexivity|].
    intros [= -> ->]. auto.
Qed.

(** ** The tokenizer on accepted input *)

Lemma identifier_character_class (c : ascii) :
  IDENTIFIER_CHARACTERS c = true ->
  WHITESPACE c = false /\ SINGLE_TOKEN_CHARS c = None.
Proof.
  destruct c as [[] [] [] [] [] [] [] []]; vm_compute; intros H;
    first [discriminate H | split; reflexivity].
Qed.

Lemma single_token_class (c : ascii) (kind : token_type) :
  SINGLE_TOKEN_CHARS c = Some kind ->
  WHITESPACE c = false /\ token_text (kind, VNone) = String c ""
  /\ lexeme (kind, VNone) = true.
Proof.
  destruct c as [[] [] [] [] [] [] [] []]; vm_compute; intros H;
    first [discriminate H
          | injection H as <-; repeat split; reflexivity].
Qed.

Lemma identifier_characters_app (s1 s2 : string) :
  identifier_characters (s1 +:+ s2)
  = identifier_characters s1 && identifier_characters s2.
Proof.
  induction s1 as [|c s1 IH]; simpl; [reflexivity|].
  now rewrite IH, andb_assoc.
Qed.

Lemma identifier_snoc (s : string) (c : ascii) :
  identifier_characters s = true -> IDENTIFIER_CHARACTERS c = true ->
  identifier (s +:+ String c "") = true.
Proof.
  intros Hs Hc.
  assert (H : identifier_characters (s +:+ String c "") = true).
  { rewrite identifier_characters_app, Hs. simpl. now rewrite Hc. }
  destruct s; simpl in *; exact H.
Qed.

Lemma identifier_identifier_characters (s : string) :
  identifier s = true -> identifier_characters s = true.
Proof. destruct s; [discriminate | auto]. Qed.

Lemma tokenize_loop_accepted (chars : string) :
  forall parsing_id id_chars,
    all_accepted chars = true ->
    (parsing_id = true -> identifier id_chars = true) ->
    exists toks : list token,
      tokenize_loop chars parsing_id id_chars
      = inr <$> (toks ++ [(END, VNone)])
      /\ Forall (fun tok => lexeme tok = true) toks
      /\ join (token_text <$> toks)
         = (if parsing_id then id_chars else "") +:+ strip_whitespace chars.
Proof.
  induction chars as [|c chars IH]; intros parsing_id id_chars Hacc Hid;
    cbn [tokenize_loop strip_whitespace].
  - destruct parsing_id; cbn [flush_id].
    + exists [(ID, VStr id_chars)]. split; [reflexivity|]. split.
      * repeat constructor. cbn. now apply Hid.
      * cbn. now rewrite !append_empty_r.
    + exists []. split; [reflexivity|]. split; [constructor | reflexivity].
  - cbn [all_accepted] in Hacc. apply andb_true_iff in Hacc.
    destruct Hacc as [Hc Hacc]. unfold accepted_character in Hc.
    destruct (IDENTIFIER_CHARACTERS c) eqn:Hi.
    + destruct (identifier_character_class c Hi) as [Hw _]. rewrite Hw.
      destruct (IH true ((if parsing_id then id_chars else "") +:+ String c "")
                  Hacc) as (toks & Hrun & Hlex & Htext).
      { intros _. apply identifier_snoc; [|exact Hi].
        destruct parsing_id; [|reflexivity].
        now apply identifier_identifier_characters, Hid. }
      exists toks. split; [exact Hrun|]. split; [exact Hlex|].
      rewrite Htext, append_assoc. reflexivity.
    + cbn [orb] in Hc.
      destruct (IH false id_chars Hacc) as (toks & Hrun & Hlex & Htext);
        [discriminate|]. cbn [String.append] in Htext.
      assert (Hflush : forall rest : list token,
        exists toks' : list token,
          flush_id parsing_id id_chars ++ (inr <$> rest) = inr <$> (toks' ++ rest)
          /\ Forall (fun tok => lexeme tok = true) toks'
          /\ join (token_text <$> toks') = (if parsing_id then id_chars else "")).
      { intros rest. destruct parsing_id; cbn [flush_id].
        - exists [(ID, VStr id_chars)]. split; [reflexivity|]. split.
          + repeat constructor. cbn. now apply Hid.
          + cbn. now rewrite append_empty_r.
        - exists []. split; [reflexivity|]. split; [constructor | reflexivity]. }
      destruct (SINGLE_TOKEN_CHARS c) as [kind|] eqn:Hs.
      * destruct (single_token_class c kind Hs) as (Hw & Hkind & Hlk). rewrite Hw.
        rewrite Hrun.
        destruct (Hflush ((kind, VNone) :: toks ++ [(END, VNone)]))
          as (toks' & Hfl & Hlex' & Htext').
        exists (toks' ++ (kind, VNone) :: toks). split.
        { rewrite <- app_assoc. exact Hfl. }
        split.
        { apply Forall_app. split; [exact Hlex'|]. constructor; assumption. }
        rewrite fmap_app, join_app, Htext', fmap_cons.
        change (join (?x :: ?l)) with (x +:+ join l).
        rewrite Hkind, Htext. reflexivity.
      * cbn [orb] in Hc. rewrite Hc, Hrun.
        destruct (Hflush (toks ++ [(END, VNone)])) as (toks' & Hfl & Hlex' & Htext').
        exists (toks' ++ toks). split.
        { rewrite <- app_assoc. exact Hfl. }
        split; [apply Forall_app; auto|].
        rewrite fmap_app, join_app, Htext', Htext. reflexivity.
Qed.

(** X12.  On a string of accepted characters only (identifier characters,
    the four single-character tokens, space and newline) the tokenizer
    raises nothing: it yields tokens of the kinds ID, LEFT, RIGHT, SLASH and
    DOT, each ID with a non-empty text of identifier characters, and then
    END, once, as its last item.  The texts of the tokens, put together,
    are the string without its whitespace. *)
Theorem tokenize_accepted_input (s : string) :
  all_accepted s = true ->
  exists toks : list token,
    tokenize s = inr <$> (toks ++ [(END, VNone)])
    /\ Forall (fun tok => lexeme tok = true) toks
    /\ join (token_text <$> toks) = strip_whitespace s.
Proof.
  intros Hacc.
  destruct (tokenize_loop_accepted s false "" Hacc) as (toks & Hrun & Hlex & Htext);
    [discriminate|].
  exists toks. auto.
Qed.

Lemma tokenize_accepted_input_witness :
  exists toks : list token,
    tokenize "\f x.
  f (f x)" = inr <$> (toks ++ [(END, VNone)])
    /\ Forall (fun tok => lexeme tok = true) toks
    /\ join (token_text <$> toks) = strip_whitespace "\f x.
  f (f x)".
Proof. apply tokenize_accepted_input. reflexivity. Defined.

(** ** The parser accepts the sentences of its grammar *)

Lemma runs_one (ps ps' : parser) : parse_step ps = inr (inl ps') -> runs ps ps'.
Proof. intros H. exists ps'. split; [exact H | apply reaches_refl]. Qed.

Lemma runs_reaches (ps ps' : parser) : runs ps ps' -> reaches ps ps'.
Proof. intros (ps1 & H & Hr). eapply reaches_step; eassumption. Qed.

Lemma runs_then_reaches (ps1 ps2 ps3 : parser) :
  runs ps1 ps2 -> reaches ps2 ps3 -> runs ps1 ps3.
Proof.
  intros (p & H & Hr) Hr'. exists p. split; [exact H|].
  eapply reaches_trans; eassumption.
Qed.

Lemma runs_trans (ps1 ps2 ps3 : parser) :
  runs ps1 ps2 -> runs ps2 ps3 -> runs ps1 ps3.
Proof. intros H1 H2. eapply runs_then_reaches; [exact H1 | now apply runs_reaches]. Qed.

Lemma runs_pushed (st : state) ss vs (tok : token) (t : token_gen) (ps' : parser) :
  shift_state st = true ->
  runs (mkParser st ss vs (mkTokenStream [] (inr tok :: t))) ps' ->
  runs (mkParser st ss vs (mkTokenStream [tok] t)) ps'.
Proof.
  intros Hst (p & H & Hr). exists p. split; [|exact Hr].
  now rewrite parse_step_pushed.
Qed.

Lemma derives_first (ph : phrase) (toks : list token) (a : Ast) :
  derives ph toks a ->
  exists kind v toks',
    toks = (kind, v) :: toks' /\ (kind = ID \/ kind = LEFT \/ kind = SLASH).
Proof.
  induction 1 as [x | toks a _ _ | x xs toks a _ _ | toks a _ IH
                 | tf f ta a _ IHf _ _ | toks a _ IH | toks a _ IH
                 | tf f ta a _ IHf _ _].
  - exists ID, (VStr x), []. auto.
  - exists LEFT, VNone, (toks ++ [(RIGHT, VNone)]). auto.
  - eexists SLASH, VNone, _. split; [reflexivity | auto].
  - exact IH.
  - destruct IHf as (k & v & t & -> & Hk). exists k, v, (t ++ ta). auto.
  - exact IH.
  - exact IH.
  - destruct IHf as (k & v & t & -> & Hk). exists k, v, (t ++ ta). auto.
Qed.

Ltac run_one := eapply runs_trans; [apply runs_one; reflexivity|].

Ltac run_to_end :=
  first [ apply runs_one; reflexivity | run_one; run_to_end ].

(** Reading the tokens of a phrase leaves the stacks as they were and
    pushes back the token of the phrase with its tree; the token that ends
    an expression has been looked at and is in the push-back slot. *)
Lemma derives_runs (ph : phrase) (toks : list token) (a : Ast) :
  derives ph toks a ->
  match ph with
  | PAtom =>
      forall st ss vs rest,
        expr_state st = true ->
        runs (mkParser st ss vs (mkTokenStream [] ((inr <$> toks) ++ rest)))
             (mkParser st ss vs (mkTokenStream [(ATOM, VNode a)] rest))
  | PLambda =>
      forall st ss vs tok rest,
        expr_state st = true -> closing tok = true ->
        runs (mkParser st ss vs
                (mkTokenStream [] ((inr <$> toks) ++ inr tok :: rest)))
             (mkParser st ss vs (mkTokenStream [(ATOM, VNode a); tok] rest))
  | PJuxta =>
      forall st ss vs rest,
        start_state st = true ->
        runs (mkParser st ss vs (mkTokenStream [] ((inr <$> toks) ++ rest)))
             (mkParser st ss vs (mkTokenStream [(EXPR, VNode a)] rest))
  | PExpr =>
      forall st ss vs tok rest,
        start_state st = true -> closing tok = true ->
        runs (mkParser st ss vs
                (mkTokenStream [] ((inr <$> toks) ++ inr tok :: rest)))
             (mkParser st ss vs (mkTokenStream [(COMPLETE, VNode a); tok] rest))
  end.
Proof.
  induction 1 as [x | toks a _ IH | x xs toks a _ IH | toks a _ IH
                 | tf f ta a _ IHf Ha IHa | toks a _ IH | toks a _ IH
                 | tf f ta a _ IHf Ha IHa].
  - intros st ss vs rest Hst.
    destruct st; try discriminate; run_to_end.
  - intros st ss vs rest Hst.
    rewrite !fmap_app, <- !app_assoc. cbn [fmap list_fmap app].
    eapply runs_trans.
    { apply runs_one.
      instantiate (1 := mkParser SLEFT (st :: ss) (VNone :: vs)
                          (mkTokenStream [] ((inr <$> toks)
                                             ++ inr (RIGHT, VNone) :: rest))).
      destruct st; try discriminate; reflexivity. }
    eapply runs_trans; [apply IH; reflexivity|].
    run_to_end.
  - intros st ss vs tok rest Hst Htok.
    rewrite <- (lambda_loop_rev (x :: xs) a). cbn [rev].
    change ([(SLASH, VNone)] ++ name_tokens (x :: xs) ++ [(DOT, VNone)] ++ toks)
      with ((SLASH, VNone) :: (ID, VStr x)
              :: name_tokens xs ++ (DOT, VNone) :: toks).
    rewrite !fmap_cons, fmap_app, fmap_cons, <- !app_comm_cons, <- app_assoc,
      <- app_comm_cons.
    eapply (runs_trans _
              (mkParser SSLASH_NAMES (SSLASH :: st :: ss)
                 (VNames (rev xs ++ [x]) :: VNone :: vs)
                 (mkTokenStream []
                    (inr (DOT, VNone) :: (inr <$> toks) ++ inr tok :: rest)))).
    { eapply runs_then_reaches; [|apply names_run].
      destruct st; try discriminate; run_to_end. }
    run_one. eapply runs_trans; [apply IH; [reflexivity | exact Htok]|].
    run_to_end.
  - intros st ss vs rest Hst.
    eapply runs_trans; [apply IH; destruct st; try discriminate; reflexivity|].
    destruct st; try discriminate; run_to_end.
  - intros st ss vs rest Hst. rewrite fmap_app, <- app_assoc.
    eapply runs_trans; [apply IHf; exact Hst|].
    destruct (derives_first _ _ _ Ha) as (k & v & ta' & -> & Hk).
    rewrite fmap_cons, <- app_comm_cons.
    eapply (runs_trans _
              (mkParser SEXPR (st :: ss) (VNode f :: vs)
                 (mkTokenStream [(k, v)] ((inr <$> ta') ++ rest)))).
    { apply runs_one.
      destruct st; try discriminate; destruct Hk as [-> | [-> | ->]]; reflexivity. }
    apply runs_pushed; [reflexivity|].
    rewrite app_comm_cons, <- fmap_cons.
    eapply runs_trans; [apply IHa; reflexivity|].
    run_to_end.
  - intros st ss vs [k v] rest Hst Htok.
    eapply runs_trans; [apply IH; exact Hst|].
    destruct st; try discriminate; destruct k; try discriminate; run_to_end.
  - intros st ss vs [k v] rest Hst Htok.
    eapply runs_trans;
      [apply IH; [destruct st; try discriminate; reflexivity | exact Htok]|].
    destruct st; try discriminate; destruct k; try discriminate; run_to_end.
  - intros st ss vs [k0 v0] rest Hst Htok. rewrite fmap_app, <- app_assoc.
    eapply runs_trans; [apply IHf; exact Hst|].
    destruct (derives_first _ _ _ Ha) as (k & v & ta' & -> & Hk).
    rewrite fmap_cons, <- app_comm_cons.
    eapply (runs_trans _
              (mkParser SEXPR (st :: ss) (VNode f :: vs)
                 (mkTokenStream [(k, v)]
                    ((inr <$> ta') ++ inr (k0, v0) :: rest)))).
    { apply runs_one.
      destruct st; try discriminate; destruct Hk as [-> | [-> | ->]]; reflexivity. }
    apply runs_pushed; [reflexivity|].
    rewrite app_comm_cons, <- fmap_cons.
    eapply runs_trans; [apply IHa; [reflexivity | exact Htok]|].
    destruct st; try discriminate; destruct k0; try discriminate; run_to_end.
Qed.

Lemma derives_accepted (toks : list token) (a : Ast) :
  derives PExpr toks a ->
  SMParser_parse (inr <$> (toks ++ [(END, VNone)])) = inr a.
Proof.
  intros Hd. unfold SMParser_parse. rewrite fmap_app. cbn [fmap list_fmap].
  eapply parse_loop_accepts.
  - eapply reaches_trans.
    + apply runs_reaches.
      apply (derives_runs PExpr toks a Hd SBEGIN [] [] (END, VNone) []);
        reflexivity.
    + parser_rounds. apply reaches_refl.
  - reflexivity.
Qed.

(** X13.  The parser accepts every sentence of its grammar, and returns
    the tree of the sentence: the tokens of an expression, followed by END,
    parse to the tree that the expression stands for.  Juxtaposition is
    application and associates to the left; parentheses group; a lambda
    with the names [x1 ... xn] is [Function x1 (... (Function xn body))],
    and its body reaches as far as the expression does. *)
Theorem parser_accepts_grammar (toks : list token) (a : Ast) :
  derives PExpr toks a ->
  SMParser_parse (inr <$> (toks ++ [(END, VNone)])) = inr a.
Proof. apply derives_accepted. Qed.

Lemma parser_accepts_grammar_witness :
  let f := (ID, VStr "f") in
  let x := (ID, VStr "x") in
  SMParser_parse
    (inr <$> ([(SLASH, VNone); f; x; (DOT, VNone); f;
               (LEFT, VNone); f; x; (RIGHT, VNone); x] ++ [(END, VNone)]))
  = inr (Function "f" (Function "x"
           (Apply (Apply (Name "f") (Apply (Name "f") (Name "x"))) (Name "x")))).
Proof.
  intros f x. apply parser_accepts_grammar.
  apply derives_last_lambda.
  apply (derives_lambda "f" ["x"]
           [f; (LEFT, VNone); f; x; (RIGHT, VNone); x]).
  apply derives_juxta.
  apply (derives_apply [f; (LEFT, VNone); f; x; (RIGHT, VNone)] _ [x]).
  - apply (derives_apply [f] _ [(LEFT, VNone); f; x; (RIGHT, VNone)]).
    + apply derives_atom, derives_name.
    + apply (derives_parentheses [f; x]).
      apply derives_juxta. apply (derives_apply [f] _ [x]).
      * apply derives_atom, derives_name.
      * apply derives_name.
  - apply derives_name.
Defined.

(** ** Parsing the text of a raw tree *)

Lemma tokenize_loop_identifier (x : string) :
  forall rest parsing_id id_chars,
    identifier x = true ->
    tokenize_loop (x +:+ rest) parsing_id id_chars
    = tokenize_loop rest true ((if parsing_id then id_chars else "") +:+ x).
Proof.
  induction x as [|c x IH]; intros rest parsing_id id_chars Hx; [discriminate|].
  cbn [identifier identifier_characters] in Hx. apply andb_true_iff in Hx.
  destruct Hx as [Hc Hx]. cbn [String.append tokenize_loop]. rewrite Hc.
  destruct x as [|c' x].
  - reflexivity.
  - rewrite IH by exact Hx. now rewrite append_assoc.
Qed.

Lemma tokenize_loop_flush (rest id_chars : string) :
  ends_identifier rest = true ->
  tokenize_loop rest true id_chars
  = inr (ID, VStr id_chars) :: tokenize_loop rest false id_chars.
Proof.
  destruct rest as [|c rest]; [reflexivity|].
  cbn [ends_identifier tokenize_loop]. intros Hc. apply negb_true_iff in Hc.
  now rewrite Hc.
Qed.

Lemma tokenize_loop_stale (rest : string) (id_chars id_chars' : string) :
  tokenize_loop rest false id_chars = tokenize_loop rest false id_chars'.
Proof.
  induction rest as [|c rest IH]; [reflexivity|]. cbn [tokenize_loop flush_id].
  destruct (IDENTIFIER_CHARACTERS c); [reflexivity|].
  destruct (SINGLE_TOKEN_CHARS c); [now rewrite IH|].
  destruct (WHITESPACE c); [now rewrite IH | reflexivity].
Qed.

Lemma tokenize_loop_name (x rest id_chars : string) :
  identifier x = true -> ends_identifier rest = true ->
  tokenize_loop (x +:+ rest) false id_chars
  = inr (ID, VStr x) :: tokenize_loop rest false id_chars.
Proof.
  intros Hx Hrest. rewrite tokenize_loop_identifier by exact Hx.
  cbn [String.append]. rewrite tokenize_loop_flush by exact Hrest.
  f_equal. apply tokenize_loop_stale.
Qed.

Lemma tokenize_loop_render (a : Ast) :
  forall rest id_chars,
    Ast_identifiers a = true -> ends_identifier rest = true ->
    tokenize_loop (render a +:+ rest) false id_chars
    = (inr <$> tokens_of a) ++ tokenize_loop rest false id_chars.
Proof.
  induction a as [x | f IHf a IHa | x b IHb]; intros rest id_chars Hid Hrest;
    cbn [Ast_identifiers] in Hid; cbn [render tokens_of].
  - now apply tokenize_loop_name.
  - apply andb_true_iff in Hid. destruct Hid as [Hf Ha].
    rewrite !append_assoc. cbn [String.append tokenize_loop].
    change (IDENTIFIER_CHARACTERS "(") with false.
    change (SINGLE_TOKEN_CHARS "(") with (Some LEFT). cbn [flush_id app].
    rewrite IHf by (exact Hf || reflexivity).
    rewrite fmap_cons, !fmap_app, <- app_comm_cons, <- !app_assoc.
    do 2 f_equal.
    cbn [String.append tokenize_loop].
    change (IDENTIFIER_CHARACTERS " ") with false.
    change (SINGLE_TOKEN_CHARS " ") with (@None token_type).
    change (WHITESPACE " ") with true. cbn [flush_id app].
    rewrite IHa by (exact Ha || reflexivity). reflexivity.
  - apply andb_true_iff in Hid. destruct Hid as [Hx Hb].
    rewrite !append_assoc. cbn [String.append tokenize_loop].
    change (IDENTIFIER_CHARACTERS "(") with false.
    change (SINGLE_TOKEN_CHARS "(") with (Some LEFT). cbn [flush_id app].
    change (IDENTIFIER_CHARACTERS "\") with false.
    change (SINGLE_TOKEN_CHARS "\") with (Some SLASH). cbn [flush_id app].
    rewrite tokenize_loop_name by (exact Hx || reflexivity).
    cbn [String.append tokenize_loop].
    change (IDENTIFIER_CHARACTERS ".") with false.
    change (SINGLE_TOKEN_CHARS ".") with (Some DOT). cbn [flush_id app].
    rewrite IHb by (exact Hb || reflexivity).
    rewrite !fmap_cons, !fmap_app, <- !app_comm_cons, <- !app_assoc.
    do 5 f_equal.
Qed.

(** X14.  [parse] reads back the text of a raw tree: for a raw tree whose
    names are identifiers, the tokens of its fully parenthesised text are
    those of the tree followed by END, and [parse] of the text returns the
    tree.  So every raw tree over identifiers is returned by [parse]. *)
Theorem parse_reads_back_rendered_tree (a : Ast) :
  Ast_identifiers a = true ->
  tokenize (render a) = inr <$> (tokens_of a ++ [(END, VNone)])
  /\ parse (render a) = inr a.
Proof.
  intros Hid.
  assert (Htok : tokenize (render a) = inr <$> (tokens_of a ++ [(END, VNone)])).
  { unfold tokenize. rewrite <- (append_empty_r (render a)).
    rewrite tokenize_loop_render by (exact Hid || reflexivity).
    now rewrite fmap_app. }
  split; [exact Htok|]. unfold parse. rewrite Htok, fmap_app.
  unfold SMParser_parse.
  destruct (atom_run a SBEGIN [] [] (inr <$> [(END, VNone)]) eq_refl)
    as (ps1 & Hstep & Hrun).
  eapply parse_loop_accepts.
  - eapply reaches_step; [exact Hstep|].
    eapply reaches_trans; [exact Hrun|].
    parser_rounds. apply reaches_refl.
  - reflexivity.
Qed.

Lemma parse_reads_back_rendered_tree_witness :
  let a := Function "f" (Apply (Name "f") (Function "x" (Name "x"))) in
  tokenize (render a) = inr <$> (tokens_of a ++ [(END, VNone)])
  /\ parse (render a) = inr a.
Proof. intros a. apply parse_reads_back_rendered_tree. reflexivity. Defined.

(** ** Application is beta-reduction *)

Lemma dB_lift_closed (t : dB) :
  forall c, dB_closed c t -> dB_lift c t = t.
Proof.
  induction t as [i | f IHf a IHa | b IHb]; intros c; cbn [dB_closed dB_lift].
  - intros Hi. destruct (Nat.leb_spec c i); [lia | reflexivity].
  - intros [Hf Ha]. now rewrite IHf, IHa.
  - intros Hb. now rewrite IHb.
Qed.

Lemma to_dB_closed (e : Expr) :
  forall scope, well_scoped scope e -> dB_closed (length scope) (to_dB scope e).
Proof.
  induction e as [f IHf a IHa | p b IHb | p]; intros scope;
    cbn [well_scoped to_dB dB_closed].
  - intros [Hf Ha]. auto.
  - intros [_ Hb]. apply (IHb (pid p :: scope) Hb).
  - apply index_of_lt.
Qed.

Lemma index_of_app_l (x : nat) (scope extra : list nat) :
  x ∈ scope -> index_of x (scope ++ extra) = index_of x scope.
Proof.
  induction scope as [|y scope IH]; intros Hx; [now apply elem_of_nil in Hx|].
  cbn [app index_of]. destruct (decide (x = y)); [reflexivity|].
  apply elem_of_cons in Hx. destruct Hx as [?|Hx]; [contradiction|].
  now rewrite IH.
Qed.

Lemma index_of_app_r (x : nat) (scope : list nat) :
  x ∉ scope -> index_of x (scope ++ [x]) = length scope.
Proof.
  induction scope as [|y scope IH]; intros Hx; cbn [app index_of length].
  - destruct (decide (x = x)); [reflexivity | contradiction].
  - apply not_elem_of_cons in Hx. destruct Hx as [Hne Hx].
    destruct (decide (x = y)); [contradiction|]. now rewrite IH.
Qed.

Lemma to_dB_app (e : Expr) :
  forall scope extra,
    well_scoped scope e -> to_dB (scope ++ extra) e = to_dB scope e.
Proof.
  induction e as [f IHf a IHa | p b IHb | p]; intros scope extra;
    cbn [well_scoped to_dB].
  - intros [Hf Ha]. now rewrite IHf, IHa.
  - intros [_ Hb]. f_equal. apply (IHb (pid p :: scope) extra Hb).
  - intros Hp. f_equal. now apply index_of_app_l.
Qed.

Lemma well_scoped_app (e : Expr) :
  forall scope extra,
    well_scoped scope e ->
    (forall q, q ∈ binders e -> pid q ∉ extra) ->
    well_scoped (scope ++ extra) e.
Proof.
  induction e as [f IHf a IHa | p b IHb | p]; intros scope extra;
    cbn [well_scoped binders].
  - intros [Hf Ha] Hfresh. split; [apply IHf | apply IHa]; try assumption;
      intros q Hq; apply Hfresh, elem_of_app; auto.
  - intros [Hp Hb] Hfresh. split.
    + rewrite elem_of_app. intros [?|Hin]; [contradiction|].
      apply (Hfresh p); [apply elem_of_cons; auto | exact Hin].
    + apply (IHb (pid p :: scope) extra Hb).
      intros q Hq. apply Hfresh. apply elem_of_cons. auto.
  - intros Hp _. apply elem_of_app. auto.
Qed.

(** The result of the replacement in de Bruijn form. *)
Lemma replace_parameter_to_dB (p : nat) (arg e : Expr) :
  well_scoped [] arg ->
  forall scope,
    well_scoped (scope ++ [p]) e -> p ∉ scope ->
    (forall q, q ∈ binders arg -> pid q ∉ scope /\ pid q ∉ (pid <$> binders e)) ->
    well_scoped scope (replace_parameter p arg e)
    /\ to_dB scope (replace_parameter p arg e)
       = dB_subst (length scope) (to_dB [] arg) (to_dB (scope ++ [p]) e).
Proof.
  intros Harg.
  pose proof (dB_lift_closed _ 0 (to_dB_closed arg [] Harg)) as Hlift.
  induction e as [f IHf a IHa | q b IHb | q]; intros scope Hws Hp Hfresh;
    cbn [well_scoped replace_parameter to_dB dB_subst binders] in *.
  - destruct Hws as [Hf Ha].
    destruct (IHf scope Hf Hp) as [Hwf Hdf].
    { intros r Hr. destruct (Hfresh r Hr) as [H1 H2]. split; [exact H1|].
      intros Hin. apply H2. rewrite fmap_app. apply elem_of_app. auto. }
    destruct (IHa scope Ha Hp) as [Hwa Hda].
    { intros r Hr. destruct (Hfresh r Hr) as [H1 H2]. split; [exact H1|].
      intros Hin. apply H2. rewrite fmap_app. apply elem_of_app. auto. }
    split; [split; assumption|]. now rewrite Hdf, Hda.
  - destruct Hws as [Hq Hb]. rewrite elem_of_app in Hq.
    destruct (IHb (pid q :: scope) Hb) as [Hwb Hdb].
    { rewrite elem_of_cons. intros [->|Hin]; [|contradiction].
      apply Hq. right. apply list_elem_of_singleton. reflexivity. }
    { intros r Hr. destruct (Hfresh r Hr) as [H1 H2]. rewrite fmap_cons in H2.
      rewrite not_elem_of_cons in H2. destruct H2 as [H2 H3].
      split; [|exact H3]. rewrite elem_of_cons. intros [?|?]; auto. }
    split; [split; [tauto | exact Hwb]|].
    rewrite Hlift. f_equal. exact Hdb.
  - destruct (decide (pid q = p)) as [->|Hne].
    + rewrite index_of_app_r by exact Hp.
      rewrite Nat.ltb_irrefl, Nat.eqb_refl. split.
      * apply (well_scoped_app arg [] scope Harg).
        intros r Hr. now destruct (Hfresh r Hr).
      * apply (to_dB_app arg [] scope Harg).
    + assert (Hq : pid q ∈ scope).
      { apply elem_of_app in Hws. destruct Hws as [?|Hin]; [assumption|].
        apply list_elem_of_singleton in Hin. contradiction. }
      rewrite index_of_app_l by exact Hq.
      pose proof (index_of_lt scope (pid q) Hq) as Hlt.
      apply Nat.ltb_lt in Hlt. rewrite Hlt. auto.
Qed.

Lemma alpha_scoped (ctx : list (nat * nat)) (e1 e2 : Expr) :
  alpha ctx e1 e2 -> scoped ctx.*1 e1 = true -> scoped ctx.*2 e2 = true.
Proof.
  induction 1 as [ctx p q Hpq | ctx f1 a1 f2 a2 _ IHf _ IHa | ctx p q b1 b2 _ IHb];
    cbn [scoped].
  - intros Hp. apply bool_decide_eq_true in Hp. apply bool_decide_eq_true.
    eapply paired_snd; eassumption.
  - rewrite !andb_true_iff. intros [Hf Ha]. auto.
  - exact IHb.
Qed.

Lemma call_beta (p : Param) (body arg : Expr) (next : nat) :
  well_formed (FunctionExpr p body) = true ->
  well_formed arg = true ->
  allocated next (FunctionExpr p body) ->
  allocated next arg ->
  exists r next',
    __call__ (FunctionExpr p body) arg next = inr (r, next')
    /\ well_scoped [] r
    /\ to_dB [] r = dB_subst 0 (to_dB [] arg) (to_dB [pid p] body).
Proof.
  intros Hwf Hwa Hal Hala.
  apply well_formed_function in Hwf. apply well_formed_well_scoped in Hwa.
  assert (Hlt : pid p < next).
  { unfold allocated in Hal. cbn in Hal. now apply Forall_cons in Hal as [? _]. }
  set (body' := (reallocate ∅ body next).1).
  destruct (reallocate_binders body ∅ next) as (Hpids & _ & _). fold body' in Hpids.
  assert (Halpha : alpha [(pid p, pid p)] body body').
  { apply reallocate_alpha.
    - exact Hwf.
    - cbn. intros y Hy. apply list_elem_of_singleton in Hy. now subst y.
    - cbn. intros q Hq. apply list_elem_of_singleton in Hq.
      rewrite lookup_empty. cbn. left. auto. }
  assert (Hws' : well_scoped [pid p] body').
  { apply scoped_well_scoped.
    - apply (alpha_scoped _ _ _ Halpha), well_scoped_scoped, Hwf.
    - rewrite Hpids. apply NoDup_seq.
    - intros q Hq Hin. apply list_elem_of_singleton in Hin.
      assert (Hq' : pid q ∈ seq next (length (binders body))).
      { rewrite <- Hpids. apply list_elem_of_fmap. now exists q. }
      apply list_elem_of_In, in_seq in Hq'. lia. }
  exists (replace_parameter (pid p) arg body'), (reallocate ∅ body next).2.
  split; [now apply call_reallocate|].
  destruct (replace_parameter_to_dB (pid p) arg body' Hwa [] Hws') as [Hr Hd].
  { apply not_elem_of_nil. }
  { intros q Hq. split; [apply not_elem_of_nil|].
    rewrite Hpids. intros Hin. apply list_elem_of_In, in_seq in Hin.
    unfold allocated in Hala. rewrite Forall_forall in Hala.
    assert (Hqa : q ∈ parameters arg) by now apply binders_parameters.
    specialize (Hala q Hqa). lia. }
  split; [exact Hr|]. rewrite Hd. cbn [length app]. f_equal.
  symmetry. apply (to_dB_alpha body body' [(pid p, pid p)]); assumption.
Qed.

(** X15.  Applying a well-formed function to a well-formed argument (all
    their Parameters allocated) is beta-reduction.  The bit string of the
    function is the code of a term [dLam B], that of the argument the code
    of a term [A], and the call returns an expression whose bit string is
    the code of [B] with [A] substituted for the index of the function's
    parameter. *)
Theorem call_is_beta_reduction (p : Param) (body arg : Expr) (next : nat) :
  well_formed (FunctionExpr p body) = true ->
  well_formed arg = true ->
  allocated next (FunctionExpr p body) ->
  allocated next arg ->
  exists (A B : dB) r next',
    bitstring (FunctionExpr p body) = inr (dB_bits (dLam B))
    /\ bitstring arg = inr (dB_bits A)
    /\ __call__ (FunctionExpr p body) arg next = inr (r, next')
    /\ bitstring r = inr (dB_bits (dB_subst 0 A B)).
Proof.
  intros Hwf Hwa Hal Hala.
  destruct (call_beta p body arg next Hwf Hwa Hal Hala) as (r & next' & Hc & Hr & Hd).
  exists (to_dB [] arg), (to_dB [pid p] body), r, next'.
  split; [now apply bitstring_encode, well_formed_well_scoped|].
  split; [now apply bitstring_encode, well_formed_well_scoped|].
  split; [exact Hc|]. rewrite <- Hd. now apply bitstring_encode.
Qed.

Lemma call_is_beta_reduction_witness :
  let x := mkParameter 0 "x" in
  let y := mkParameter 1 "y" in
  let z := mkParameter 2 "z" in
  let body := FunctionExpr y (ApplyExpr (ParameterReference x) (ParameterReference y)) in
  let arg := FunctionExpr z (ParameterReference z) in
  exists (A B : dB) r next',
    bitstring (FunctionExpr x body) = inr (dB_bits (dLam B))
    /\ bitstring arg = inr (dB_bits A)
    /\ __call__ (FunctionExpr x body) arg 3 = inr (r, next')
    /\ bitstring r = inr (dB_bits (dB_subst 0 A B)).
Proof.
  intros x y z body arg. apply (call_is_beta_reduction x body arg 3).
  - vm_compute. reflexivity.
  - vm_compute. reflexivity.
  - unfold allocated. cbn. repeat constructor.
  - unfold allocated. cbn. repeat constructor.
Defined.

(** X16.  Application respects [__eq__]: equal well-formed functions
    applied to equal well-formed arguments return equal expressions, and
    the expressions returned are again accepted by [bitstring]. *)
Theorem call_respects_eq (p1 p2 : Param) (b1 b2 a1 a2 : Expr) (n1 n2 : nat) :
  well_formed (FunctionExpr p1 b1) = true ->
  well_formed (FunctionExpr p2 b2) = true ->
  well_formed a1 = true -> well_formed a2 = true ->
  allocated n1 (FunctionExpr p1 b1) -> allocated n1 a1 ->
  allocated n2 (FunctionExpr p2 b2) -> allocated n2 a2 ->
  __eq__ (FunctionExpr p1 b1) (FunctionExpr p2 b2) = inr true ->
  __eq__ a1 a2 = inr true ->
  exists r1 n1' r2 n2',
    __call__ (FunctionExpr p1 b1) a1 n1 = inr (r1, n1')
    /\ __call__ (FunctionExpr p2 b2) a2 n2 = inr (r2, n2')
    /\ __eq__ r1 r2 = inr true.
Proof.
  intros Hf1 Hf2 Ha1 Ha2 Hal1 Hala1 Hal2 Hala2 Hf Ha.
  destruct (call_beta p1 b1 a1 n1 Hf1 Ha1 Hal1 Hala1) as (r1 & n1' & Hc1 & Hr1 & Hd1).
  destruct (call_beta p2 b2 a2 n2 Hf2 Ha2 Hal2 Hala2) as (r2 & n2' & Hc2 & Hr2 & Hd2).
  exists r1, n1', r2, n2'. split; [exact Hc1|]. split; [exact Hc2|].
  rewrite eq_value in Hf by now apply well_formed_well_scoped.
  rewrite eq_value in Ha by now apply well_formed_well_scoped.
  injection Hf as Hf. injection Ha as Ha.
  apply bool_decide_eq_true in Hf. apply bool_decide_eq_true in Ha.
  cbn [to_dB] in Hf. injection Hf as Hf.
  apply eq_of_to_dB; [assumption..|]. rewrite Hd1, Hd2, Hf, Ha. reflexivity.
Qed.

Lemma call_respects_eq_witness :
  let x := mkParameter 0 "x" in
  let y := mkParameter 1 "y" in
  let u := mkParameter 2 "u" in
  let v := mkParameter 3 "v" in
  let b1 := ApplyExpr (ParameterReference x) (ParameterReference x) in
  let b2 := ApplyExpr (ParameterReference y) (ParameterReference y) in
  let a1 := FunctionExpr u (ParameterReference u) in
  let a2 := FunctionExpr v (ParameterReference v) in
  exists r1 n1' r2 n2',
    __call__ (FunctionExpr x b1) a1 4 = inr (r1, n1')
    /\ __call__ (FunctionExpr y b2) a2 4 = inr (r2, n2')
    /\ __eq__ r1 r2 = inr true.
Proof.
  intros x y u v b1 b2 a1 a2.
  apply (call_respects_eq x y b1 b2 a1 a2 4 4);
    try (vm_compute; reflexivity);
    unfold allocated; cbn; repeat constructor.
Defined.

(** ** The parser returns only what its grammar derives *)

Lemma sem_terminal (tok : token) (rest : token_gen) :
  terminal tok = true -> sem tok [tok] rest.
Proof.
  intros Ht. destruct tok as [[] v]; try discriminate Ht; destruct v;
    try discriminate Ht; cbn; auto.
Qed.

Lemma nonterminal_not_closing (tok : token) :
  nonterminal tok = true -> closing tok = false.
Proof. destruct tok as [[] v]; cbn; congruence. Qed.

Lemma next_parsed (tokens : TokenStream) (mid : token_gen) (tok : token)
    (tokens' : TokenStream) :
  stream_parsed tokens mid ->
  TokenStream_next tokens = inr (tok, tokens') ->
  exists seg rest,
    mid = (inr <$> seg) ++ rest /\ sem tok seg rest /\ stream_parsed tokens' rest
    /\ (closing tok = true -> closes mid = true).
Proof.
  intros (nts & las & Hhead & Hnts & Hlas & Htail & Hp).
  destruct tokens as [head tail]. cbn [_head _tail] in *. subst head.
  unfold TokenStream_next. cbn [_head _tail].
  destruct nts as [|nt nts]; cbn [app parsed] in *.
  - subst mid. destruct las as [|la las]; cbn [app].
    + destruct tail as [|[e|t] tail]; try discriminate. intros [= -> <-].
      apply Forall_cons in Htail. destruct Htail as [Ht Htail].
      exists [tok], tail. split; [reflexivity|].
      split; [now apply sem_terminal|]. split; [|auto].
      exists [], []. cbn. auto.
    + intros [= -> <-]. apply Forall_cons in Hlas. destruct Hlas as [Ht Hlas].
      exists [tok], ((inr <$> las) ++ tail). split; [reflexivity|].
      split; [now apply sem_terminal|]. split; [|auto].
      exists [], las. cbn. auto.
  - intros [= -> <-]. destruct Hp as (seg & mid' & -> & Hsem & Hp).
    apply Forall_cons in Hnts. destruct Hnts as [Hnt Hnts].
    exists seg, mid'. split; [reflexivity|]. split; [exact Hsem|]. split.
    + exists nts, las. cbn. auto.
    + rewrite (nonterminal_not_closing _ Hnt). discriminate.
Qed.

Lemma push_parsed (tokens : TokenStream) (tok : token) (seg : list token)
    (rest : token_gen) :
  stream_parsed tokens rest -> sem tok seg rest -> nonterminal tok = true ->
  stream_parsed (TokenStream_push tokens tok) ((inr <$> seg) ++ rest).
Proof.
  intros (nts & las & Hhead & Hnts & Hlas & Htail & Hp) Hsem Hnt.
  exists (tok :: nts), las. unfold TokenStream_push. cbn [_head _tail].
  rewrite Hhead. split; [reflexivity|]. split; [now constructor|].
  split; [exact Hlas|]. split; [exact Htail|].
  exists seg, rest. auto.
Qed.

Lemma peek_type_parsed (tokens : TokenStream) (mid : token_gen)
    (kind : token_type) (tokens' : TokenStream) :
  stream_parsed tokens mid ->
  TokenStream_peek_type tokens = inr (kind, tokens') ->
  stream_parsed tokens' mid
  /\ (kind = END \/ kind = RIGHT -> closes mid = true).
Proof.
  intros Hsp. pose proof Hsp as (nts & las & Hhead & Hnts & Hlas & Htail & Hp).
  unfold TokenStream_peek_type, TokenStream_peek.
  destruct (TokenStream_next tokens) as [e|[[k v] ts]] eqn:Hn; cbn [bind_exn];
    [discriminate|].
  intros [= <- <-].
  destruct (next_parsed _ _ _ _ Hsp Hn) as (seg & rest & Hmid & Hsem & Hts & Hcl).
  split.
  - destruct tokens as [head tail]. cbn [_head _tail] in *. subst head.
    unfold TokenStream_next in Hn. cbn [_head _tail] in Hn.
    destruct nts as [|nt nts]; cbn [app parsed] in *.
    + destruct las as [|la las]; cbn [app] in *.
      * destruct tail as [|[e|t] tail]; try discriminate.
        injection Hn as -> <-. subst mid.
        apply Forall_cons in Htail. destruct Htail as [Ht Htail].
        exists [], [(k, v)]. unfold TokenStream_push. cbn. repeat split; auto.
      * injection Hn as -> <-. exists [], ((k, v) :: las).
        unfold TokenStream_push. cbn. repeat split; auto.
    + injection Hn as -> <-. exists ((k, v) :: nts), las.
      unfold TokenStream_push. cbn. repeat split; auto.
  - intros Hk. apply Hcl. unfold closing. cbn. destruct Hk as [-> | ->]; reflexivity.
Qed.

Lemma shift_sound (items : token_gen) (ps : parser) (kind : token_type)
    (v : value) (tokens' : TokenStream) (st' : state)
    (consumed seg : list token) (mid rest : token_gen) :
  items = (inr <$> consumed) ++ mid ->
  covers (ps_state ps) (ps_state_stack ps) (ps_value_stack ps) consumed mid ->
  mid = (inr <$> seg) ++ rest ->
  sem (kind, v) seg rest ->
  stream_parsed tokens' rest ->
  may_precede (ps_state ps) st' = true ->
  entered_by st' = Some kind ->
  (st' = RCOMPLETE -> closes rest = true) ->
  parser_sound items (shift ps v tokens' st').
Proof.
  intros Hitems Hcov Hmid Hsem Hts Hmay Hent Hcl.
  exists (consumed ++ seg), rest. unfold shift. cbn [ps_state ps_state_stack
    ps_value_stack ps_tokens].
  split; [rewrite fmap_app, <- app_assoc; congruence|].
  split; [|auto]. eapply covers_shift; eauto. now rewrite <- Hmid.
Qed.

Lemma reduce_sound (items : token_gen) (ps : parser) (st0 : state)
    (ss0 : list state) (vs0 : list value) (tok : token)
    (c0 seg : list token) (mid : token_gen) :
  items = (inr <$> (c0 ++ seg)) ++ mid ->
  covers st0 ss0 vs0 c0 ((inr <$> seg) ++ mid) ->
  sem tok seg mid -> nonterminal tok = true ->
  stream_parsed (ps_tokens ps) mid ->
  st0 <> RCOMPLETE ->
  parser_sound items (reduce ps st0 ss0 vs0 tok).
Proof.
  intros Hitems Hcov Hsem Hnt Hts Hst.
  exists c0, ((inr <$> seg) ++ mid). unfold reduce. cbn [ps_state ps_state_stack
    ps_value_stack ps_tokens].
  split; [rewrite Hitems, fmap_app, <- app_assoc; reflexivity|].
  split; [exact Hcov|]. split; [now apply push_parsed | contradiction].
Qed.
Ltac uncover :=
  match goal with
  | H : covers _ _ _ _ _ |- _ => inversion H; subst; clear H
  end;
  match goal with
  | H : entered_by _ = Some _ |- _ =>
      cbn in H; first [discriminate H | injection H as <-]
  end.

Ltac below_is :=
  match goal with
  | H : may_precede ?b _ = true |- _ => destruct b; try discriminate H; clear H
  end.

Ltac sem_value H :=
  match type of H with
  | sem (_, ?v) _ _ =>
      destruct v; cbn -[closes] in H;
      try (let Hf := fresh in destruct H as [Hf _]; discriminate Hf);
      try match type of H with
          | _ /\ ?s = [_] => destruct H as [_ H]; subst s
          end
  end.

Ltac sem_values :=
  repeat match goal with
         | H : sem (_, ?v) _ _ |- _ => is_var v; sem_value H
         end.

Ltac shift_round :=
  eapply shift_sound; eauto; first [reflexivity | discriminate | idtac].

Lemma may_precede_shift_state (below st : state) :
  may_precede below st = true -> below <> RCOMPLETE.
Proof. destruct below, st; cbn; congruence. Qed.

Lemma closes_derives (ph : phrase) (seg : list token) (a : Ast) (rest : token_gen) :
  derives ph seg a -> closes ((inr <$> seg) ++ rest) = false.
Proof.
  intros Hd. destruct (derives_first _ _ _ Hd) as (k & v & seg' & -> & Hk).
  destruct Hk as [-> | [-> | ->]]; reflexivity.
Qed.

Lemma parse_step_sound (items : token_gen) (ps : parser) :
  parser_sound items ps ->
  match parse_step ps with
  | inl _ => True
  | inr (inl ps') => parser_sound items ps'
  | inr (inr a) =>
      exists toks rest,
        items = (inr <$> toks) ++ inr (END, VNone) :: rest
        /\ derives PExpr toks a
  end.
Proof.
  intros (consumed & mid & Hitems & Hcov & Hts & Hrc).
  destruct ps as [st ss vs ts].
  cbn [ps_state ps_state_stack ps_value_stack ps_tokens] in *.
  unfold parse_step. cbn [ps_state ps_state_stack ps_value_stack ps_tokens].
  destruct st; try unfold shift_expr_start;
    cbn [ps_state ps_state_stack ps_value_stack ps_tokens].
  (* the states that read a token *)
  1-8: destruct (TokenStream_next ts) as [e|[[k v] ts1]] eqn:Hn; cbn [bind_exn];
       [exact I|];
       destruct (next_parsed _ _ _ _ Hts Hn) as (seg & rest & Hmid & Hsem & Hts1 & _);
       destruct k; cbn [bind_exn]; try exact I; try (shift_round; fail).
  1-3: destruct (TokenStream_peek_type ts1) as [e|[k2 ts2]] eqn:Hp; cbn [bind_exn];
       [exact I|];
       destruct (peek_type_parsed _ _ _ _ Hts1 Hp) as [Hts2 Hcl];
       destruct (token_type_eqb k2 END || token_type_eqb k2 RIGHT) eqn:Hk;
       [ shift_round; intros _; apply Hcl; destruct k2; try discriminate Hk; auto
       | shift_round ].
  (* the reductions *)
  - (* expr -> expr atom *)
    uncover. below_is. uncover. sem_values. cbn.
    match goal with
    | Hc : covers ?b _ _ ?c ((inr <$> ?s0) ++ (inr <$> ?s1) ++ _),
      Hf : _ \/ _ /\ closes ((inr <$> ?s1) ++ _) = true, Ha : _ \/ _ /\ closes mid = true
      |- _ =>
        apply (reduce_sound _ _ b _ _ _ c (s0 ++ s1) mid);
          [ now rewrite <- app_assoc
          | now rewrite fmap_app, <- app_assoc
          | | reflexivity | exact Hts | eapply may_precede_shift_state; eauto ];
        destruct Hf as [Hf | [_ Hf]];
          [| destruct Ha as [Ha | [Ha _]];
             rewrite (closes_derives _ _ _ _ Ha) in Hf; discriminate Hf ];
        destruct Ha as [Ha | [Ha Hcl]]; cbn -[closes];
          [ left; now apply derives_apply
          | right; split; [now apply derives_apply_lambda | exact Hcl] ]
    end.
  - (* atom -> LEFT expr RIGHT *)
    uncover. below_is. uncover. below_is. uncover. sem_values. cbn.
    match goal with
    | Hc : covers ?b _ _ ?c _, Hd : derives PExpr ?s _ /\ _ |- _ =>
        apply (reduce_sound _ _ b _ _ _ c
                 ([(LEFT, VNone)] ++ s ++ [(RIGHT, VNone)]) mid);
          [ now rewrite <- !app_assoc
          | rewrite !fmap_app, <- !app_assoc; exact Hc
          | left; apply derives_parentheses, Hd
          | reflexivity | exact Hts | eapply may_precede_shift_state; eauto ]
    end.
  - (* expr -> atom *)
    uncover. sem_values. cbn.
    match goal with
    | Hc : covers ?b _ _ ?c ((inr <$> ?s) ++ _), Ha : _ \/ _ |- _ =>
        apply (reduce_sound _ _ b _ _ _ c s mid);
          [ reflexivity | exact Hc | | reflexivity | exact Hts
          | eapply may_precede_shift_state; eauto ];
        destruct Ha as [Ha | [Ha Hcl]]; cbn -[closes];
          [ left; now apply derives_atom
          | right; split; [now apply derives_last_lambda | exact Hcl] ]
    end.
  - (* atom -> ID *)
    uncover. sem_values. cbn.
    match goal with
    | Hc : covers ?b _ _ ?c ((inr <$> ?s) ++ _) |- _ =>
        apply (reduce_sound _ _ b _ _ _ c s mid);
          [ reflexivity | exact Hc | left; apply derives_name
          | reflexivity | exact Hts | eapply may_precede_shift_state; eauto ]
    end.
  - (* names -> ID *)
    uncover. sem_values. cbn.
    match goal with
    | Hc : covers ?b _ _ ?c ((inr <$> [(ID, VStr ?x)]) ++ _) |- _ =>
        apply (reduce_sound _ _ b _ _ _ c [(ID, VStr x)] mid);
          [ reflexivity | exact Hc | exists x, []; split; reflexivity
          | reflexivity | exact Hts | eapply may_precede_shift_state; eauto ]
    end.
  - (* atom -> SLASH names DOT expr *)
    uncover. below_is. uncover. below_is. uncover. below_is. uncover.
    sem_values.
    match goal with
    | H : exists x xs, _ |- _ => destruct H as (x & xs & -> & ->)
    end.
    cbn -[closes]. change (rev xs ++ [x]) with (rev (x :: xs)).
    rewrite lambda_loop_rev.
    match goal with
    | Hc : covers ?b _ _ ?c _, Hd : derives PExpr ?s _ /\ _ |- _ =>
        apply (reduce_sound _ _ b _ _ _ c
                 ([(SLASH, VNone)] ++ name_tokens (x :: xs)
                    ++ [(DOT, VNone)] ++ s) mid);
          [ now rewrite <- !app_assoc
          | rewrite !fmap_app, <- !app_assoc; exact Hc
          | right; split; [apply derives_lambda, Hd | apply Hd]
          | reflexivity | exact Hts | eapply may_precede_shift_state; eauto ]
    end.
  - (* names -> names ID *)
    uncover. below_is. uncover. sem_values.
    match goal with
    | H : exists x xs, _ |- _ => destruct H as (x & xs & -> & ->)
    end.
    cbn -[rev closes name_tokens].
    match goal with
    | Hc : covers ?b _ _ ?c (_ ++ (inr <$> [(ID, VStr ?y)]) ++ _) |- _ =>
        apply (reduce_sound _ _ b _ _ _ c
                 (name_tokens (x :: xs) ++ [(ID, VStr y)]) mid);
          [ now rewrite <- !app_assoc
          | rewrite !fmap_app, <- !app_assoc; exact Hc
          | exists x, (xs ++ [y]); split;
              [ cbn [rev]; now rewrite rev_unit
              | unfold name_tokens; rewrite !fmap_cons, fmap_app; reflexivity ]
          | reflexivity | exact Hts | eapply may_precede_shift_state; eauto ]
    end.
  - (* complete -> expr *)
    uncover. sem_values. cbn.
    match goal with
    | Hc : covers ?b _ _ ?c ((inr <$> ?s) ++ _), Ha : _ \/ _ |- _ =>
        apply (reduce_sound _ _ b _ _ _ c s mid);
          [ reflexivity | exact Hc | | reflexivity | exact Hts
          | eapply may_precede_shift_state; eauto ];
        cbn -[closes]; split; [|now apply Hrc];
        destruct Ha as [Ha | [Ha _]]; [now apply derives_juxta | exact Ha]
    end.
  - (* accept *)
    uncover. below_is. uncover. below_is. sem_values.
    match goal with
    | H : covers SBEGIN _ _ _ _ |- _ => inversion H; subst; clear H
    end.
    2: { match goal with
         | H : entered_by SBEGIN = Some _ |- _ => discriminate H
         end. }
    cbn.
    match goal with
    | Hd : derives PExpr ?s _ /\ _ |- _ =>
        exists s, mid; split; [|apply Hd]
    end.
    rewrite fmap_app, <- app_assoc. reflexivity.
Qed.
Lemma parse_loop_sound (items : token_gen) (ps : parser) (a : Ast) :
  parser_sound items ps -> parse_loop ps = inr a ->
  exists toks rest,
    items = (inr <$> toks) ++ inr (END, VNone) :: rest /\ derives PExpr toks a.
Proof.
  funelim (parse_loop ps); intros Hinv Hres;
    pose proof (parse_step_sound items ps Hinv) as Hstep;
    match goal with
    | H : parse_step _ = _ |- _ => rewrite H in Hstep
    end.
  - discriminate.
  - eauto.
  - injection Hres as <-. exact Hstep.
Qed.

Lemma SMParser_parse_sound (items : token_gen) (a : Ast) :
  Forall terminal_item items -> SMParser_parse items = inr a ->
  exists toks rest,
    items = (inr <$> toks) ++ inr (END, VNone) :: rest /\ derives PExpr toks a.
Proof.
  intros Hitems. apply parse_loop_sound.
  exists [], items. cbn. split; [reflexivity|]. split; [constructor|].
  split; [|discriminate]. exists [], []. cbn. auto.
Qed.

Lemma lexeme_terminal (tok : token) : lexeme tok = true -> terminal tok = true.
Proof. destruct tok as [[] []]; cbn; congruence. Qed.

Lemma lexeme_not_END (tok : token) : lexeme tok = true -> fst tok <> END.
Proof. destruct tok as [[] []]; cbn; congruence. Qed.

Lemma tokenize_loop_shape (chars : string) :
  forall parsing_id id_chars,
    (parsing_id = true -> identifier id_chars = true) ->
    exists (toks : list token) (last : exn + token),
      tokenize_loop chars parsing_id id_chars = (inr <$> toks) ++ [last]
      /\ Forall (fun tok => lexeme tok = true) toks
      /\ (last = inr (END, VNone) \/ exists e, last = inl e).
Proof.
  assert (Hflush : forall parsing_id id_chars (toks : list token) last,
    (parsing_id = true -> identifier id_chars = true) ->
    Forall (fun tok => lexeme tok = true) toks ->
    exists toks' : list token,
      flush_id parsing_id id_chars ++ (inr <$> toks) ++ [last]
      = (inr <$> toks') ++ [last]
      /\ Forall (fun tok => lexeme tok = true) toks').
  { intros parsing_id id_chars toks last Hid Hlex.
    destruct parsing_id; cbn [flush_id].
    - exists ((ID, VStr id_chars) :: toks). split; [reflexivity|].
      constructor; [cbn; now apply Hid | exact Hlex].
    - exists toks. auto. }
  induction chars as [|c chars IH]; intros parsing_id id_chars Hid;
    cbn [tokenize_loop].
  - destruct (Hflush parsing_id id_chars [] (inr (END, VNone)) Hid)
      as (toks' & Heq & Hlex); [constructor|].
    exists toks', (inr (END, VNone)). split; [exact Heq | auto].
  - destruct (IDENTIFIER_CHARACTERS c) eqn:Hi.
    + apply IH. intros _. apply identifier_snoc; [|exact Hi].
      destruct parsing_id; [|reflexivity].
      now apply identifier_identifier_characters, Hid.
    + destruct (IH false id_chars) as (toks & last & Hrun & Hlex & Hlast);
        [discriminate|]. rewrite Hrun.
      destruct (SINGLE_TOKEN_CHARS c) as [kind|] eqn:Hs.
      * destruct (single_token_class c kind Hs) as (_ & _ & Hk).
        destruct (Hflush parsing_id id_chars ((kind, VNone) :: toks) last Hid)
          as (toks' & Heq & Hlex'); [now constructor|].
        exists toks', last. split; [exact Heq | auto].
      * destruct (WHITESPACE c).
        -- destruct (Hflush parsing_id id_chars toks last Hid Hlex)
             as (toks' & Heq & Hlex').
           exists toks', last. split; [exact Heq | auto].
        -- destruct (Hflush parsing_id id_chars []
                       (inl (ParseError ["Invalid character in string: "
                                           +:+ String c ""])) Hid)
             as (toks' & Heq & Hlex'); [constructor|].
           exists toks', (inl (ParseError ["Invalid character in string: "
                                             +:+ String c ""])).
           split; [exact Heq | eauto].
Qed.

Lemma tokenize_loop_no_exception (chars : string) :
  forall parsing_id id_chars (toks : list token),
    tokenize_loop chars parsing_id id_chars = inr <$> toks ->
    all_accepted chars = true.
Proof.
  induction chars as [|c chars IH]; intros parsing_id id_chars toks;
    cbn [tokenize_loop all_accepted]; [reflexivity|].
  unfold accepted_character.
  destruct (IDENTIFIER_CHARACTERS c); cbn [orb andb]; [apply IH|].
  intros Heq. symmetry in Heq. apply fmap_app_inv in Heq.
  destruct Heq as (l1 & l2 & _ & Heq & _).
  destruct (SINGLE_TOKEN_CHARS c); cbn [orb andb].
  - symmetry in Heq. apply fmap_cons_inv in Heq.
    destruct Heq as (y & l & _ & Heq & _). eauto.
  - destruct (WHITESPACE c); [eauto|].
    destruct l2 as [|y l2]; discriminate Heq.
Qed.

Lemma derives_lexemes (ph : phrase) (toks : list token) (a : Ast) :
  derives ph toks a -> Forall (fun tok => fst tok <> END) toks.
Proof.
  induction 1; repeat (apply Forall_app; split); repeat constructor;
    try assumption; cbn; try discriminate.
  unfold name_tokens. apply Forall_fmap, Forall_true. discriminate.
Qed.

Lemma END_splits (toks seg : list token) (last : exn + token) (rest : token_gen) :
  Forall (fun tok => fst tok <> END) toks ->
  Forall (fun tok => fst tok <> END) seg ->
  (inr <$> toks) ++ [last] = (inr <$> seg) ++ inr (END, VNone) :: rest ->
  toks = seg /\ last = inr (END, VNone) /\ rest = [].
Proof.
  revert seg. induction toks as [|t toks IH]; intros [|s seg] Ht Hs; cbn.
  - intros [= -> <-]. auto.
  - intros [= -> Heq]. destruct (inr <$> seg); discriminate Heq.
  - intros [= -> _]. apply Forall_cons in Ht. destruct Ht as [Ht _].
    now contradiction Ht.
  - intros [= -> Heq]. apply Forall_cons in Ht, Hs.
    destruct Ht as [_ Ht], Hs as [_ Hs].
    destruct (IH seg Ht Hs Heq) as (-> & -> & ->). auto.
Qed.

Lemma parse_sound (s : string) (a : Ast) :
  parse s = inr a ->
  exists toks,
    tokenize s = inr <$> (toks ++ [(END, VNone)])
    /\ Forall (fun tok => lexeme tok = true) toks
    /\ derives PExpr toks a.
Proof.
  unfold parse, tokenize. intros Hp.
  destruct (tokenize_loop_shape s false "") as (toks & last & Hrun & Hlex & Hlast);
    [discriminate|].
  rewrite Hrun in Hp. apply SMParser_parse_sound in Hp.
  - destruct Hp as (seg & rest & Heq & Hd).
    apply END_splits in Heq.
    + destruct Heq as (-> & -> & ->). exists seg.
      rewrite Hrun, fmap_app. auto.
    + eapply Forall_impl; [exact Hlex | apply lexeme_not_END].
    + eapply derives_lexemes; eassumption.
  - apply Forall_app. split.
    + apply Forall_fmap. eapply Forall_impl; [exact Hlex|].
      intros tok. cbn. apply lexeme_terminal.
    + constructor; [|constructor].
      destruct Hlast as [-> | [e ->]]; cbn; auto.
Qed.

(** X17.  [parse] returns exactly what its grammar derives: [parse(s)]
    returns the tree [a] if and only if the tokenizer turns [s] into tokens
    followed by END and these tokens are an expression of the grammar that
    stands for [a].  No other input makes [parse] return. *)
Theorem parse_returns_iff_grammar_derives (s : string) (a : Ast) :
  parse s = inr a
  <-> exists toks,
        tokenize s = inr <$> (toks ++ [(END, VNone)])
        /\ derives PExpr toks a.
Proof.
  split.
  - intros Hp. destruct (parse_sound s a Hp) as (toks & Htok & _ & Hd). eauto.
  - intros (toks & Htok & Hd). unfold parse. rewrite Htok.
    now apply derives_accepted.
Qed.

Lemma parse_returns_iff_grammar_derives_witness :
  exists toks,
    tokenize "f (\x. x) y" = inr <$> (toks ++ [(END, VNone)])
    /\ derives PExpr toks
         (Apply (Apply (Name "f") (Function "x" (Name "x"))) (Name "y")).
Proof.
  apply (proj1 (parse_returns_iff_grammar_derives "f (\x. x) y" _)).
  reflexivity.
Defined.

Lemma derives_identifiers (ph : phrase) (toks : list token) (a : Ast) :
  derives ph toks a ->
  Forall (fun tok => lexeme tok = true) toks -> Ast_identifiers a = true.
Proof.
  induction 1 as [x | toks a _ IH | x xs toks a _ IH | toks a _ IH
                 | tf f ta a _ IHf _ IHa | toks a _ IH | toks a _ IH
                 | tf f ta a _ IHf _ IHa]; intros Hlex;
    cbn [Ast_identifiers]; auto.
  - apply Forall_cons in Hlex. now destruct Hlex.
  - apply Forall_app in Hlex. destruct Hlex as [_ Hlex].
    apply Forall_app in Hlex. destruct Hlex as [Hlex _]. auto.
  - apply Forall_app in Hlex. destruct Hlex as [_ Hlex].
    apply Forall_app in Hlex. destruct Hlex as [Hnames Hlex].
    apply Forall_app in Hlex. destruct Hlex as [_ Hlex].
    specialize (IH Hlex). clear Hlex.
    unfold name_tokens in Hnames. rewrite Forall_fmap in Hnames.
    revert Hnames. generalize (x :: xs). intros names.
    induction names as [|n names IHn]; intros Hn; cbn [foldr Ast_identifiers];
      [exact IH|].
    apply Forall_cons in Hn. destruct Hn as [Hn Hnames]. cbn in Hn.
    rewrite Hn. cbn. auto.
  - apply Forall_app in Hlex. destruct Hlex as [Hf Ha].
    now rewrite IHf, IHa.
  - apply Forall_app in Hlex. destruct Hlex as [Hf Ha].
    now rewrite IHf, IHa.
Qed.

(** X18.  When [parse] returns a tree, every character of the input is
    accepted by the tokenizer, every name of the tree is an identifier, and
    [parse] of the fully parenthesised text of the tree returns the same
    tree. *)
Theorem parse_returns_renderable_tree (s : string) (a : Ast) :
  parse s = inr a ->
  all_accepted s = true
  /\ Ast_identifiers a = true
  /\ parse (render a) = inr a.
Proof.
  intros Hp. destruct (parse_sound s a Hp) as (toks & Htok & Hlex & Hd).
  assert (Hid : Ast_identifiers a = true)
    by (eapply derives_identifiers; eassumption).
  split; [eapply tokenize_loop_no_exception; exact Htok|].
  split; [exact Hid|].
  unfold parse. unfold tokenize. rewrite <- (append_empty_r (render a)).
  rewrite tokenize_loop_render by (exact Hid || reflexivity).
  unfold SMParser_parse.
  destruct (atom_run a SBEGIN [] [] (tokenize_loop "" false "") eq_refl)
    as (ps1 & Hstep & Hrun).
  eapply parse_loop_accepts.
  - eapply reaches_step; [exact Hstep|].
    eapply reaches_trans; [exact Hrun|].
    parser_rounds. apply reaches_refl.
  - reflexivity.
Qed.

Lemma parse_returns_renderable_tree_witness :
  let a := Function "f" (Function "x" (Apply (Name "f") (Name "x"))) in
  all_accepted "\f x. f x" = true
  /\ Ast_identifiers a = true
  /\ parse (render a) = inr a.
Proof.
  intros a. apply (parse_returns_renderable_tree "\f x. f x" a). reflexivity.
Defined.
